(** * cod3x-recon: the recon pipeline core, embedded and verified

    A shallow embedding of the TypeScript sources
    - [src/core/cache.ts]      (CacheManager over the lru-cache package),
    - [src/core/enumerator.ts] (SubdomainEnumerator.resolveDNS / verifyDNS),
    - [src/core/probe.ts]      (HostProber),
    - [src/core/classifier.ts] (Classifier),
    followed by the properties of the design document that concern them.

    Conventions of the embedding.
    - A JS number that the code only uses as an integer (status codes,
      the scores of the built-in rules, millisecond clock readings, ports)
      is a [Z]; the score that a hook returns is any JS number
      ([JS.Number]), [NaN] and the infinities included.
    - A JS string is a [string] whose characters are its code units; only
      code units below 256 are representable.
    - [Date.now()] is an explicit argument of the operation that reads it.
    - A promise that rejects, or a call that throws, is an explicit
      constructor of the outcome type of the call; [try]/[catch] is a
      [match] on it.
    - The tasks of [verifyDNS] interleave as a schedule has it; the tasks
      of the prober, whose results [Promise.allSettled] returns in the
      order of creation, are run one after the other in that order.
    - The calls of the logger are kept in the classifier, where a failing
      hook is reported through them, and left out elsewhere. *)

From Stdlib Require Import ZArith String Ascii List Lia Bool HexString DecimalString.
From Stdlib Require Import QArith Qcanon Lqa.
From stdpp Require Import base option list gmap strings.
From Equations Require Import Equations.

Local Open Scope string_scope.
Local Open Scope list_scope.
Local Open Scope Z_scope.

(** ** JavaScript primitives used by the sources *)

Module JS.

(** [s.charCodeAt(i)] of one character. *)
Definition charCode (c : ascii) : Z := Z.of_N (N_of_ascii c).

Fixpoint charCodes (s : string) : list Z :=
  match s with
  | EmptyString => []
  | String c t => charCode c :: charCodes t
  end.

(** The abstract operations ToInt32 and ToUint32 of ECMAScript. *)
Definition ToUint32 (x : Z) : Z := x mod 2 ^ 32.
Definition ToInt32 (x : Z) : Z := (x + 2 ^ 31) mod 2 ^ 32 - 2 ^ 31.

(** [a ^ b]: both operands through ToInt32, the result is an int32. *)
Definition bitxor (a b : Z) : Z := Z.lxor (ToInt32 a) (ToInt32 b).

(** [Math.imul(a, b)]: the low 32 bits of the product, as an int32. *)
Definition imul (a b : Z) : Z := ToInt32 (ToUint32 a * ToUint32 b).

(** [x >>> 0]. *)
Definition ushr0 (x : Z) : Z := ToUint32 x.

(** [n.toString(16)] of a non-negative integer: lowercase digits, no
    leading zero, ["0"] for zero. *)
Definition toString16 (n : Z) : string :=
  match n with
  | Zpos p => HexString.Raw.of_pos p ""
  | _ => "0"
  end.

(** [String(n)] of an integer. *)
Definition toString10 (n : Z) : string := NilZero.string_of_int (Z.to_int n).

(** Truthiness of a string: only [""] is falsy. *)
Definition truthy (s : string) : bool := negb (String.eqb s "").

(** [x || d] on a possibly missing string. *)
Definition orElse (x : option string) (d : string) : string :=
  match x with
  | Some s => if truthy s then s else d
  | None => d
  end.

(** [x ?? d]. *)
Definition nullish {A} (x : option A) (d : A) : A :=
  match x with Some v => v | None => d end.

Definition startsWith (s p : string) : bool := String.prefix p s.

(** [s.includes(needle)]. *)
Fixpoint includes (s needle : string) : bool :=
  String.prefix needle s ||
  match s with
  | EmptyString => false
  | String _ t => includes t needle
  end.

(** [s.endsWith(suffix)]. *)
Fixpoint endsWith (s suffix : string) : bool :=
  String.eqb s suffix ||
  match s with
  | EmptyString => false
  | String _ t => endsWith t suffix
  end.

Definition isUpperAZ (n : N) : bool := ((65 <=? n) && (n <=? 90))%N.

(** Upper-case letters of Latin-1 outside ASCII: U+00C0..U+00DE but U+00D7. *)
Definition isUpperLatin1 (n : N) : bool :=
  ((192 <=? n) && (n <=? 222) && negb (n =? 215))%N.

(** [s.toLowerCase()] on code units below 256. *)
Definition lowerChar (c : ascii) : ascii :=
  let n := N_of_ascii c in
  if isUpperAZ n || isUpperLatin1 n then ascii_of_N (n + 32) else c.

Fixpoint toLowerCase (s : string) : string :=
  match s with
  | EmptyString => EmptyString
  | String c t => String (lowerChar c) (toLowerCase t)
  end.

(** Case folding of a RegExp with the [i] flag and without the [u] flag,
    for a pattern made of ASCII characters: a character at or above 128
    never folds onto an ASCII one, so only [A]..[Z] and [a]..[z] are
    identified. *)
Definition foldChar (c : ascii) : ascii :=
  let n := N_of_ascii c in
  if isUpperAZ n then ascii_of_N (n + 32) else c.

Fixpoint foldCase (s : string) : string :=
  match s with
  | EmptyString => EmptyString
  | String c t => String (foldChar c) (foldCase t)
  end.

(** [new RegExp(lit, 'i').test(s)] for a pattern [lit] of literal
    characters. *)
Definition testLiteralI (lit s : string) : bool :=
  includes (foldCase s) (foldCase lit).

(** The alternatives of a pattern [a|b|c] whose alternatives are literal. *)
Fixpoint alternatives (pattern cur : string) : list string :=
  match pattern with
  | EmptyString => [cur]
  | String c t =>
      if Ascii.eqb c "|" then cur :: alternatives t ""
      else alternatives t (cur +:+ String c "")
  end.

(** [new RegExp(pattern, 'i').test(s)] for such a pattern. *)
Definition testAltI (pattern s : string) : bool :=
  existsb (fun lit => testLiteralI lit s) (alternatives pattern "").

(** [parts.join(sep)]. *)
Fixpoint join (sep : string) (parts : list string) : string :=
  match parts with
  | [] => ""
  | [p] => p
  | p :: rest => p +:+ sep +:+ join sep rest
  end.

(** [Array.from(new Set(xs))]: the first occurrence of each element, in
    order. *)
Fixpoint dedupeFrom (seen xs : list string) : list string :=
  match xs with
  | [] => []
  | x :: rest =>
      if bool_decide (x ∈ seen) then dedupeFrom seen rest
      else x :: dedupeFrom (x :: seen) rest
  end.

Definition dedupe (xs : list string) : list string := dedupeFrom [] xs.

(** [set.add(x)] on a [Set] kept as the list of its elements in insertion
    order. *)
Definition setAdd (x : string) (s : list string) : list string :=
  if bool_decide (x ∈ s) then s else s ++ [x].

(** [xs.sort(cmp)]: the sort of ECMAScript 2019 is stable; for a
    comparator that is a consistent ordering it is the stable insertion
    sort. *)
Section Sort.
Context {A : Type} (cmp : A -> A -> Z).

Fixpoint insertSorted (x : A) (sorted : list A) : list A :=
  match sorted with
  | [] => [x]
  | y :: rest =>
      if cmp x y <=? 0 then x :: y :: rest
      else y :: insertSorted x rest
  end.

Definition sort (xs : list A) : list A := foldr insertSorted [] xs.
End Sort.

(** *** Numbers

    A JS number: [NaN], an infinity, or a finite number. The finite
    doubles are rational numbers and the code only compares them
    ([Math.max], [Math.min], [>=], [<]), so a finite number is a rational
    here. The two zeros are one number: they only differ under [Math.max]
    and [Math.min], and the score of the classifier starts from [+0], so it
    is never [-0]. *)
Inductive Number :=
| NaN
| NegInfinity
| Finite (q : Qc)
| Infinity.

Definition ofZ (z : Z) : Number := Finite (Q2Qc (inject_Z z)).

(** [a <= b]; false when one of them is [NaN]. *)
Definition leb (a b : Number) : bool :=
  match a, b with
  | NaN, _ | _, NaN => false
  | NegInfinity, _ => true
  | _, Infinity => true
  | Finite p, Finite q => bool_decide (Qcle p q)
  | _, _ => false
  end.

(** [a >= b]. *)
Definition geb (a b : Number) : bool := leb b a.

(** [a < b]; false when one of them is [NaN]. *)
Definition ltb (a b : Number) : bool :=
  match a, b with
  | NaN, _ | _, NaN => false
  | _, _ => negb (leb b a)
  end.

(** [Math.max(a, b)] and [Math.min(a, b)]: [NaN] when an argument is. *)
Definition Math_max (a b : Number) : Number :=
  match a, b with
  | NaN, _ | _, NaN => NaN
  | _, _ => if leb a b then b else a
  end.

Definition Math_min (a b : Number) : Number :=
  match a, b with
  | NaN, _ | _, NaN => NaN
  | _, _ => if leb a b then a else b
  end.

End JS.

(** ** The records of [src/core/types.ts] *)

Inductive Protocol := http | https.

Definition protocolName (p : Protocol) : string :=
  match p with http => "http" | https => "https" end.

(** A header value: one string, or the array of the repeated header. *)
Inductive HeaderValue :=
| HString (s : string)
| HArray (vs : list string).

Record EndpointCheck := mkEndpointCheck {
  path : string;
  ec_statusCode : Z;
  exists_ : bool;
  ec_notes : option string
}.

(** [validFrom] and [validTo] are the [getTime()] of the [Date]. *)
Record TLSInfo := mkTLSInfo {
  validationError : option string;
  version : option string;
  cipher : option string;
  cipherVersion : option string;
  validFrom : option Z;
  validTo : option Z;
  issuer : option string;
  subject : option string;
  altNames : list string;
  ja3Lite : option string
}.

Record ProbeResult := mkProbeResult {
  hostname : string;
  ip : string;
  protocol : Protocol;
  port : Z;
  statusCode : Z;
  statusText : string;
  headers : gmap string HeaderValue;
  contentLength : Z;
  title : option string;
  redirectChain : list string;
  tls : option TLSInfo;
  endpoints : list EndpointCheck;
  responseTime : Z;
  timestamp : Z
}.

Record ClassificationHint := mkHint {
  hint_categories : list string;
  hint_riskScore : Z;
  hint_notes : string
}.

(** [ClassifiedResult extends ProbeResult]. *)
Record ClassifiedResult := mkClassified {
  probe : ProbeResult;
  categories : list string;
  riskScore : JS.Number;
  notes : string
}.

Inductive SourceTag := crt_sh | dns_source | wordlist.

Record SubdomainResult := mkSubdomain {
  sub_hostname : string;
  source : SourceTag;
  resolvedIPs : list string;
  sub_timestamp : Z
}.

Record CacheEntry (T : Type) := mkCacheEntry {
  value : T;
  expiresAt : Z
}.
Arguments mkCacheEntry {T}.
Arguments value {T}.
Arguments expiresAt {T}.

Inductive LogLevel := debug | info | warn | error.

(** One call of the logger. *)
Definition LogLine : Type := LogLevel * string.

(** ** [src/core/cache.ts] *)

(** The [LRUCache] of the lru-cache package is not part of the repository.
    It is modelled after the documented behaviour of the package for the
    options that [CacheManager] passes ([max], [ttl], [updateAgeOnGet],
    [updateAgeOnHas]; all the others at their defaults):
    - every item remembers when its age started and the [ttl] it was stored
      with; [set] without a [ttl] option stores the [ttl] of the cache;
    - an item is stale when a non-zero [ttl] is exceeded by its age;
    - [get] of a stale item deletes it and returns [undefined]; [get] of a
      fresh item makes it the most recently used one and, under
      [updateAgeOnGet], restarts its age;
    - [set] of a present key replaces the value, restarts the age and makes
      the item the most recently used one; [set] of a new key into a full
      cache first evicts the least recently used item; [max = 0] is
      unbounded.
    The items are kept from the least to the most recently used. The clock
    of the package and [Date.now()] advance together: both are the reading
    [now] of the calling operation. *)
Module LRU.

Record Item (V : Type) := mkItem {
  key : string;
  val : V;
  start : Z;
  item_ttl : Z
}.
Arguments mkItem {V}.
Arguments key {V}.
Arguments val {V}.
Arguments start {V}.
Arguments item_ttl {V}.

Record Options := mkOptions {
  max : nat;
  ttl : Z;
  updateAgeOnGet : bool;
  updateAgeOnHas : bool
}.

Record t (V : Type) := mkLRU {
  options : Options;
  items : list (Item V)
}.
Arguments mkLRU {V}.
Arguments options {V}.
Arguments items {V}.

Section Ops.
Context {V : Type}.

Definition create (o : Options) : t V := mkLRU o [].

Definition isStale (now : Z) (it : Item V) : bool :=
  negb (item_ttl it =? 0) && (item_ttl it <? now - start it).

Definition hasKey (k : string) (it : Item V) : bool := String.eqb (key it) k.

Definition find (k : string) (c : t V) : option (Item V) :=
  List.find (hasKey k) (items c).

Definition without (k : string) (l : list (Item V)) : list (Item V) :=
  List.filter (fun it => negb (hasKey k it)) l.

Definition delete (k : string) (c : t V) : t V :=
  mkLRU (options c) (without k (items c)).

Definition clear (c : t V) : t V := mkLRU (options c) [].

Definition get (now : Z) (k : string) (c : t V) : option V * t V :=
  match find k c with
  | None => (None, c)
  | Some it =>
      if isStale now it then (None, delete k c)
      else
        let it' :=
          if updateAgeOnGet (options c)
          then mkItem (key it) (val it) (if item_ttl it =? 0 then 0 else now) (item_ttl it)
          else it in
        (Some (val it), mkLRU (options c) (without k (items c) ++ [it']))
  end.

Definition evict (l : list (Item V)) : list (Item V) := List.tl l.

Definition set (now : Z) (k : string) (v : V) (c : t V) : t V :=
  let o := options c in
  let fresh := mkItem k v (if ttl o =? 0 then 0 else now) (ttl o) in
  match find k c with
  | Some _ => mkLRU o (without k (items c) ++ [fresh])
  | None =>
      let kept :=
        if bool_decide (List.length (items c) = max o) && negb (Nat.eqb (max o) 0)
        then evict (items c) else items c in
      mkLRU o (kept ++ [fresh])
  end.

Definition size (c : t V) : nat := List.length (items c).
End Ops.

End LRU.

Module CacheManager.

Record t (T : Type) := mkCacheManager {
  cache : LRU.t (CacheEntry T);
  defaultTTL : Z
}.
Arguments mkCacheManager {T}.
Arguments cache {T}.
Arguments defaultTTL {T}.

Section Ops.
Context {T : Type}.

(** [constructor(maxSize = 1000, ttl = 300000)]. *)
Definition new (maxSize : option nat) (ttl : option Z) : t T :=
  let maxSize := JS.nullish maxSize 1000%nat in
  let ttl := JS.nullish ttl 300000 in
  mkCacheManager (LRU.create (LRU.mkOptions maxSize ttl true false)) ttl.

(** [get(key)], with [now] the reading of the clock. *)
Definition get (now : Z) (key : string) (m : t T) : option T * t T :=
  match LRU.get now key (cache m) with
  | (None, c) => (None, mkCacheManager c (defaultTTL m))
  | (Some entry, c) =>
      if expiresAt entry <? now
      then (None, mkCacheManager (LRU.delete key c) (defaultTTL m))
      else (Some (value entry), mkCacheManager c (defaultTTL m))
  end.

(** [set(key, value, ttl?)]. *)
Definition set (now : Z) (key : string) (v : T) (ttl : option Z) (m : t T) : t T :=
  let expiresAt := now + JS.nullish ttl (defaultTTL m) in
  let entry := mkCacheEntry v expiresAt in
  mkCacheManager (LRU.set now key entry (cache m)) (defaultTTL m).

(** [has(key)]. *)
Definition has (now : Z) (key : string) (m : t T) : bool * t T :=
  match LRU.get now key (cache m) with
  | (None, c) => (false, mkCacheManager c (defaultTTL m))
  | (Some entry, c) =>
      if expiresAt entry <? now
      then (false, mkCacheManager (LRU.delete key c) (defaultTTL m))
      else (true, mkCacheManager c (defaultTTL m))
  end.

Definition delete (key : string) (m : t T) : t T :=
  mkCacheManager (LRU.delete key (cache m)) (defaultTTL m).

Definition clear (m : t T) : t T :=
  mkCacheManager (LRU.clear (cache m)) (defaultTTL m).

(** Whether [key] is stored, whatever its age. *)
Definition stored (key : string) (m : t T) : bool :=
  bool_decide (is_Some (LRU.find key (cache m))).
End Ops.

End CacheManager.

Module CacheOps.

(** [getOrSet(key, factory, ttl?)]. The factory runs in a world [W] of its
    own and may reject ([None]); [t_get] and [t_set] are the clock
    readings of the [get] before the factory and of the [set] after it. *)
Definition getOrSet {T W : Type} (t_get t_set : Z) (key : string)
    (factory : W -> option T * W) (ttl : option Z)
    (m : CacheManager.t T) (w : W) : option T * CacheManager.t T * W :=
  match CacheManager.get t_get key m with
  | (Some cached, m1) => (Some cached, m1, w)
  | (None, m1) =>
      match factory w with
      | (Some v, w1) => (Some v, CacheManager.set t_set key v ttl m1, w1)
      | (None, w1) => (None, m1, w1)
      end
  end.

End CacheOps.

(** ** [src/core/enumerator.ts]: DNS verification *)

Module SubdomainEnumerator.

Inductive DnsQuery :=
| QueryA (hostname : string)
| QueryAAAA (hostname : string).

(** The enumerator, with the lookups it has sent to the resolvers so far. *)
Record t := mkEnumerator {
  domain : string;
  concurrency : Z;
  dnsCache : CacheManager.t (list string);
  seenSubdomains : list string;
  queries : list DnsQuery
}.

(** [constructor(domain, concurrency = 10)]. *)
Definition new (domain : string) (concurrency : option Z) : t :=
  mkEnumerator domain (JS.nullish concurrency 10)
    (CacheManager.new (Some 5000%nat) (Some 3600000)) [] [].

Section Resolver.
(** [resolver.resolve4] and [resolver.resolve6] against 8.8.8.8 and
    1.1.1.1: the addresses, or [None] when the promise rejects. The
    first argument counts the lookups sent before this one, so that
    answers may change over time. *)
Variable resolve4 resolve6 : nat -> string -> option (list string).

(** The factory of [resolveDNS]. *)
Definition lookup (hostname : string) (sent : list DnsQuery)
  : option (list string) * list DnsQuery :=
  match resolve4 (List.length sent) hostname with
  | Some addresses => (Some addresses, sent ++ [QueryA hostname])
  | None =>
      let sent := sent ++ [QueryA hostname] in
      match resolve6 (List.length sent) hostname with
      | Some addresses => (Some addresses, sent ++ [QueryAAAA hostname])
      | None => (Some [], sent ++ [QueryAAAA hostname])
      end
  end.

Definition dnsKey (hostname : string) : string := "dns:" +:+ hostname.

(** [resolveDNS(hostname)]; [None] is a rejected promise. *)
Definition resolveDNS (t_get t_set : Z) (hostname : string) (e : t)
  : option (list string) * t :=
  let '(r, c, q) :=
    CacheOps.getOrSet t_get t_set (dnsKey hostname) (lookup hostname)
      (Some 3600000) (dnsCache e) (queries e) in
  (r, mkEnumerator (domain e) (concurrency e) c (seenSubdomains e) q).

Definition withIPs (candidate : SubdomainResult) (ips : list string) : SubdomainResult :=
  mkSubdomain (sub_hostname candidate) (source candidate) ips (sub_timestamp candidate).

(** *** The tasks of [verifyDNS]

    [verifyDNS] hands one task per candidate to p-limit and awaits them
    all. A task runs in steps; between two of its steps the steps of other
    tasks may run, and the cache, the resolvers and the array [verified] are
    shared by all of them. The state of a task tells which step it takes
    next:
    - [Queued]: the task starts: [getOrSet] reads the cache and, on a miss,
      the factory sends the A lookup;
    - [AwaitA n]: the A lookup, sent as lookup number [n], settles: its
      addresses are what the factory returns, or the AAAA lookup is sent;
    - [AwaitAAAA n]: the AAAA lookup settles: its addresses, or the empty
      list, are what the factory returns;
    - [Answered ips]: the factory has returned: [getOrSet] stores the value;
    - [Resolved ips]: [resolveDNS] has returned [ips]: the task pushes its
      candidate when [ips.length > 0], and ends;
    - [Done ips]: the task has ended.
    Which task steps next is decided by the event loop, the network and
    p-limit. p-limit only postpones the start of a task, so every run under
    a limit is the run of some schedule. *)
Inductive Task :=
| Queued
| AwaitA (n : nat)
| AwaitAAAA (n : nat)
| Answered (ips : list string)
| Resolved (ips : list string)
| Done (ips : list string).

(** A run of [verifyDNS]: the enumerator, the tasks by the index of their
    candidate, and the array [verified]. *)
Record Run := mkRun {
  run_self : t;
  run_tasks : list Task;
  run_verified : list SubdomainResult
}.

Definition withCacheAndQueries (e : t) (c : CacheManager.t (list string))
    (q : list DnsQuery) : t :=
  mkEnumerator (domain e) (concurrency e) c (seenSubdomains e) q.

(** The next step of the task of candidate [i]; [clock i] are the clock
    readings of its [get] and of its [set]. *)
Definition step (clock : nat -> Z * Z) (candidates : list SubdomainResult)
    (s : Run) (i : nat) : Run :=
  match candidates !! i, run_tasks s !! i with
  | Some candidate, Some task =>
      let e := run_self s in
      let hostname := sub_hostname candidate in
      let verified := run_verified s in
      let become task' e' verified' := mkRun e' (<[i := task']> (run_tasks s)) verified' in
      match task with
      | Queued =>
          match CacheManager.get (clock i).1 (dnsKey hostname) (dnsCache e) with
          | (Some cached, c) =>
              become (Resolved cached) (withCacheAndQueries e c (queries e)) verified
          | (None, c) =>
              become (AwaitA (List.length (queries e)))
                (withCacheAndQueries e c (queries e ++ [QueryA hostname])) verified
          end
      | AwaitA n =>
          match resolve4 n hostname with
          | Some addresses => become (Answered addresses) e verified
          | None =>
              become (AwaitAAAA (List.length (queries e)))
                (withCacheAndQueries e (dnsCache e) (queries e ++ [QueryAAAA hostname]))
                verified
          end
      | AwaitAAAA n =>
          match resolve6 n hostname with
          | Some addresses => become (Answered addresses) e verified
          | None => become (Answered []) e verified
          end
      | Answered ips =>
          become (Resolved ips)
            (withCacheAndQueries e
               (CacheManager.set (clock i).2 (dnsKey hostname) ips (Some 3600000) (dnsCache e))
               (queries e))
            verified
      | Resolved ips =>
          become (Done ips) e
            (if 0 <? Z.of_nat (List.length ips)
             then verified ++ [withIPs candidate ips]
             else verified)
      | Done _ => s
      end
  | _, _ => s
  end.

(** The tasks that a schedule leaves unfinished are completed one after
    the other, in the order of the candidates; a task takes five steps at
    most. *)
Definition drain (n : nat) : list nat := flat_map (fun i => replicate 5 i) (seq 0 n).

(** The run of [verifyDNS(candidates)] under a schedule, up to the point
    where [Promise.all] settles. *)
Definition verifyRun (clock : nat -> Z * Z) (schedule : list nat)
    (candidates : list SubdomainResult) (e : t) : Run :=
  fold_left (step clock candidates) (schedule ++ drain (List.length candidates))
    (mkRun e (replicate (List.length candidates) Queued) []).

(** [verifyDNS(candidates)]. *)
Definition verifyDNS (clock : nat -> Z * Z) (schedule : list nat)
    (candidates : list SubdomainResult) (e : t) : list SubdomainResult * t :=
  let run := verifyRun clock schedule candidates e in
  (run_verified run, run_self run).
End Resolver.

End SubdomainEnumerator.

(** ** [src/core/probe.ts] *)

Module HostProber.

Definition DEFAULT_COMMON_ENDPOINTS : list string :=
  ["/"; "/login"; "/admin"; "/api"; "/status"; "/health"; "/.git";
   "/robots.txt"; "/sitemap.xml"].

Record t := mkProber {
  timeout : Z;
  concurrency : Z;
  endpointConcurrency : Z;
  cache : CacheManager.t ProbeResult;
  commonEndpoints : list string
}.

(** [constructor(timeout = 3000, concurrency = 10, endpointConcurrency = 6,
    commonEndpoints = undefined)]. *)
Definition new (timeout concurrency endpointConcurrency : option Z)
    (commonEndpoints : option (list string)) : t :=
  mkProber (JS.nullish timeout 3000) (JS.nullish concurrency 10)
    (JS.nullish endpointConcurrency 6)
    (CacheManager.new (Some 2000%nat) (Some (10 * 60 * 1000)))
    (JS.nullish commonEndpoints DEFAULT_COMMON_ENDPOINTS).

Definition withCache (p : t) (c : CacheManager.t ProbeResult) : t :=
  mkProber (timeout p) (concurrency p) (endpointConcurrency p) c (commonEndpoints p).

(** What undici's [request] resolves to; [res_body] is [body.text()],
    [None] when reading the body rejects. *)
Record ResponseData := mkResponse {
  res_statusCode : Z;
  res_headers : gmap string HeaderValue;
  res_body : option string
}.

(** A request either resolves or rejects (connection failure, abort by the
    timeout timer). *)
Inductive RequestOutcome :=
| Responded (resp : ResponseData)
| Rejected (message : string).

(** The fields of [getPeerCertificate(true)] that are read; the dates are
    already parsed. *)
Record PeerCertificate := mkCert {
  valid_from : option Z;
  valid_to : option Z;
  issuerCN : option string;
  subjectCN : option string;
  subjectaltname : option string
}.

(** What happens first on the TLS socket: the [secureConnect] callback
    (with [getPeerCertificate], [None] when it throws, [getProtocol] and
    the name and version of [getCipher]), an [error] event with its code,
    or the socket timeout. *)
Inductive TlsOutcome :=
| SecureConnect (peer : option PeerCertificate) (getProtocol : option string)
    (getCipher : option (string * option string))
| TlsError (code : option string)
| TlsTimeout.

(** The environment of one probe attempt: the clock readings in the order
    in which [probeHost] takes them, and the answers of the network. The
    answer to a request of the redirect loop may depend on the number of
    redirects followed before it. *)
Record World := mkWorld {
  now_cacheGet : Z;
  now_start : Z;
  now_end : Z;
  now_timestamp : Z;
  now_cacheSet : Z;
  request : nat -> string -> string -> RequestOutcome;
  endpointRequest : string -> string -> RequestOutcome;
  tlsConnect : string -> Z -> TlsOutcome
}.

(** The 32-bit hash loop of [computeJA3Lite]: [h ^= code] and
    [h = Math.imul(h, 16777619) >>> 0]. *)
Definition hashStep (h code : Z) : Z :=
  let h := JS.bitxor h code in
  JS.ushr0 (JS.imul h 16777619).

Definition computeJA3Lite (protocol cipher sigAlg : option string) : string :=
  let p := JS.nullish protocol "unknown" in
  let c := JS.nullish cipher "unknown" in
  let s := JS.nullish sigAlg "unknown" in
  let h := JS.ushr0 2166136261 in
  let str := p +:+ "|" +:+ c +:+ "|" +:+ s in
  let h := fold_left hashStep (JS.charCodes str) h in
  "ja3lite-" +:+ JS.toString16 h.

Definition validationErrorCodes : list string :=
  ["ERR_TLS_CERT_ALTNAME_INVALID"; "CERT_HAS_EXPIRED";
   "SELF_SIGNED_CERT_IN_CHAIN"; "UNABLE_TO_VERIFY_LEAF_SIGNATURE"].

Definition truthyOpt (x : option string) : option string :=
  match x with
  | Some s => if JS.truthy s then Some s else None
  | None => None
  end.

(** [Buffer.byteLength(body)] in UTF-8, for code units below 256. *)
Fixpoint byteLength (s : string) : Z :=
  match s with
  | EmptyString => 0
  | String c t => (if JS.charCode c <? 128 then 1 else 2) + byteLength t
  end.

(** [normalizeHeaders]. *)
Definition normalizeHeaders (hs : gmap string HeaderValue) : gmap string HeaderValue :=
  (fun v => match v with
            | HArray vs => HString (JS.join ", " vs)
            | HString s => HString s
            end) <$> hs.

(** The set of paths that [probeEndpoints] requests, in insertion order. *)
Definition addVariations (paths : list string) (p : string) : list string :=
  let paths := if negb (JS.endsWith p "/") then JS.setAdd (p +:+ "/") paths else paths in
  if negb (JS.includes p ".")
  then JS.setAdd (p +:+ ".asp") (JS.setAdd (p +:+ ".php") paths)
  else paths.

Definition expandPaths (commonEndpoints : list string) : list string :=
  let paths := fold_left (fun paths p => JS.setAdd p paths) commonEndpoints [] in
  let paths := fold_left addVariations paths paths in
  JS.setAdd "/" paths.

(** The comparator [(a, b) => Number(b.exists) - Number(a.exists)]. *)
Definition existsFirst (a b : EndpointCheck) : Z :=
  Z.b2z (exists_ b) - Z.b2z (exists_ a).

Section Library.
(** Library functions that are not interpreted: [new URL(location,
    base).toString()] and [new URL(url).protocol] ([None] when the
    constructor throws), the match of the [<title>] regular expression
    with its [trim()], the split of [subjectaltname], and [Number] of a
    string. *)
Variable URL_toString : string -> string -> option string.
Variable URL_protocol : string -> option string.
Variable extractTitle : string -> option string.
Variable splitAltNames : string -> list string.
Variable Number : string -> Z.

(** [resolveLocation]; [None] when the fallback itself throws. *)
Definition resolveLocation (currentUrl locationHeader : string) : option string :=
  match URL_toString locationHeader currentUrl with
  | Some u => Some u
  | None =>
      if JS.startsWith locationHeader "//"
      then match URL_protocol currentUrl with
           | Some proto => Some (proto +:+ locationHeader)
           | None => None
           end
      else Some locationHeader
  end.

(** [(resp.headers && resp.headers.location) || undefined]; an array
    is truthy and is stringified by [new URL]. *)
Definition rawLocation (resp : ResponseData) : option string :=
  match res_headers resp !! "location" with
  | Some (HString s) => if JS.truthy s then Some s else None
  | Some (HArray vs) => Some (JS.join "," vs)
  | None => None
  end.

Definition isRedirect (status : Z) : bool := (300 <=? status) && (status <? 400).

(** The [while (redirects <= maxRedirects)] loop of
    [fetchWithRedirects]. *)
Equations? fetchLoop (w : World) (hostHeader : string) (maxRedirects redirects : Z)
    (url : string) (redirectChain : list string)
  : option ResponseData * list string
  by wf (Z.to_nat (maxRedirects + 1 - redirects)) lt :=
fetchLoop w hostHeader maxRedirects redirects url redirectChain
  with Z_le_dec redirects maxRedirects := {
  | right _ => (None, redirectChain)
  | left _ with request w (Z.to_nat redirects) url hostHeader := {
    | Rejected _ => (None, redirectChain)
    | Responded resp with isRedirect (res_statusCode resp), rawLocation resp := {
      | true, Some raw with resolveLocation url raw := {
        | Some location =>
            fetchLoop w hostHeader maxRedirects (redirects + 1) location
              (redirectChain ++ [location])
        | None => (None, redirectChain) }
      | _, _ => (Some resp, redirectChain) } } }.
Proof. lia. Qed.

Record FetchOptions := mkFetchOptions {
  fo_hostname : string;
  fo_ip : string;
  fo_protocol : Protocol;
  fo_port : Z;
  fo_maxRedirects : Z;
  fo_timeout : Z
}.

Definition fetchWithRedirects (w : World) (opts : FetchOptions)
  : option ResponseData * list string :=
  let url := protocolName (fo_protocol opts) +:+ "://" +:+ fo_ip opts +:+ ":"
             +:+ JS.toString10 (fo_port opts) +:+ "/" in
  let hostHeader := fo_hostname opts in
  fetchLoop w hostHeader (fo_maxRedirects opts) 0 url [].

(** [extractTLSInfoSafe]. *)
Definition extractTLSInfoSafe (w : World) (hostname : string) (port : Z) : option TLSInfo :=
  match tlsConnect w hostname port with
  | SecureConnect None _ _ => None
  | SecureConnect (Some cert) getProtocol getCipher =>
      let protocol := JS.orElse getProtocol "unknown" in
      let cipher := JS.orElse (fst <$> getCipher) "unknown" in
      let cipherVersion := truthyOpt (getCipher ≫= snd) in
      let sigAlg : option string := None in
      let ja3Lite := computeJA3Lite (Some protocol) (Some cipher) sigAlg in
      Some (mkTLSInfo None
              (if String.eqb protocol "unknown" then None else Some protocol)
              (if String.eqb cipher "unknown" then None else Some cipher)
              cipherVersion
              (valid_from cert) (valid_to cert)
              (issuerCN cert) (subjectCN cert)
              (match truthyOpt (subjectaltname cert) with
               | Some names => splitAltNames names
               | None => []
               end)
              (Some ja3Lite))
  | TlsError code =>
      match truthyOpt code with
      | Some code =>
          if bool_decide (code ∈ validationErrorCodes)
          then Some (mkTLSInfo (Some code) None None None None None None None [] None)
          else None
      | None => None
      end
  | TlsTimeout => None
  end.

(** The URL of an endpoint request. *)
Definition endpointUrl (hostname : string) (protocol : Protocol) (port : Z)
    (p : string) : string :=
  protocolName protocol +:+ "://" +:+ hostname +:+ ":" +:+ JS.toString10 port +:+ p.

(** One task of [probeEndpoints]. *)
Definition probeEndpoint (w : World) (hostname : string) (protocol : Protocol)
    (port : Z) (p : string) : EndpointCheck :=
  let url := endpointUrl hostname protocol port p in
  match endpointRequest w url hostname with
  | Responded resp =>
      let exists_ := res_statusCode resp <? 400 in
      let notes :=
        if exists_ then
          match res_body resp with
          | Some txt =>
              if JS.testLiteralI "Index of /" txt || JS.testLiteralI "Parent Directory" txt
              then Some "Directory listing suspected"
              else if String.eqb p "/robots.txt" && JS.truthy txt
              then Some "robots.txt present"
              else if String.eqb p "/sitemap.xml" && JS.truthy txt
              then Some "sitemap.xml present"
              else None
          | None => None
          end
        else None in
      mkEndpointCheck p (res_statusCode resp) exists_ notes
  | Rejected _ => mkEndpointCheck p 0 false None
  end.

Definition probeEndpoints (w : World) (self : t) (hostname : string)
    (protocol : Protocol) (port : Z) : list EndpointCheck :=
  let paths := expandPaths (commonEndpoints self) in
  let resolved := List.map (probeEndpoint w hostname protocol port) paths in
  JS.sort existsFirst resolved.

Definition contentLengthOf (resp : ResponseData) (body : string) : Z :=
  match res_headers resp !! "content-length" with
  | Some (HString s) => if JS.truthy s then Number s else byteLength body
  | Some (HArray vs) => Number (JS.join "," vs)
  | None => byteLength body
  end.

Definition probeCacheKey (hostname ip : string) (protocol : Protocol) (port : Z) : string :=
  "probe:" +:+ protocolName protocol +:+ ":" +:+ hostname +:+ ":" +:+ ip +:+ ":"
  +:+ JS.toString10 port.

(** [probeHost]; [None] is the [null] of an attempt that yields
    nothing. *)
Definition probeHost (w : World) (hostname ip : string) (protocol : Protocol)
    (port : Z) (self : t) : option ProbeResult * t :=
  let cacheKey := probeCacheKey hostname ip protocol port in
  match CacheManager.get (now_cacheGet w) cacheKey (cache self) with
  | (Some cached, c) => (Some cached, withCache self c)
  | (None, c) =>
      let self := withCache self c in
      let start := now_start w in
      let maxRedirects := 5 in
      match fetchWithRedirects w
              (mkFetchOptions hostname ip protocol port maxRedirects (timeout self)) with
      | (None, _) => (None, self)
      | (Some finalResponse, redirectChain) =>
          match res_body finalResponse with
          | None => (None, self)
          | Some body =>
              let responseTime := now_end w - start in
              let title := extractTitle body in
              let tls :=
                match protocol with
                | https => extractTLSInfoSafe w hostname port
                | http => None
                end in
              let endpoints := probeEndpoints w self hostname protocol port in
              let result :=
                mkProbeResult hostname ip protocol port
                  (res_statusCode finalResponse)
                  (JS.toString10 (res_statusCode finalResponse))
                  (normalizeHeaders (res_headers finalResponse))
                  (contentLengthOf finalResponse body)
                  title redirectChain tls endpoints responseTime
                  (now_timestamp w) in
              (Some result,
               withCache self
                 (CacheManager.set (now_cacheSet w) cacheKey result None (cache self)))
          end
      end
  end.

(** The tasks that [probeHosts] creates, in order. *)
Definition probeTasks (subdomains : list SubdomainResult)
  : list (string * string * Protocol * Z) :=
  sub ← subdomains;
  ip ← resolvedIPs sub;
  [(sub_hostname sub, ip, https, 443); (sub_hostname sub, ip, http, 80)].

Fixpoint runTasks (worlds : nat -> World) (tasks : list (string * string * Protocol * Z))
    (self : t) : list ProbeResult * t :=
  match tasks with
  | [] => ([], self)
  | (hostname, ip, protocol, port) :: rest =>
      let '(r, self1) := probeHost (worlds 0%nat) hostname ip protocol port self in
      let '(results, self2) := runTasks (fun i => worlds (S i)) rest self1 in
      (match r with Some v => v :: results | None => results end, self2)
  end.

(** [probeHosts]; [worlds i] is the environment of task [i]. *)
Definition probeHosts (worlds : nat -> World) (subdomains : list SubdomainResult)
    (self : t) : list ProbeResult * t :=
  runTasks worlds (probeTasks subdomains) self.
End Library.

End HostProber.

(** ** [src/core/classifier.ts] *)

Module Classifier.

(** The three local variables [categories], [riskScore] and [notes]. *)
Record Acc := mkAcc {
  acc_categories : list string;
  acc_riskScore : Z;
  acc_notes : list string
}.

(** [categories.push(c); riskScore = Math.max(riskScore, risk);
    notes.push(note)]; a rule without a category pushes none. *)
Definition fire (category : option string) (risk : Z) (note : string) (a : Acc) : Acc :=
  mkAcc (acc_categories a ++ match category with Some c => [c] | None => [] end)
        (Z.max (acc_riskScore a) risk)
        (acc_notes a ++ [note]).

Definition hostnamePatterns : list (string * (string * Z)) :=
  [("staging|stg|stage|dev|development", ("staging", 60));
   ("api", ("api", 40));
   ("admin|administrator|management", ("admin-panel", 85));
   ("test|testing|qa", ("testing", 55));
   ("mail|smtp|imap|pop", ("mail", 30));
   ("vpn|remote", ("remote-access", 50));
   ("jenkins|gitlab|ci|cd", ("ci-cd", 70));
   ("static|cdn|assets", ("static", 10))].

(** The body of the loop over [Object.entries(hostnamePatterns)]. *)
Definition hostnameRule (result : ProbeResult) (a : Acc) (entry : string * (string * Z)) : Acc :=
  let '(pattern, (category, risk)) := entry in
  if JS.testAltI pattern (hostname result)
  then fire (Some category) risk (category +:+ " detected in hostname") a
  else a.

Definition statusCodeRule (result : ProbeResult) (a : Acc) : Acc :=
  if (statusCode result =? 200) && bool_decide ("admin-panel" ∈ acc_categories a)
  then fire None 85 "Admin panel accessible" a
  else if (statusCode result =? 401) || (statusCode result =? 403)
  then fire None 40 "Authentication required" a
  else if 500 <=? statusCode result
  then fire None 30 "Server error detected" a
  else a.

(** A pattern [pre[c1..cn]post] with the [i] flag. *)
Definition testClassI (pre : string) (class : list string) (post s : string) : bool :=
  existsb (fun c => JS.testLiteralI (pre +:+ c +:+ post) s) class.

Definition digits : list string := ["0"; "1"; "2"; "3"; "4"; "5"; "6"; "7"; "8"; "9"].

(** [outdatedPatterns.some((p) => p.test(serverHeader))]. *)
Definition outdated (serverHeader : string) : bool :=
  JS.testLiteralI "apache/1." serverHeader
  || testClassI "apache/2." ["0"; "1"; "2"] "" serverHeader
  || testClassI "nginx/1." digits "." serverHeader
  || testClassI "iis/" ["6"; "7"] "." serverHeader.

Definition serverHeaderOf (headers : gmap string HeaderValue) : string :=
  match headers !! "server" with
  | Some (HString rawServer) => JS.toLowerCase rawServer
  | _ => ""
  end.

Definition outdatedServerRule (result : ProbeResult) (a : Acc) : Acc :=
  if outdated (serverHeaderOf (headers result))
  then fire (Some "outdated-server") 60 "Outdated server software detected" a
  else a.

(** [headers[k] === s]. *)
Definition headerIs (headers : gmap string HeaderValue) (k s : string) : bool :=
  match headers !! k with
  | Some (HString v) => String.eqb v s
  | _ => false
  end.

Definition corsRule (result : ProbeResult) (a : Acc) : Acc :=
  if headerIs (headers result) "access-control-allow-origin" "*"
     && headerIs (headers result) "access-control-allow-credentials" "true"
  then fire (Some "cors-unsafe") 75 "Unsafe CORS policy" a
  else a.

Definition securityHeaders : list string :=
  ["strict-transport-security"; "x-frame-options"; "x-content-type-options";
   "content-security-policy"].

(** [!headers[h]]. *)
Definition headerMissing (headers : gmap string HeaderValue) (h : string) : bool :=
  match headers !! h with
  | None => true
  | Some (HString v) => negb (JS.truthy v)
  | Some (HArray _) => false
  end.

Definition missingHeaders (result : ProbeResult) : list string :=
  List.filter (headerMissing (headers result)) securityHeaders.

Definition weakHeadersRule (result : ProbeResult) (a : Acc) : Acc :=
  let missing := missingHeaders result in
  if 3 <=? Z.of_nat (List.length missing)
  then fire (Some "weak-headers") 45
         ("Missing " +:+ JS.toString10 (Z.of_nat (List.length missing)) +:+ " security headers") a
  else a.

Definition sensitiveEndpoints (result : ProbeResult) : list EndpointCheck :=
  List.filter (fun e => exists_ e && (JS.includes (path e) "admin" || JS.includes (path e) ".git"))
    (endpoints result).

Definition exposedEndpointsRule (result : ProbeResult) (a : Acc) : Acc :=
  let sensitive := sensitiveEndpoints result in
  if 0 <? Z.of_nat (List.length sensitive)
  then fire (Some "exposed-endpoints") 80
         ("Sensitive endpoints exposed: " +:+ JS.join ", " (List.map path sensitive)) a
  else a.

Definition hasListingNote (e : EndpointCheck) : bool :=
  match ec_notes e with
  | Some notes =>
      JS.truthy notes &&
      (let n := JS.toLowerCase notes in
       JS.includes n "directory listing" || JS.includes n "index of")
  | None => false
  end.

Definition directoryListingRule (result : ProbeResult) (a : Acc) : Acc :=
  match List.find hasListingNote (endpoints result) with
  | Some _ =>
      (* the characters of this note beyond Latin-1 are kept as their
         UTF-8 bytes; no property below reads them *)
      fire (Some "directory-listing") 80
        "Directory listing enabled â€” sensitive files may be exposed" a
  | None => a
  end.

Definition oneWeek : Z := 7 * 24 * 60 * 60 * 1000.

Definition weakCiphers : list string := ["RC4"; "DES"; "MD5"; "3DES"].

Definition hasWeakCipher (t : TLSInfo) : bool :=
  match cipher t with
  | Some cipher => JS.truthy cipher && existsb (fun c => JS.includes cipher c) weakCiphers
  | None => false
  end.

(** The block [if (result.tls) { ... }]; [now] is its [Date.now()]. *)
Definition tlsRules (now : Z) (result : ProbeResult) (a : Acc) : Acc :=
  match tls result with
  | Some t =>
      let a :=
        match validTo t with
        | Some validTo =>
            let a :=
              if validTo <? now
              then fire (Some "expired-certificate") 65 "TLS certificate expired" a
              else a in
            if validTo - now <? oneWeek
            then fire (Some "expiring-certificate") 40 "TLS certificate expiring soon" a
            else a
        | None => a
        end in
      if hasWeakCipher t
      then fire (Some "weak-cipher") 70 "Weak TLS cipher detected" a
      else a
  | None => a
  end.

Definition noTlsRule (result : ProbeResult) (a : Acc) : Acc :=
  match tls result, protocol result with
  | None, http => fire (Some "no-tls") 50 "No TLS encryption" a
  | _, _ => a
  end.

Definition slowResponseRule (result : ProbeResult) (a : Acc) : Acc :=
  if 5000 <? responseTime result
  then fire (Some "slow-response") 20 "Slow response time" a
  else a.

(** The rules in the order of the source, on the three local variables. *)
Definition runBuiltInRules (now : Z) (result : ProbeResult) : Acc :=
  let a := mkAcc [] 0 [] in
  let a := fold_left (hostnameRule result) hostnamePatterns a in
  let a := statusCodeRule result a in
  let a := outdatedServerRule result a in
  let a := corsRule result a in
  let a := weakHeadersRule result a in
  let a := exposedEndpointsRule result a in
  let a := directoryListingRule result a in
  let a := tlsRules now result a in
  let a := noTlsRule result a in
  slowResponseRule result a.

Definition applyBuiltInRules (now : Z) (result : ProbeResult) : ClassificationHint :=
  let a := runBuiltInRules now result in
  mkHint (match acc_categories a with [] => ["standard"] | cs => cs end)
         (acc_riskScore a)
         (JS.join "; " (acc_notes a)).

(** What [onClassify] may hand back, as far as [classify] looks at it. *)
Inductive ArrayElem :=
| ElemString (s : string)
| ElemOther.

Inductive RawCategories :=
| CategoriesArray (elems : list ArrayElem)
| CategoriesOther.

Record RawHint := mkRawHint {
  raw_categories : RawCategories;
  raw_riskScore : option JS.Number;
  raw_notes : option string
}.

(** A non-null object, or anything else ([null], [undefined], a
    primitive). *)
Inductive RawReturn :=
| ReturnsObject (hint : RawHint)
| ReturnsOther.

(** What a hook throws, as far as the [catch] block looks at it: an
    [Error], of which the block takes the [message], or any other value, of
    which it takes [String(error)]. The string is the one that ends up in
    the log line; it is [None] when making it throws ([String] of an object
    without a usable [toString], a [message] that the template literal
    cannot convert). *)
Inductive Thrown :=
| ThrownError (message : option string)
| ThrownOther (asString : option string).

Inductive HookOutcome :=
| Returns (raw : RawReturn)
| Throws (thrown : Thrown).

Record Plugin := mkPlugin {
  name : string;
  plugin_version : string;
  onClassify : option (ProbeResult -> HookOutcome)
}.

(** [hint.categories.every((v) => typeof v === 'string')], with the
    strings. *)
Fixpoint allStrings (elems : list ArrayElem) : option (list string) :=
  match elems with
  | [] => Some []
  | ElemString s :: rest =>
      match allStrings rest with
      | Some ss => Some (s :: ss)
      | None => None
      end
  | ElemOther :: _ => None
  end.

(** The hint that passes the two guards of the [try] block. *)
Definition acceptedHint (raw : RawReturn) : option (list string * RawHint) :=
  match raw with
  | ReturnsObject hint =>
      match raw_categories hint with
      | CategoriesArray elems =>
          match allStrings elems with
          | Some cs => Some (cs, hint)
          | None => None
          end
      | CategoriesOther => None
      end
  | ReturnsOther => None
  end.

(** The three local variables [categories], [riskScore] and [notes] of the
    loop body of [classify]. *)
Record Locals := mkLocals {
  loc_categories : list string;
  loc_riskScore : JS.Number;
  loc_notes : list string
}.

(** [error instanceof Error ? error.message : String(error)], as it is
    rendered into the log line. *)
Definition errorMessageOf (thrown : Thrown) : option string :=
  match thrown with
  | ThrownError message => message
  | ThrownOther asString => asString
  end.

(** The body of the loop over [plugins]; [None] when the [catch] block
    itself throws, which ends [classify]. *)
Definition pluginStep (result : ProbeResult) (st : Locals * list LogLine) (plugin : Plugin)
  : option (Locals * list LogLine) :=
  let '(a, log) := st in
  match onClassify plugin with
  | Some onClassify =>
      match onClassify result with
      | Returns rawHint =>
          match acceptedHint rawHint with
          | Some (cs, hint) =>
              Some (mkLocals (loc_categories a ++ cs)
                      (JS.Math_max (loc_riskScore a)
                         (JS.nullish (raw_riskScore hint) (JS.ofZ 0)))
                      (loc_notes a ++
                       match raw_notes hint with
                       | Some n => if JS.truthy n then [n] else []
                       | None => []
                       end),
                    log)
          | None => Some (a, log)
          end
      | Throws thrown =>
          match errorMessageOf thrown with
          | Some errorMessage =>
              Some (a, log ++ [(error, "Plugin " +:+ name plugin
                                       +:+ " classification failed: " +:+ errorMessage)])
          | None => None
          end
      end
  | None => Some (a, log)
  end.

(** The loop over [plugins]. *)
Fixpoint pluginLoop (result : ProbeResult) (plugins : list Plugin)
    (st : Locals * list LogLine) : option (Locals * list LogLine) :=
  match plugins with
  | [] => Some st
  | plugin :: rest =>
      match pluginStep result st plugin with
      | Some st => pluginLoop result rest st
      | None => None
      end
  end.

(** The body of the loop over [probeResults]; [None] when it throws. *)
Definition classifyRecord (now : Z) (plugins : list Plugin) (result : ProbeResult)
  : option (ClassifiedResult * list LogLine) :=
  let builtIn := applyBuiltInRules now result in
  let a := mkLocals (hint_categories builtIn)
                    (JS.Math_max (JS.ofZ 0) (JS.ofZ (hint_riskScore builtIn)))
                    (if JS.truthy (hint_notes builtIn) then [hint_notes builtIn] else []) in
  match pluginLoop result plugins (a, []) with
  | Some (a, log) =>
      let dedupedCategories := JS.dedupe (loc_categories a) in
      Some (mkClassified result dedupedCategories
              (JS.Math_min (loc_riskScore a) (JS.ofZ 100))
              (match loc_notes a with
               | [] => "No significant findings"
               | ns => JS.join "; " ns
               end),
            log)
  | None => None
  end.

Fixpoint classifyAll (clock : nat -> Z) (plugins : list Plugin) (probeResults : list ProbeResult)
  : option (list ClassifiedResult * list LogLine) :=
  match probeResults with
  | [] => Some ([], [])
  | result :: rest =>
      match classifyRecord (clock 0%nat) plugins result with
      | Some (c, log1) =>
          match classifyAll (fun i => clock (S i)) plugins rest with
          | Some (cs, log2) => Some (c :: cs, log1 ++ log2)
          | None => None
          end
      | None => None
      end
  end.

(** [classify(probeResults, plugins = [])]; [clock i] is the reading of
    [Date.now()] while record [i] is classified. [None] is a rejected
    promise. *)
Definition classify (clock : nat -> Z) (probeResults : list ProbeResult)
    (plugins : option (list Plugin)) : option (list ClassifiedResult * list LogLine) :=
  let plugins := JS.nullish plugins [] in
  match classifyAll clock plugins probeResults with
  | Some (classified, log) => Some (classified, (info, "Classifying probe results...") :: log)
  | None => None
  end.

End Classifier.

(** ** Reference definitions, after the design document *)

Module Spec.

(** The 32-bit FNV-1a hash: offset basis 2166136261, prime 16777619, for
    every character xor then multiply, modulo 2^32. *)
Definition fnv1a32 (s : string) : Z :=
  fold_left (fun h code => (Z.lxor h code * 16777619) mod 2 ^ 32)
    (JS.charCodes s) 2166136261.

(** A candidate is kept, with its addresses, when its resolution yields at
    least one address. *)
Definition verified (candidate : SubdomainResult) (r : option (list string))
  : option SubdomainResult :=
  match r with
  | Some (ip :: ips) => Some (SubdomainEnumerator.withIPs candidate (ip :: ips))
  | _ => None
  end.

(** What a task contributes to the verified output: nothing before it has
    ended, and then its candidate when the resolution yielded an address. *)
Definition kept (ct : SubdomainResult * SubdomainEnumerator.Task) : option SubdomainResult :=
  match ct.2 with
  | SubdomainEnumerator.Done ips => verified ct.1 (Some ips)
  | _ => None
  end.

(** An AAAA lookup is only sent for a hostname whose A lookup, sent
    before it, has failed; of the lookups sent from number [base] on. *)
Definition aaaaOnlyAfterFailedA (resolve4 : nat -> string -> option (list string))
    (base : nat) (sent : list SubdomainEnumerator.DnsQuery) : Prop :=
  forall m h,
    (base <= m)%nat ->
    sent !! m = Some (SubdomainEnumerator.QueryAAAA h) ->
    exists n, (base <= n < m)%nat
              /\ sent !! n = Some (SubdomainEnumerator.QueryA h)
              /\ resolve4 n h = None.

(** As the design document words it: a path exists when its status is
    below 400. *)
Definition existsIffBelow400 (e : EndpointCheck) : Prop :=
  exists_ e = true <-> ec_statusCode e < 400.

(** The root path has a check. *)
Definition hasRoot (checks : list EndpointCheck) : Prop :=
  "/" ∈ List.map path checks.

(** Every existing endpoint comes before every non-existing one. *)
Definition existingFirst (checks : list EndpointCheck) : Prop :=
  forall (i j : nat) (a b : EndpointCheck),
    checks !! i = Some a -> checks !! j = Some b ->
    exists_ a = false -> exists_ b = true -> (j < i)%nat.

(** The next [n] requests of the redirect loop, the first being request
    number [k] to [url], are all answered by a redirect that is
    followed. *)
Fixpoint redirectsInARow (URL_toString : string -> string -> option string)
    (URL_protocol : string -> option string) (w : HostProber.World)
    (hostHeader : string) (n k : nat) (url : string) : bool :=
  match n with
  | O => true
  | S n' =>
      match HostProber.request w k url hostHeader with
      | HostProber.Responded resp =>
          HostProber.isRedirect (HostProber.res_statusCode resp) &&
          match HostProber.rawLocation resp with
          | Some raw =>
              match HostProber.resolveLocation URL_toString URL_protocol url raw with
              | Some location =>
                  redirectsInARow URL_toString URL_protocol w hostHeader n' (S k) location
              | None => false
              end
          | None => false
          end
      | HostProber.Rejected _ => false
      end
  end.

(** The URL of the first request of an attempt. *)
Definition firstUrl (ip : string) (protocol : Protocol) (port : Z) : string :=
  protocolName protocol +:+ "://" +:+ ip +:+ ":" +:+ JS.toString10 port +:+ "/".

Definition chainBounded (r : ProbeResult) : Prop :=
  (List.length (redirectChain r) <= 5)%nat.

(** The invariants of a ProbeRecord. *)
Definition wellFormed (r : ProbeResult) : Prop :=
  chainBounded r /\ hasRoot (endpoints r) /\ existingFirst (endpoints r).

(** Every value that the cache stores satisfies [P]. *)
Definition cacheHolds {T} (P : T -> Prop) (m : CacheManager.t T) : Prop :=
  Forall (fun it => P (value (LRU.val it))) (LRU.items (CacheManager.cache m)).

(** *** The scoring policy of the classifier *)

(** What one rule or hook contributes: its categories and its score. *)
Definition Contribution : Type := list string * Z.

Definition categoriesOf (cs : list Contribution) : list string := concat (List.map fst cs).
Definition scoresOf (cs : list Contribution) : list Z := List.map snd cs.

Definition when (b : bool) (c : Contribution) : list Contribution :=
  if b then [c] else [].

(** Hostname-pattern rules: one contribution per pattern that matches. *)
Definition hostnameContributions (r : ProbeResult) : list Contribution :=
  flat_map (fun entry : string * (string * Z) =>
              when (JS.testAltI entry.1 (hostname r)) ([entry.2.1], entry.2.2))
    Classifier.hostnamePatterns.

(** Status-code rules: 200 on a host already flagged [admin-panel], else
    401 or 403, else 500 and above. *)
Definition statusContributions (r : ProbeResult) : list Contribution :=
  if (statusCode r =? 200)
     && bool_decide ("admin-panel" ∈ categoriesOf (hostnameContributions r))
  then [([], 85)]
  else if (statusCode r =? 401) || (statusCode r =? 403) then [([], 40)]
  else if 500 <=? statusCode r then [([], 30)]
  else [].

Definition headerContributions (r : ProbeResult) : list Contribution :=
  when (Classifier.outdated (Classifier.serverHeaderOf (headers r))) (["outdated-server"], 60)
  ++ when (Classifier.headerIs (headers r) "access-control-allow-origin" "*"
           && Classifier.headerIs (headers r) "access-control-allow-credentials" "true")
       (["cors-unsafe"], 75)
  ++ when (3 <=? Z.of_nat (List.length (Classifier.missingHeaders r))) (["weak-headers"], 45).

Definition endpointContributions (r : ProbeResult) : list Contribution :=
  when (0 <? Z.of_nat (List.length (Classifier.sensitiveEndpoints r))) (["exposed-endpoints"], 80)
  ++ when (bool_decide (is_Some (List.find Classifier.hasListingNote (endpoints r))))
       (["directory-listing"], 80).

Definition tlsContributions (now : Z) (r : ProbeResult) : list Contribution :=
  match tls r with
  | Some t =>
      match validTo t with
      | Some validTo =>
          when (validTo <? now) (["expired-certificate"], 65)
          ++ when (validTo - now <? Classifier.oneWeek) (["expiring-certificate"], 40)
      | None => []
      end
      ++ when (Classifier.hasWeakCipher t) (["weak-cipher"], 70)
  | None =>
      match protocol r with
      | http => [(["no-tls"], 50)]
      | https => []
      end
  end.

Definition slowContributions (r : ProbeResult) : list Contribution :=
  when (5000 <? responseTime r) (["slow-response"], 20).

(** All that the built-in rules contribute for a record. *)
Definition builtInContributions (now : Z) (r : ProbeResult) : list Contribution :=
  hostnameContributions r ++ statusContributions r ++ headerContributions r
  ++ endpointContributions r ++ tlsContributions now r ++ slowContributions r.

(** What a hook contributes: the categories and the score (0 when it
    gives none) of a hint that is an object with an array of strings as
    categories; nothing when it throws or returns anything else. The score
    is whatever number the hook returns. *)
Definition HookContribution : Type := list string * JS.Number.

Definition hookContribution (r : ProbeResult) (p : Classifier.Plugin)
  : option HookContribution :=
  match Classifier.onClassify p with
  | Some hook =>
      match hook r with
      | Classifier.Returns raw =>
          match Classifier.acceptedHint raw with
          | Some (cs, hint) => Some (cs, JS.nullish (Classifier.raw_riskScore hint) (JS.ofZ 0))
          | None => None
          end
      | Classifier.Throws _ => None
      end
  | None => None
  end.

Definition hookContributions (plugins : list Classifier.Plugin) (r : ProbeResult)
  : list HookContribution :=
  omap (hookContribution r) plugins.

Definition hookCategories (plugins : list Classifier.Plugin) (r : ProbeResult) : list string :=
  concat (List.map fst (hookContributions plugins r)).

Definition hookScores (plugins : list Classifier.Plugin) (r : ProbeResult) : list JS.Number :=
  List.map snd (hookContributions plugins r).

(** All the scores contributed for a record: the ones of the built-in
    rules, then the ones of the hooks. *)
Definition scores (now : Z) (plugins : list Classifier.Plugin) (r : ProbeResult)
  : list JS.Number :=
  List.map JS.ofZ (scoresOf (builtInContributions now r)) ++ hookScores plugins r.

(** All the scores are numbers proper: none is [NaN]. *)
Definition numeric (l : list JS.Number) : Prop := Forall (fun x => x <> JS.NaN) l.

(** [a <= b], as a proposition. *)
Definition le (a b : JS.Number) : Prop := JS.leb a b = true.

(** The greatest of the scores, if there is a score. *)
Fixpoint greatest (l : list JS.Number) : option JS.Number :=
  match l with
  | [] => None
  | x :: rest =>
      match greatest rest with
      | Some m => Some (if JS.leb x m then m else x)
      | None => Some x
      end
  end.

(** A number cut to the interval [0,100]. *)
Definition clamp (x : JS.Number) : JS.Number :=
  if JS.ltb x (JS.ofZ 0) then JS.ofZ 0
  else if JS.ltb (JS.ofZ 100) x then JS.ofZ 100
  else x.

(** The maximum of the contributed scores, clamped to [0,100]; 0 when
    nothing was contributed. *)
Definition finalScore (l : list JS.Number) : JS.Number :=
  match greatest l with
  | Some m => clamp m
  | None => JS.ofZ 0
  end.

(** As the design document words it: the score of a classified record is
    the maximum of the contributed scores, clamped to [0,100], and so lies
    in [0,100]. *)
Definition scoreIsClampedMaximum (now : Z) (plugins : list Classifier.Plugin)
    (r : ProbeResult) (c : ClassifiedResult) : Prop :=
  riskScore c = finalScore (scores now plugins r)
  /\ le (JS.ofZ 0) (riskScore c) /\ le (riskScore c) (JS.ofZ 100).

(** The first occurrence of every element, in order: deduplication that
    preserves the order of insertion. *)
Fixpoint distinct (l : list string) : list string :=
  match l with
  | [] => []
  | x :: rest => x :: List.filter (fun y => negb (String.eqb y x)) (distinct rest)
  end.

(** The categories before deduplication: the ones of the built-in rules,
    or the sentinel when there is none, then the ones of the hooks. *)
Definition pushedCategories (now : Z) (plugins : list Classifier.Plugin) (r : ProbeResult)
  : list string :=
  match categoriesOf (builtInContributions now r) with
  | [] => ["standard"]
  | cs => cs
  end ++ hookCategories plugins r.

(** The hook of a plugin throws on a record. *)
Definition throwsOn (r : ProbeResult) (p : Classifier.Plugin) : bool :=
  match Classifier.onClassify p with
  | Some hook => match hook r with Classifier.Throws _ => true | _ => false end
  | None => false
  end.

(** The hook of a plugin throws, on a record, a value of which the [catch]
    block cannot make a message. *)
Definition throwsUnprintable (r : ProbeResult) (p : Classifier.Plugin) : bool :=
  match Classifier.onClassify p with
  | Some hook =>
      match hook r with
      | Classifier.Throws thrown => bool_decide (Classifier.errorMessageOf thrown = None)
      | _ => false
      end
  | None => false
  end.

(** The local variables of [applyBuiltInRules] hold what the contributions
    [cs] amount to. *)
Definition tracks (a : Classifier.Acc) (cs : list Contribution) : Prop :=
  Classifier.acc_categories a = categoriesOf cs
  /\ Classifier.acc_riskScore a = fold_left Z.max (scoresOf cs) 0.

(** As the design document words it: the sentinel appears exactly when
    neither a built-in rule nor a hook contributed a category. *)
Definition standardIffNothingContributed (now : Z) (plugins : list Classifier.Plugin)
    (r : ProbeResult) (c : ClassifiedResult) : Prop :=
  "standard" ∈ categories c <->
  categoriesOf (builtInContributions now r) = []
  /\ hookCategories plugins r = [].

(** As the design document words it: whatever hooks throw, [classify]
    returns one classified record for every input record. *)
Definition returnsOnePerRecord (clock : nat -> Z) (plugins : list Classifier.Plugin)
    (results : list ProbeResult) : Prop :=
  exists out log,
    Classifier.classify clock results (Some plugins) = Some (out, log)
    /\ List.map probe out = results.

(** The item that [LRU.set] leaves under its key. *)
Definition stored_item {V} (now : Z) (k : string) (v : V) (c : LRU.t V) : LRU.Item V :=
  let o := LRU.options c in
  LRU.mkItem k v (if LRU.ttl o =? 0 then 0 else now) (LRU.ttl o).

(** The enumerator's cache has the options of its constructor. *)
Definition configured (e : SubdomainEnumerator.t) : Prop :=
  LRU.options (CacheManager.cache (SubdomainEnumerator.dnsCache e))
  = LRU.options (CacheManager.cache
                   (SubdomainEnumerator.dnsCache (SubdomainEnumerator.new "" None))).

(** The contributions [cs] do not hold the sentinel category. *)
Definition clean (cs : list Contribution) : Prop := "standard" ∉ categoriesOf cs.

(** Lowercase hexadecimal digits. *)
Definition isLowerHex (c : ascii) : bool :=
  let n := N_of_ascii c in
  ((48 <=? n) && (n <=? 57) || (97 <=? n) && (n <=? 102))%N.

Fixpoint allChars (f : ascii -> bool) (s : string) : bool :=
  match s with
  | EmptyString => true
  | String c t => f c && allChars f t
  end.

End Spec.

(** ** Concrete environments used by the examples *)

(** Resolvers that answer every lookup with one address. *)
Definition oneAddress : nat -> string -> option (list string) :=
  fun _ _ => Some ["10.0.0.1"].

(** A world in which no request is answered. *)
Definition silentWorld : HostProber.World :=
  HostProber.mkWorld 0 0 0 0 0
    (fun _ _ _ => HostProber.Rejected "ECONNREFUSED")
    (fun _ _ => HostProber.Rejected "ECONNREFUSED")
    (fun _ _ => HostProber.TlsTimeout).

(** A world in which every request of the redirect loop is answered by a
    redirect to [/next]. *)
Definition loopingWorld : HostProber.World :=
  HostProber.mkWorld 0 0 0 0 0
    (fun _ _ _ =>
       HostProber.Responded
         (HostProber.mkResponse 302 {[ "location" := HString "/next" ]} (Some "")))
    (fun _ _ => HostProber.Rejected "ECONNREFUSED")
    (fun _ _ => HostProber.TlsTimeout).

(** A world in which every request is answered by a 200 without body. *)
Definition plainWorld : HostProber.World :=
  HostProber.mkWorld 0 0 5 5 5
    (fun _ _ _ => HostProber.Responded (HostProber.mkResponse 200 ∅ (Some "")))
    (fun _ _ => HostProber.Responded (HostProber.mkResponse 200 ∅ (Some "")))
    (fun _ _ => HostProber.TlsTimeout).

(** Stand-ins for the library functions: a location is taken as it is. *)
Definition plainURL : string -> string -> option string := fun location _ => Some location.
Definition noProtocol : string -> option string := fun _ => None.
Definition noTitle : string -> option string := fun _ => None.
Definition noAltNames : string -> list string := fun _ => [].
Definition zeroNumber : string -> Z := fun _ => 0.

(** The record of the repository's test "should assign standard category
    when no rules match". *)
Definition quietRecord : ProbeResult :=
  mkProbeResult "normal-site.example.com" "192.168.1.1" https 443 200 "OK"
    (<[ "strict-transport-security" := HString "max-age=31536000" ]>
       (<[ "x-frame-options" := HString "DENY" ]>
          (<[ "x-content-type-options" := HString "nosniff" ]>
             {[ "content-security-policy" := HString "default-src 'self'" ]})))
    1024 None [] None [] 100 0.

(** A plugin whose hook contributes one category, one whose hook throws, and
    one whose hook scores above 100. *)
Definition customPlugin : Classifier.Plugin :=
  Classifier.mkPlugin "custom" "1.0.0"
    (Some (fun _ =>
             Classifier.Returns
               (Classifier.ReturnsObject
                  (Classifier.mkRawHint
                     (Classifier.CategoriesArray [Classifier.ElemString "custom-category"])
                     (Some (JS.ofZ 90)) (Some "Custom plugin detection"))))).

(** [throw new Error('Plugin error')], as in the repository's test. *)
Definition faultyPlugin : Classifier.Plugin :=
  Classifier.mkPlugin "faulty-plugin" "1.0.0"
    (Some (fun _ => Classifier.Throws (Classifier.ThrownError (Some "Plugin error")))).

Definition loudPlugin : Classifier.Plugin :=
  Classifier.mkPlugin "loud" "1.0.0"
    (Some (fun _ =>
             Classifier.Returns
               (Classifier.ReturnsObject
                  (Classifier.mkRawHint (Classifier.CategoriesArray []) (Some (JS.ofZ 250))
                     None)))).

(** A plugin whose hook scores 72.5. *)
Definition halfPlugin : Classifier.Plugin :=
  Classifier.mkPlugin "half" "1.0.0"
    (Some (fun _ =>
             Classifier.Returns
               (Classifier.ReturnsObject
                  (Classifier.mkRawHint (Classifier.CategoriesArray [])
                     (Some (JS.Finite (Q2Qc (145 # 2)))) None)))).

(** A plugin whose hook returns [{ categories: [], riskScore: NaN }]. *)
Definition nanPlugin : Classifier.Plugin :=
  Classifier.mkPlugin "nan" "1.0.0"
    (Some (fun _ =>
             Classifier.Returns
               (Classifier.ReturnsObject
                  (Classifier.mkRawHint (Classifier.CategoriesArray []) (Some JS.NaN) None)))).

(** A plugin whose hook does [throw Object.create(null)]: [String] of the
    thrown value throws a [TypeError]. *)
Definition unprintablePlugin : Classifier.Plugin :=
  Classifier.mkPlugin "unprintable" "1.0.0"
    (Some (fun _ => Classifier.Throws (Classifier.ThrownOther None))).

(** ** Invariants of the stores and of the runs *)

Module Inv.

(** The keys of an LRU store, from the least to the most recently used. *)
Definition keys {V} (c : LRU.t V) : list string := List.map LRU.key (LRU.items c).

(** A bounded store holds at most [max] items. *)
Definition bounded {V} (c : LRU.t V) : Prop :=
  LRU.max (LRU.options c) <> 0%nat ->
  (List.length (LRU.items c) <= LRU.max (LRU.options c))%nat.

(** No key is stored twice, and the capacity is respected. *)
Definition wellKept {V} (c : LRU.t V) : Prop := NoDup (keys c) /\ bounded c.

(** The store is full. *)
Definition full {V} (c : LRU.t V) : Prop :=
  LRU.max (LRU.options c) <> 0%nat
  /\ List.length (LRU.items c) = LRU.max (LRU.options c).

(** The cache of a prober has the TTL of its constructor. *)
Definition proberConfigured (self : HostProber.t) : Prop :=
  LRU.ttl (LRU.options (CacheManager.cache (HostProber.cache self))) = 600000
  /\ CacheManager.defaultTTL (HostProber.cache self) = 600000.

(** A task that awaits its A lookup has sent it. *)
Definition awaitedLookupsSent (base : nat) (candidates : list SubdomainResult)
    (run : SubdomainEnumerator.Run) : Prop :=
  forall i n c,
    SubdomainEnumerator.run_tasks run !! i = Some (SubdomainEnumerator.AwaitA n) ->
    candidates !! i = Some c ->
    (base <= n)%nat
    /\ SubdomainEnumerator.queries (SubdomainEnumerator.run_self run) !! n
       = Some (SubdomainEnumerator.QueryA (sub_hostname c)).

(** How far a task has come. *)
Definition rank (task : SubdomainEnumerator.Task) : nat :=
  match task with
  | SubdomainEnumerator.Queued => 0
  | SubdomainEnumerator.AwaitA _ => 1
  | SubdomainEnumerator.AwaitAAAA _ => 2
  | SubdomainEnumerator.Answered _ => 3
  | SubdomainEnumerator.Resolved _ => 4
  | SubdomainEnumerator.Done _ => 5
  end.

(** The notes that the prober attaches to an endpoint check. *)
Definition proberNotes : list string :=
  ["Directory listing suspected"; "robots.txt present"; "sitemap.xml present"].

End Inv.

(** ** More of [src/core/enumerator.ts]: the two discovery sources *)

Module JSText.

(** White space and line terminators of ECMAScript below 256: TAB, LF, VT,
    FF, CR, SP and NBSP. *)
Definition isWhiteSpace (c : ascii) : bool :=
  let n := N_of_ascii c in
  ((n =? 9) || (n =? 10) || (n =? 11) || (n =? 12) || (n =? 13) || (n =? 32) || (n =? 160))%N.

Fixpoint trimStart (s : string) : string :=
  match s with
  | EmptyString => EmptyString
  | String c t => if isWhiteSpace c then trimStart t else s
  end.

Fixpoint trimEnd (s : string) : string :=
  match s with
  | EmptyString => EmptyString
  | String c t =>
      let t' := trimEnd t in
      if isWhiteSpace c && String.eqb t' "" then EmptyString else String c t'
  end.

(** [s.trim()]. *)
Definition trim (s : string) : string := trimEnd (trimStart s).

(** [s.split(sep)] for a separator of one character; [cur] is the piece
    being read. *)
Fixpoint splitOn (sep : ascii) (s cur : string) : list string :=
  match s with
  | EmptyString => [cur]
  | String c t =>
      if Ascii.eqb c sep then cur :: splitOn sep t ""
      else splitOn sep t (cur +:+ String c "")
  end.

(** [s.split('\n')]. *)
Definition lines (s : string) : list string := splitOn "010"%char s "".

(** The string of one line feed. *)
Definition LF : string := String "010"%char "".

End JSText.

Module Discovery.

(** An element of the array that crt.sh answers, as far as the guard of
    [enumerateFromCrtSh] looks at it: an object with a string [name_value],
    or anything else. *)
Inductive CrtEntry :=
| NameValue (name_value : string)
| Malformed.

(** What [response.json()] resolves to: an array, or anything else. *)
Inductive CrtData :=
| DataArray (entries : list CrtEntry)
| DataOther.

(** The [fetch] of crt.sh: it rejects (network failure, the 30 s timeout),
    or it resolves to a response with its [ok] flag and what
    [response.json()] gives, [None] when that rejects. *)
Inductive FetchOutcome :=
| FetchRejected
| FetchResponse (ok : bool) (json : option CrtData).

(** The body of the loop over the lines of one [name_value]. *)
Definition addName (domain : string) (subdomains : list string) (name : string) : list string :=
  let cleaned := JS.toLowerCase (JSText.trim name) in
  if JS.endsWith cleaned domain && negb (JS.includes cleaned "*")
  then JS.setAdd cleaned subdomains
  else subdomains.

(** The body of the loop over the entries. *)
Definition addEntry (domain : string) (subdomains : list string) (entryRaw : CrtEntry)
  : list string :=
  match entryRaw with
  | NameValue name_value => fold_left (addName domain) (JSText.lines name_value) subdomains
  | Malformed => subdomains
  end.

(** The set [subdomains] after the loops. *)
Definition collect (domain : string) (data : CrtData) : list string :=
  match data with
  | DataArray entries => fold_left (addEntry domain) entries []
  | DataOther => []
  end.

(** The body of the loops that report a hostname unless it was seen: the
    results so far and the set [seenSubdomains]; [clock i] is the
    [new Date()] of result [i]. *)
Definition report (tag : SourceTag) (clock : nat -> Z)
    (st : list SubdomainResult * list string) (subdomain : string)
  : list SubdomainResult * list string :=
  let '(results, seen) := st in
  if bool_decide (subdomain ∈ seen) then (results, seen)
  else (results ++ [mkSubdomain subdomain tag [] (clock (List.length results))],
        JS.setAdd subdomain seen).

Definition withSeen (e : SubdomainEnumerator.t) (seen : list string) : SubdomainEnumerator.t :=
  SubdomainEnumerator.mkEnumerator (SubdomainEnumerator.domain e)
    (SubdomainEnumerator.concurrency e) (SubdomainEnumerator.dnsCache e) seen
    (SubdomainEnumerator.queries e).

(** [enumerateFromCrtSh()]. *)
Definition enumerateFromCrtSh (response : FetchOutcome) (clock : nat -> Z)
    (e : SubdomainEnumerator.t) : list SubdomainResult * SubdomainEnumerator.t :=
  match response with
  | FetchResponse true (Some data) =>
      let subdomains := collect (SubdomainEnumerator.domain e) data in
      let '(results, seen) :=
        fold_left (report crt_sh clock) subdomains ([], SubdomainEnumerator.seenSubdomains e) in
      (results, withSeen e seen)
  | _ => ([], e)
  end.

(** The words of the wordlist. *)
Definition wordsOf (content : string) : list string :=
  List.filter (fun line => JS.truthy line && negb (JS.startsWith line "#"))
    (List.map JSText.trim (JSText.lines content)).

(** [enumerateFromWordlist()]; [file] is what [readFile] resolves to, [None]
    when it rejects. *)
Definition enumerateFromWordlist (file : option string) (clock : nat -> Z)
    (e : SubdomainEnumerator.t) : list SubdomainResult * SubdomainEnumerator.t :=
  match file with
  | Some content =>
      let subdomains :=
        List.map (fun word => word +:+ "." +:+ SubdomainEnumerator.domain e) (wordsOf content) in
      let '(results, seen) :=
        fold_left (report wordlist clock) subdomains ([], SubdomainEnumerator.seenSubdomains e) in
      (results, withSeen e seen)
  | None => ([], e)
  end.

(** The two sources of [enumerate()] under [Promise.all]: each one reports
    in one go after its only I/O, so they report one after the other, in the
    order in which their I/O completes ([crtFirst]); the results are the
    ones of crt.sh followed by the ones of the wordlist. *)
Definition gather (crtFirst : bool) (response : FetchOutcome) (file : option string)
    (clockCrt clockWords : nat -> Z) (e : SubdomainEnumerator.t)
  : list SubdomainResult * SubdomainEnumerator.t :=
  if crtFirst then
    let '(crtshResults, e1) := enumerateFromCrtSh response clockCrt e in
    let '(wordlistResults, e2) := enumerateFromWordlist file clockWords e1 in
    (crtshResults ++ wordlistResults, e2)
  else
    let '(wordlistResults, e1) := enumerateFromWordlist file clockWords e in
    let '(crtshResults, e2) := enumerateFromCrtSh response clockCrt e1 in
    (crtshResults ++ wordlistResults, e2).

(** [enumerate()]. *)
Definition enumerate (resolve4 resolve6 : nat -> string -> option (list string))
    (crtFirst : bool) (response : FetchOutcome) (file : option string)
    (clockCrt clockWords : nat -> Z) (clockDns : nat -> Z * Z) (schedule : list nat)
    (e : SubdomainEnumerator.t)
  : list SubdomainResult * SubdomainEnumerator.t :=
  let '(results, e1) := gather crtFirst response file clockCrt clockWords e in
  SubdomainEnumerator.verifyDNS resolve4 resolve6 clockDns schedule results e1.

(** A normalized name: it ends with the domain, holds no wildcard, and is
    in lower case. *)
Definition cleanName (domain x : string) : Prop :=
  JS.endsWith x domain = true /\ JS.includes x "*" = false /\ JS.toLowerCase x = x.

(** What a source reports: fresh names without repetition, all of them seen
    afterwards, and nothing forgotten. *)
Definition reportsFresh (e : SubdomainEnumerator.t)
    (r : list SubdomainResult * SubdomainEnumerator.t) : Prop :=
  NoDup (List.map sub_hostname r.1)
  /\ (forall h, h ∈ List.map sub_hostname r.1 -> h ∉ SubdomainEnumerator.seenSubdomains e)
  /\ (forall h, h ∈ List.map sub_hostname r.1 -> h ∈ SubdomainEnumerator.seenSubdomains r.2)
  /\ (forall h, h ∈ SubdomainEnumerator.seenSubdomains e ->
                h ∈ SubdomainEnumerator.seenSubdomains r.2).

End Discovery.

(** The record of the repository's test "should detect expired TLS
    certificates", with [validTo] at time 0. *)
Definition expiredRecord : ProbeResult :=
  mkProbeResult "example.com" "192.168.1.1" https 443 200 "OK" ∅ 1024 None []
    (Some (mkTLSInfo None (Some "TLSv1.2") (Some "AES256-SHA") None (Some (-1000)) (Some 0)
             (Some "Test CA") (Some "test.example.com") ["test.example.com"] None))
    [] 100 0.

(** A world whose TLS handshake fails on an expired certificate. *)
Definition expiredCertWorld : HostProber.World :=
  HostProber.mkWorld 0 0 5 5 5
    (fun _ _ _ => HostProber.Responded (HostProber.mkResponse 200 ∅ (Some "")))
    (fun _ _ => HostProber.Responded (HostProber.mkResponse 200 ∅ (Some "")))
    (fun _ _ => HostProber.TlsError (Some "CERT_HAS_EXPIRED")).

(** A world in which every endpoint serves a generated index page. *)
Definition listingWorld : HostProber.World :=
  HostProber.mkWorld 0 0 5 5 5
    (fun _ _ _ => HostProber.Responded (HostProber.mkResponse 200 ∅ (Some "")))
    (fun _ _ =>
       HostProber.Responded
         (HostProber.mkResponse 200 ∅ (Some "<h1>Index of /backup</h1>")))
    (fun _ _ => HostProber.TlsTimeout).

(** ** [src/utils/concurrency.ts] *)

Module Concurrency.

(** How a promise settles. *)
Inductive Settled (E T : Type) :=
| Fulfilled (value : T)
| RejectedWith (reason : E).
Arguments Fulfilled {E T}.
Arguments RejectedWith {E T}.

(** [const delay = delayMs * Math.pow(2, attempt)]. *)
Definition delayAfter (delayMs : Z) (attempt : nat) : Z := delayMs * 2 ^ Z.of_nat attempt.

Section Retry.
Context {E T : Type}.

(** [task k] is how the call number [k] of the task settles. *)
Variable task : nat -> Settled E T.

(** The loop [for (attempt = 0; attempt <= maxRetries; attempt++)] of
    [retryWithBackoff], [remaining] values of [attempt] being left; then
    [throw lastError]. The result is how the returned promise settles,
    with the number of calls of the task and the delays slept, in
    order. *)
Fixpoint retryLoop (maxRetries delayMs : Z) (remaining attempt : nat)
    (lastError : option E) (sleeps : list Z) : Settled (option E) T * (nat * list Z) :=
  match remaining with
  | O => (RejectedWith lastError, (attempt, sleeps))
  | S remaining =>
      match task attempt with
      | Fulfilled value => (Fulfilled value, (S attempt, sleeps))
      | RejectedWith err =>
          let lastError := Some err in
          let sleeps :=
            if Z.of_nat attempt <? maxRetries
            then sleeps ++ [delayAfter delayMs attempt]
            else sleeps in
          retryLoop maxRetries delayMs remaining (S attempt) lastError sleeps
      end
  end.

(** [retryWithBackoff(task, maxRetries = 3, delayMs = 1000)]; a rejection
    with [None] is [throw undefined]. *)
Definition retryWithBackoff (maxRetries delayMs : option Z)
  : Settled (option E) T * (nat * list Z) :=
  let maxRetries := JS.nullish maxRetries 3 in
  let delayMs := JS.nullish delayMs 1000 in
  retryLoop maxRetries delayMs (Z.to_nat (maxRetries + 1)) 0 None [].

End Retry.

End Concurrency.

(** ** [src/core/app.ts] *)

Module App.







End App.

(** A task that fails twice and then succeeds. *)
Definition flakyTask : nat -> Concurrency.Settled string Z :=
  fun k => if (k <? 2)%nat then Concurrency.RejectedWith "ETIMEDOUT" else Concurrency.Fulfilled 7.

(** * Properties *)

(** ** The lightweight TLS fingerprint *)

Section Fingerprint.

Lemma ToUint32_range x : 0 <= JS.ToUint32 x < 2 ^ 32.
Proof. unfold JS.ToUint32. apply Z.mod_pos_bound. lia. Qed.

Lemma ToUint32_ToInt32 x : JS.ToUint32 (JS.ToInt32 x) = JS.ToUint32 x.
Proof.
  unfold JS.ToUint32, JS.ToInt32.
  rewrite Zminus_mod_idemp_l.
  f_equal. lia.
Qed.

Lemma ToUint32_small x : 0 <= x < 2 ^ 32 -> JS.ToUint32 x = x.
Proof. intros. unfold JS.ToUint32. apply Z.mod_small. assumption. Qed.

Lemma ToInt32_small x : - 2 ^ 31 <= x < 2 ^ 31 -> JS.ToInt32 x = x.
Proof. intros. unfold JS.ToInt32. rewrite Z.mod_small; lia. Qed.

Lemma ToUint32_lxor a b :
  JS.ToUint32 (Z.lxor a b) = Z.lxor (JS.ToUint32 a) (JS.ToUint32 b).
Proof.
  unfold JS.ToUint32. apply Z.bits_inj'. intros n Hn.
  rewrite Z.lxor_spec.
  destruct (Z.lt_ge_cases n 32) as [Hlt | Hge].
  - rewrite !Z.mod_pow2_bits_low by lia. apply Z.lxor_spec.
  - rewrite !Z.mod_pow2_bits_high by lia. reflexivity.
Qed.

Lemma ToUint32_mul a b :
  JS.ToUint32 (JS.ToUint32 a * JS.ToUint32 b) = JS.ToUint32 (a * b).
Proof. unfold JS.ToUint32. symmetry. apply Z.mul_mod. lia. Qed.

Lemma charCode_range c : 0 <= JS.charCode c < 256.
Proof.
  unfold JS.charCode. pose proof (N_ascii_bounded c). lia.
Qed.

(** One round of the loop on JS numbers is one round of FNV-1a. *)
Lemma hashStep_fnv h code :
  0 <= h < 2 ^ 32 -> 0 <= code < 256 ->
  HostProber.hashStep h code = (Z.lxor h code * 16777619) mod 2 ^ 32.
Proof.
  intros Hh Hc. unfold HostProber.hashStep, JS.ushr0, JS.imul, JS.bitxor.
  rewrite ToUint32_ToInt32, ToUint32_mul.
  rewrite <- (ToUint32_mul (Z.lxor _ _)), ToUint32_lxor, !ToUint32_ToInt32.
  rewrite (ToUint32_small h), (ToUint32_small code) by lia.
  rewrite (ToUint32_small 16777619) by lia.
  reflexivity.
Qed.

Lemma hashLoop_fnv codes h :
  0 <= h < 2 ^ 32 -> Forall (fun code => 0 <= code < 256) codes ->
  fold_left HostProber.hashStep codes h
  = fold_left (fun h code => (Z.lxor h code * 16777619) mod 2 ^ 32) codes h.
Proof.
  intros Hh Hcs. revert h Hh.
  induction Hcs as [| code codes Hc _ IH]; intros h Hh; [reflexivity |].
  cbn [fold_left]. rewrite hashStep_fnv by assumption.
  apply IH. apply Z.mod_pos_bound. lia.
Qed.

Lemma charCodes_range s : Forall (fun code => 0 <= code < 256) (JS.charCodes s).
Proof.
  induction s as [| c s IH]; constructor; [apply charCode_range | exact IH].
Qed.

(** The digits that [toString16] prints denote the number. *)
Lemma toString16_value n :
  0 <= n -> HexString.Raw.to_N (JS.toString16 n) 0 = Z.to_N n.
Proof.
  intros Hn. destruct n as [| p | p]; [reflexivity | | lia].
  cbn [JS.toString16]. rewrite HexString.Raw.to_N_of_pos. reflexivity.
Qed.

Lemma of_pos_lowerHex :
  forall p rest,
    Spec.allChars Spec.isLowerHex rest = true ->
    Spec.allChars Spec.isLowerHex (HexString.Raw.of_pos p rest) = true.
Proof.
  fix IH 1.
  intros [[[[q|q|]|[q|q|]|]|[[q|q|]|[q|q|]|]|]|[[[q|q|]|[q|q|]|]|[[q|q|]|[q|q|]|]|]|] rest H;
    cbn [HexString.Raw.of_pos]; try apply IH; cbn [Spec.allChars]; try rewrite H;
    reflexivity.
Qed.

(** The digits that [toString16] prints are lowercase hexadecimal. *)
Lemma toString16_lowerHex n : Spec.allChars Spec.isLowerHex (JS.toString16 n) = true.
Proof.
  destruct n as [| p | p]; [reflexivity | | reflexivity].
  apply of_pos_lowerHex. reflexivity.
Qed.

Lemma fnv1a32_nonneg s : 0 <= Spec.fnv1a32 s.
Proof.
  unfold Spec.fnv1a32.
  assert (forall codes h, 0 <= h ->
            0 <= fold_left (fun h code => (Z.lxor h code * 16777619) mod 2 ^ 32) codes h) as H.
  { induction codes as [| c codes IH]; intros h0 Hh0; [exact Hh0 |].
    cbn [fold_left]. apply IH. apply Z.mod_pos_bound. lia. }
  apply H. lia.
Qed.

(** C9. For every negotiated protocol [p] and cipher [c], the signature
    algorithm being absent, the fingerprint is ["ja3lite-"] followed by the
    rendering of the 32-bit FNV-1a hash of [p|c|unknown]; the rendering is
    made of lowercase hexadecimal digits and denotes the hash. *)
Theorem ja3lite_is_fnv1a32 (p c : string) :
  let hash := Spec.fnv1a32 (p +:+ "|" +:+ c +:+ "|" +:+ "unknown") in
  HostProber.computeJA3Lite (Some p) (Some c) None = "ja3lite-" +:+ JS.toString16 hash
  /\ Spec.allChars Spec.isLowerHex (JS.toString16 hash) = true
  /\ HexString.Raw.to_N (JS.toString16 hash) 0 = Z.to_N hash.
Proof.
  cbn zeta. split; [| split].
  - unfold HostProber.computeJA3Lite, Spec.fnv1a32, JS.ushr0. cbn [JS.nullish].
    rewrite (ToUint32_small 2166136261) by lia.
    rewrite hashLoop_fnv; [reflexivity | lia | apply charCodes_range].
  - apply toString16_lowerHex.
  - apply toString16_value, fnv1a32_nonneg. 
Qed.

(** The fingerprint that [extractTLSInfoSafe] attaches after a handshake is
    the one of the negotiated protocol and cipher, without signature
    algorithm. *)
Lemma extractTLSInfoSafe_ja3Lite splitAltNames w hostname port cert p c v info :
  HostProber.tlsConnect w hostname port
  = HostProber.SecureConnect (Some cert) (Some p) (Some (c, v)) ->
  p <> "" -> c <> "" ->
  HostProber.extractTLSInfoSafe splitAltNames w hostname port = Some info ->
  ja3Lite info = Some (HostProber.computeJA3Lite (Some p) (Some c) None).
Proof.
  intros Hconn Hp Hc. unfold HostProber.extractTLSInfoSafe. rewrite Hconn.
  cbn [fmap option_fmap option_map fst JS.orElse]. unfold JS.truthy.
  apply String.eqb_neq in Hp, Hc. rewrite Hp, Hc. cbn [negb].
  intros [= <-]. reflexivity.
Qed.

(** The published test vectors of FNV-1a. *)
Example fnv1a32_vectors :
  Spec.fnv1a32 "" = 0x811c9dc5 /\ Spec.fnv1a32 "a" = 0xe40c292c
  /\ Spec.fnv1a32 "foobar" = 0xbf9cf968.
Proof. repeat split. Qed.

Example ja3lite_tls13 :
  HostProber.computeJA3Lite (Some "TLSv1.3") (Some "TLS_AES_256_GCM_SHA384") None
  = "ja3lite-d55b92cb".
Proof. vm_compute. reflexivity. Qed.

End Fingerprint.

(** ** The TTL cache *)

Section CacheFacts.
Context {T : Type}.

Lemma find_app_miss {A} (f : A -> bool) (l l' : list A) :
  List.find f l = None -> List.find f (l ++ l') = List.find f l'.
Proof.
  induction l as [| x l IH]; cbn; [reflexivity |].
  destruct (f x); [discriminate | exact IH].
Qed.

Lemma find_tl_miss {A} (f : A -> bool) (l : list A) :
  List.find f l = None -> List.find f (List.tl l) = None.
Proof.
  destruct l as [| x l]; cbn; [reflexivity |].
  destruct (f x); [discriminate | auto].
Qed.

Lemma find_without {V} (k : string) (l : list (LRU.Item V)) :
  List.find (LRU.hasKey k) (LRU.without k l) = None.
Proof.
  unfold LRU.without.
  induction l as [| it l IH]; cbn; [reflexivity |].
  destruct (LRU.hasKey k it) eqn:E; cbn; [exact IH |].
  rewrite E. exact IH.
Qed.

Lemma find_without_ne {V} (k k' : string) (l : list (LRU.Item V)) :
  k <> k' ->
  List.find (LRU.hasKey k') (LRU.without k l) = List.find (LRU.hasKey k') l.
Proof.
  intros Hne. unfold LRU.without.
  induction l as [| it l IH]; cbn; [reflexivity |].
  destruct (LRU.hasKey k it) eqn:E; cbn.
  - destruct (LRU.hasKey k' it) eqn:E'; [| exact IH].
    unfold LRU.hasKey in E, E'.
    apply String.eqb_eq in E, E'. congruence.
  - destruct (LRU.hasKey k' it); [reflexivity | exact IH].
Qed.

Lemma LRU_set_options {V} now k (v : V) c :
  LRU.options (LRU.set now k v c) = LRU.options c.
Proof. unfold LRU.set. destruct (LRU.find k c); reflexivity. Qed.

Lemma LRU_find_set {V} now k (v : V) c :
  LRU.find k (LRU.set now k v c) = Some (Spec.stored_item now k v c).
Proof.
  unfold LRU.set, LRU.evict, LRU.find.
  destruct (List.find (LRU.hasKey k) (LRU.items c)) eqn:F; cbn [LRU.items].
  - rewrite find_app_miss by apply find_without.
    cbn [List.find]. unfold LRU.hasKey. cbn [LRU.key].
    rewrite String.eqb_refl. reflexivity.
  - rewrite find_app_miss.
    + cbn [List.find]. unfold LRU.hasKey. cbn [LRU.key].
      rewrite String.eqb_refl. reflexivity.
    + destruct (_ && _); [apply find_tl_miss |]; exact F.
Qed.

Lemma LRU_find_delete {V} k (c : LRU.t V) : LRU.find k (LRU.delete k c) = None.
Proof. unfold LRU.find, LRU.delete. cbn. apply find_without. Qed.

(** [get] right after [set], read at [now1]: the value comes back exactly
    when neither the age limit of the LRU nor the expiry time of the entry
    is exceeded. *)
Lemma get_after_set now0 now1 k (v : T) (ttl : option Z) (m : CacheManager.t T) :
  let d := LRU.ttl (LRU.options (CacheManager.cache m)) in
  let t := JS.nullish ttl (CacheManager.defaultTTL m) in
  (CacheManager.get now1 k (CacheManager.set now0 k v ttl m)).1
  = if negb (d =? 0) && (d <? now1 - now0) then None
    else if now0 + t <? now1 then None else Some v.
Proof.
  intros d t. unfold CacheManager.get, CacheManager.set.
  cbn [CacheManager.cache CacheManager.defaultTTL].
  unfold LRU.get. rewrite LRU_find_set, LRU_set_options.
  unfold LRU.isStale, Spec.stored_item. cbn [LRU.item_ttl LRU.start LRU.val LRU.key].
  fold d. fold t.
  destruct (d =? 0) eqn:Ed; cbn [negb andb].
  - cbn [fst snd value expiresAt]. destruct (now0 + t <? now1); reflexivity.
  - destruct (d <? now1 - now0); [reflexivity |].
    cbn [fst snd value expiresAt]. destruct (now0 + t <? now1); reflexivity.
Qed.

(** After the same [get] the key is stored exactly when the value came
    back. *)
Lemma stored_after_get_set now0 now1 k (v : T) (ttl : option Z) (m : CacheManager.t T) :
  let r := CacheManager.get now1 k (CacheManager.set now0 k v ttl m) in
  CacheManager.stored k r.2 = bool_decide (is_Some r.1).
Proof.
  cbn zeta. unfold CacheManager.get, CacheManager.set, CacheManager.stored.
  cbn [CacheManager.cache CacheManager.defaultTTL].
  unfold LRU.get. rewrite LRU_find_set, LRU_set_options.
  destruct (LRU.isStale _ _).
  - cbn [fst snd CacheManager.cache]. rewrite LRU_find_delete. reflexivity.
  - cbn [LRU.val Spec.stored_item expiresAt].
    destruct (_ <? now1); cbn [fst snd CacheManager.cache].
    + rewrite LRU_find_delete. reflexivity.
    + unfold LRU.find. cbn [LRU.items].
      rewrite find_app_miss by apply find_without.
      cbn [List.find]. 
      match goal with |- context [LRU.hasKey k ?it] =>
        replace (LRU.hasKey k it) with true end.
      * reflexivity.
      * unfold LRU.hasKey. destruct (LRU.updateAgeOnGet _); cbn; symmetry; apply String.eqb_refl.
Qed.

(** A [get] before the entry's own TTL has elapsed returns the value,
    provided that TTL does not exceed the TTL of the cache. *)
Lemma get_before_expiry now0 now1 k (v : T) (t : Z) (m : CacheManager.t T) :
  t <= LRU.ttl (LRU.options (CacheManager.cache m)) ->
  now1 - now0 <= t ->
  (CacheManager.get now1 k (CacheManager.set now0 k v (Some t) m)).1 = Some v.
Proof.
  intros Ht Hnow. rewrite get_after_set. cbn [JS.nullish].
  replace (_ <? now1 - now0) with false by (symmetry; apply Z.ltb_ge; lia).
  rewrite andb_false_r.
  replace (now0 + t <? now1) with false by (symmetry; apply Z.ltb_ge; lia).
  reflexivity.
Qed.

(** A [get] after the entry's TTL has elapsed finds nothing and leaves the
    key removed, whatever the TTL of the cache. *)
Lemma get_after_expiry now0 now1 k (v : T) (t : Z) (m : CacheManager.t T) :
  t < now1 - now0 ->
  let r := CacheManager.get now1 k (CacheManager.set now0 k v (Some t) m) in
  r.1 = None /\ CacheManager.stored k r.2 = false.
Proof.
  intros Hnow r.
  assert (r.1 = None) as H1.
  { subst r. rewrite get_after_set. cbn [JS.nullish].
    replace (now0 + t <? now1) with true by (symmetry; apply Z.ltb_lt; lia).
    destruct (_ && _); reflexivity. }
  split; [exact H1 |].
  subst r. rewrite stored_after_get_set, H1.
  apply bool_decide_eq_false. intros [? ?]. discriminate.
Qed.

(** A per-entry TTL above the TTL of the cache is cut down to it: once the
    TTL of the cache has elapsed the value is gone, although the entry's
    own TTL has not elapsed. *)
Lemma get_capped_by_cache_ttl now0 now1 k (v : T) (t : Z) (m : CacheManager.t T) :
  let d := LRU.ttl (LRU.options (CacheManager.cache m)) in
  d <> 0 -> d < now1 - now0 ->
  (CacheManager.get now1 k (CacheManager.set now0 k v (Some t) m)).1 = None.
Proof.
  intros d Hd Hnow. rewrite get_after_set. fold d.
  replace (d =? 0) with false by (symmetry; apply Z.eqb_neq; exact Hd).
  replace (d <? now1 - now0) with true by (symmetry; apply Z.ltb_lt; lia).
  reflexivity.
Qed.

End CacheFacts.

(** C5, at the input where it fails. In a cache with the default TTL of
    300000 ms, a value stored at time 0 with a TTL of 600000 ms is absent at
    time 400000, before its TTL has elapsed: the LRU store was created with
    the default TTL and [set] does not hand the entry's TTL on to it. *)
Theorem custom_ttl_above_default_is_cut_short :
  let m := CacheManager.new (Some 1000%nat) (Some 300000) in
  (CacheManager.get 400000 "k" (CacheManager.set 0 "k" 7%nat (Some 600000) m)).1 = None
  /\ (CacheManager.get 300000 "k" (CacheManager.set 0 "k" 7%nat (Some 600000) m)).1 = Some 7%nat.
Proof. split; reflexivity. Qed.

(** ** DNS verification *)

Section ResolverFacts.
Variable resolve4 resolve6 : nat -> string -> option (list string).

Import SubdomainEnumerator.

Local Abbreviation resolveDNS := (SubdomainEnumerator.resolveDNS resolve4 resolve6).
Local Abbreviation verifyDNS := (SubdomainEnumerator.verifyDNS resolve4 resolve6).
Local Abbreviation verifyRun := (SubdomainEnumerator.verifyRun resolve4 resolve6).
Local Abbreviation step := (SubdomainEnumerator.step resolve4 resolve6).

Lemma LRU_get_options {V} now k (c : LRU.t V) :
  LRU.options (LRU.get now k c).2 = LRU.options c.
Proof.
  unfold LRU.get. destruct (LRU.find k c); [| reflexivity].
  destruct (LRU.isStale now _); reflexivity.
Qed.

Lemma CacheManager_get_options {V} now k (m : CacheManager.t V) :
  LRU.options (CacheManager.cache (CacheManager.get now k m).2)
  = LRU.options (CacheManager.cache m).
Proof.
  unfold CacheManager.get.
  pose proof (LRU_get_options now k (CacheManager.cache m)) as H.
  destruct (LRU.get now k (CacheManager.cache m)) as [[entry |] c]; cbn in H |- *.
  - destruct (_ <? now); cbn; exact H.
  - exact H.
Qed.

(** The lookups of one resolution, and what it returns. *)
Lemma resolveDNS_cases t_get t_set h e :
  let r := resolveDNS t_get t_set h e in
  let n := List.length (queries e) in
  match (CacheManager.get t_get (dnsKey h) (dnsCache e)).1 with
  | Some cached => r.1 = Some cached /\ queries r.2 = queries e
  | None =>
      match resolve4 n h with
      | Some addresses =>
          r.1 = Some addresses /\ queries r.2 = queries e ++ [QueryA h]
      | None =>
          r.1 = Some (default [] (resolve6 (S n) h))
          /\ queries r.2 = queries e ++ [QueryA h; QueryAAAA h]
      end
  end.
Proof.
  cbn zeta. unfold SubdomainEnumerator.resolveDNS, CacheOps.getOrSet, lookup.
  destruct (CacheManager.get t_get (dnsKey h) (dnsCache e)) as [[cached |] m1];
    cbn [fst snd].
  - split; reflexivity.
  - destruct (resolve4 _ h) as [a |]; cbn [fst snd queries].
    + split; reflexivity.
    + rewrite length_app, Nat.add_comm. cbn [List.length Nat.add].
      destruct (resolve6 _ h) as [a |]; cbn [fst snd queries default];
        rewrite <- app_assoc; split; reflexivity.
Qed.

(** What a step does, by the state of the task that takes it. *)
Lemma step_eq clock candidates s i c task :
  candidates !! i = Some c ->
  run_tasks s !! i = Some task ->
  step clock candidates s i
  = let e := run_self s in
    let h := sub_hostname c in
    let become task' e' verified' := mkRun e' (<[i := task']> (run_tasks s)) verified' in
    match task with
    | Queued =>
        match CacheManager.get (clock i).1 (dnsKey h) (dnsCache e) with
        | (Some cached, m) =>
            become (Resolved cached) (withCacheAndQueries e m (queries e)) (run_verified s)
        | (None, m) =>
            become (AwaitA (List.length (queries e)))
              (withCacheAndQueries e m (queries e ++ [QueryA h])) (run_verified s)
        end
    | AwaitA n =>
        match resolve4 n h with
        | Some addresses => become (Answered addresses) e (run_verified s)
        | None =>
            become (AwaitAAAA (List.length (queries e)))
              (withCacheAndQueries e (dnsCache e) (queries e ++ [QueryAAAA h]))
              (run_verified s)
        end
    | AwaitAAAA n =>
        become (Answered (default [] (resolve6 n h))) e (run_verified s)
    | Answered ips =>
        become (Resolved ips)
          (withCacheAndQueries e
             (CacheManager.set (clock i).2 (dnsKey h) ips (Some 3600000) (dnsCache e))
             (queries e))
          (run_verified s)
    | Resolved ips =>
        become (Done ips) e
          (if 0 <? Z.of_nat (List.length ips)
           then run_verified s ++ [withIPs c ips]
           else run_verified s)
    | Done _ => s
    end.
Proof.
  intros Hc Ht. unfold SubdomainEnumerator.step. rewrite Hc, Ht. cbn zeta.
  destruct task; try reflexivity.
  destruct (resolve6 n (sub_hostname c)); reflexivity.
Qed.

(** A step that does nothing: no such candidate, or no such task. *)
Lemma step_idle clock candidates s i :
  candidates !! i = None \/ run_tasks s !! i = None ->
  step clock candidates s i = s.
Proof.
  intros [H | H]; unfold SubdomainEnumerator.step; rewrite H; [reflexivity |].
  destruct (candidates !! i); reflexivity.
Qed.

(** A step changes the state of its own task only. *)
Lemma step_tasks clock candidates s i :
  exists task',
    run_tasks (step clock candidates s i) = <[i := task']> (run_tasks s)
    /\ (forall task, run_tasks s !! i = Some task ->
          (Nat.min 5 (S (Inv.rank task)) <= Inv.rank task')%nat
          \/ candidates !! i = None /\ task' = task).
Proof.
  destruct (candidates !! i) as [c |] eqn:Hc; destruct (run_tasks s !! i) as [task |] eqn:Ht.
  - rewrite (step_eq _ _ _ _ _ _ Hc Ht). cbn zeta.
    destruct task.
    + destruct (CacheManager.get _ _ _) as [[cached |] m]; eexists; (split; [reflexivity |]);
        intros ? [= <-]; left; cbn; lia.
    + destruct (resolve4 n _); eexists; (split; [reflexivity |]);
        intros ? [= <-]; left; cbn; lia.
    + eexists; split; [reflexivity |]. intros ? [= <-]. left. cbn. lia.
    + eexists; split; [reflexivity |]. intros ? [= <-]. left. cbn. lia.
    + eexists; split; [reflexivity |]. intros ? [= <-]. left. cbn. lia.
    + exists (Done ips). split; [symmetry; apply list_insert_id, Ht |].
      intros ? [= <-]. left. cbn. lia.
  - rewrite step_idle by (right; exact Ht). exists Queued.
    split; [| intros ? [=]].
    symmetry. apply list_insert_ge. apply lookup_ge_None, Ht.
  - rewrite step_idle by (left; exact Hc). exists task.
    split; [symmetry; apply list_insert_id, Ht |].
    intros ? [= <-]. right. split; reflexivity.
  - rewrite step_idle by (left; exact Hc). exists Queued.
    split; [| intros ? [=]].
    symmetry. apply list_insert_ge. apply lookup_ge_None, Ht.
Qed.

Lemma step_tasks_length clock candidates s i :
  List.length (run_tasks (step clock candidates s i)) = List.length (run_tasks s).
Proof.
  destruct (step_tasks clock candidates s i) as (task' & -> & _). apply length_insert.
Qed.

Lemma run_tasks_length clock candidates l :
  forall s,
    List.length (run_tasks (fold_left (step clock candidates) l s))
    = List.length (run_tasks s).
Proof.
  induction l as [| i l IH]; intros s; [reflexivity |].
  cbn [fold_left]. rewrite IH. apply step_tasks_length.
Qed.

(** *** Every task ends *)

Lemma rank_le_5 task : (Inv.rank task <= 5)%nat.
Proof. destruct task; cbn; lia. Qed.

Lemma step_rank_other clock candidates s i j task :
  run_tasks s !! j = Some task ->
  exists task', run_tasks (step clock candidates s i) !! j = Some task'
                /\ (Inv.rank task <= Inv.rank task')%nat.
Proof.
  intros Hj. destruct (step_tasks clock candidates s i) as (task' & -> & Hrank).
  destruct (decide (i = j)) as [-> | Hne].
  - rewrite list_lookup_insert_eq by (eapply lookup_lt_Some, Hj).
    exists task'. split; [reflexivity |].
    destruct (Hrank task Hj) as [H | [_ ->]]; [| lia].
    pose proof (rank_le_5 task). lia.
  - rewrite list_lookup_insert_ne by exact Hne. exists task. split; [exact Hj | lia].
Qed.

Lemma steps_rank_other clock candidates l j :
  forall s task,
    run_tasks s !! j = Some task ->
    exists task', run_tasks (fold_left (step clock candidates) l s) !! j = Some task'
                  /\ (Inv.rank task <= Inv.rank task')%nat.
Proof.
  induction l as [| i l IH]; intros s task Hj; [exists task; split; [exact Hj | lia] |].
  cbn [fold_left].
  destruct (step_rank_other clock candidates s i j task Hj) as (t1 & H1 & Hle1).
  destruct (IH _ _ H1) as (t2 & H2 & Hle2). exists t2. split; [exact H2 | lia].
Qed.

Lemma steps_rank_own clock candidates i c k :
  candidates !! i = Some c ->
  forall s task,
    run_tasks s !! i = Some task ->
    exists task', run_tasks (fold_left (step clock candidates) (replicate k i) s) !! i
                  = Some task'
                  /\ (Nat.min 5 (k + Inv.rank task) <= Inv.rank task')%nat.
Proof.
  intros Hc. induction k as [| k IH]; intros s task Hi; cbn [replicate fold_left].
  - exists task. split; [exact Hi | lia].
  - destruct (step_tasks clock candidates s i) as (t1 & Hs & Hrank).
    assert (run_tasks (step clock candidates s i) !! i = Some t1) as H1.
    { rewrite Hs. apply list_lookup_insert_eq. eapply lookup_lt_Some, Hi. }
    destruct (IH _ _ H1) as (t2 & H2 & Hle). exists t2. split; [exact H2 |].
    destruct (Hrank task Hi) as [H | [Hnone _]]; [lia | congruence].
Qed.

Lemma rank_5_Done task : (5 <= Inv.rank task)%nat -> exists ips, task = Done ips.
Proof. destruct task; cbn; try lia. eauto. Qed.

(** After the steps of [drain], the tasks of the indices drained have
    ended. *)
Lemma drained_tasks_end clock candidates l :
  forall s j,
    j ∈ l ->
    is_Some (candidates !! j) -> is_Some (run_tasks s !! j) ->
    exists ips,
      run_tasks (fold_left (step clock candidates) (flat_map (fun i => replicate 5 i) l) s) !! j
      = Some (Done ips).
Proof.
  induction l as [| i l IH]; intros s j Hj [c Hc] [task Ht]; [inversion Hj |].
  cbn [flat_map]. rewrite fold_left_app.
  destruct (decide (j = i)) as [-> | Hne].
  - destruct (steps_rank_own clock candidates i c 5 Hc s task Ht) as (t1 & H1 & Hle).
    destruct (steps_rank_other clock candidates (flat_map (fun i => replicate 5 i) l) i _ _ H1)
      as (t2 & H2 & Hle2).
    destruct (rank_5_Done t2) as [ips ->]; [lia |]. eauto.
  - apply elem_of_cons in Hj. destruct Hj as [-> | Hj]; [contradiction |].
    destruct (steps_rank_other clock candidates (replicate 5 i) j s task Ht) as (t1 & H1 & _).
    apply IH; eauto.
Qed.

Lemma all_Done (tasks : list Task) :
  (forall j, (j < List.length tasks)%nat -> exists ips, tasks !! j = Some (Done ips)) ->
  exists outcomes, tasks = Done <$> outcomes.
Proof.
  induction tasks as [| task tasks IH]; intros H; [exists []; reflexivity |].
  destruct (H 0%nat) as [ips Hips]; [cbn; lia |]. cbn in Hips. injection Hips as ->.
  destruct IH as [outcomes ->].
  { intros j Hj. apply (H (S j)). cbn. lia. }
  exists (ips :: outcomes). reflexivity.
Qed.

(** Whatever the schedule, every task has ended when [verifyDNS]
    returns. *)
Lemma verifyRun_ends clock schedule candidates e :
  exists outcomes,
    run_tasks (verifyRun clock schedule candidates e) = Done <$> outcomes
    /\ List.length outcomes = List.length candidates.
Proof.
  unfold SubdomainEnumerator.verifyRun. rewrite fold_left_app.
  set (s0 := mkRun e _ _). set (s1 := fold_left _ schedule s0).
  assert (List.length (run_tasks s1) = List.length candidates) as Hlen.
  { subst s1. rewrite run_tasks_length. subst s0. cbn. apply length_replicate. }
  destruct (all_Done (run_tasks (fold_left (step clock candidates)
                                   (drain (List.length candidates)) s1))) as [outcomes Hout].
  - intros j Hj. rewrite run_tasks_length, Hlen in Hj.
    apply drained_tasks_end.
    + apply list_elem_of_In, in_seq. lia.
    + apply lookup_lt_is_Some. exact Hj.
    + apply lookup_lt_is_Some. lia.
  - exists outcomes. split; [exact Hout |].
    rewrite <- Hlen, <- (run_tasks_length clock candidates (drain (List.length candidates)) s1).
    rewrite Hout. symmetry. apply length_fmap.
Qed.

(** *** What is pushed *)

Lemma kept_insert (candidates : list SubdomainResult) :
  forall (tasks : list Task) i c task task',
    candidates !! i = Some c ->
    tasks !! i = Some task ->
    Spec.kept (c, task) = None ->
    omap Spec.kept (zip candidates (<[i := task']> tasks))
    ≡ₚ omap Spec.kept (zip candidates tasks)
       ++ match Spec.kept (c, task') with Some x => [x] | None => [] end.
Proof.
  induction candidates as [| c0 candidates IH]; intros tasks i c task task' Hc Ht Hnone;
    [destruct i; discriminate |].
  destruct tasks as [| t0 tasks]; [destruct i; discriminate |].
  destruct i as [| i]; cbn in Hc, Ht.
  - injection Hc as ->. injection Ht as ->.
    cbn [insert list_insert zip zip_with omap list_omap]. rewrite Hnone.
    destruct (Spec.kept (c, task')) as [x |]; [| rewrite app_nil_r; reflexivity].
    apply Permutation_cons_append.
  - change (<[S i := task']> (t0 :: tasks)) with (t0 :: <[i := task']> tasks).
    cbn [zip zip_with omap list_omap].
    specialize (IH tasks i c task task' Hc Ht Hnone).
    fold (zip candidates (<[i := task']> tasks)). fold (zip candidates tasks).
    destruct (Spec.kept (c0, t0)) as [x0 |]; [| exact IH].
    cbn [app]. constructor. exact IH.
Qed.

(** The array [verified] holds, in some order, the candidates of the tasks
    that have ended with an address. *)
Lemma step_verified clock candidates s i :
  run_verified s ≡ₚ omap Spec.kept (zip candidates (run_tasks s)) ->
  run_verified (step clock candidates s i)
  ≡ₚ omap Spec.kept (zip candidates (run_tasks (step clock candidates s i))).
Proof.
  intros H.
  destruct (candidates !! i) as [c |] eqn:Hc;
    [| rewrite step_idle by (left; exact Hc); exact H].
  destruct (run_tasks s !! i) as [task |] eqn:Ht;
    [| rewrite step_idle by (right; exact Ht); exact H].
  rewrite (step_eq _ _ _ _ _ _ Hc Ht). cbn zeta.
  assert (forall task', Spec.kept (c, task) = None -> Spec.kept (c, task') = None ->
            run_verified s ≡ₚ omap Spec.kept (zip candidates (<[i := task']> (run_tasks s))))
    as Hsame.
  { intros task' H1 H2. rewrite (kept_insert candidates _ i c task task' Hc Ht H1), H2.
    rewrite app_nil_r. exact H. }
  destruct task; cbn [run_verified run_tasks].
  - destruct (CacheManager.get _ _ _) as [[cached |] m]; cbn [run_verified run_tasks];
      apply Hsame; reflexivity.
  - destruct (resolve4 n _); cbn [run_verified run_tasks]; apply Hsame; reflexivity.
  - apply Hsame; reflexivity.
  - apply Hsame; reflexivity.
  - rewrite (kept_insert candidates _ i c (Resolved ips) (Done ips) Hc Ht eq_refl).
    unfold Spec.kept at 2. cbn [snd fst Spec.verified].
    destruct ips as [| ip ips]; cbn [List.length Z.of_nat Z.ltb Z.compare].
    + rewrite app_nil_r. exact H.
    + replace (0 <? Z.of_nat (S (List.length ips))) with true
        by (symmetry; apply Z.ltb_lt; lia).
      rewrite H. reflexivity.
  - exact H.
Qed.

Lemma steps_verified clock candidates l :
  forall s,
    run_verified s ≡ₚ omap Spec.kept (zip candidates (run_tasks s)) ->
    run_verified (fold_left (step clock candidates) l s)
    ≡ₚ omap Spec.kept
         (zip candidates (run_tasks (fold_left (step clock candidates) l s))).
Proof.
  induction l as [| i l IH]; intros s H; [exact H |].
  cbn [fold_left]. apply IH, step_verified, H.
Qed.

Lemma kept_Queued (candidates : list SubdomainResult) :
  forall n, omap Spec.kept (zip candidates (replicate n Queued)) = [].
Proof.
  induction candidates as [| c candidates IH]; intros [| n]; try reflexivity.
  cbn. apply IH.
Qed.

Lemma kept_Done (candidates : list SubdomainResult) :
  forall outcomes,
    omap Spec.kept (zip candidates (Done <$> outcomes))
    = omap (fun cr => Spec.verified cr.1 (Some cr.2)) (zip candidates outcomes).
Proof.
  induction candidates as [| c candidates IH]; intros [| ips outcomes]; try reflexivity.
  cbn [fmap list_fmap zip zip_with omap list_omap]. unfold Spec.kept at 1. cbn [fst snd].
  fold (zip candidates (Done <$> outcomes)). fold (zip candidates outcomes).
  rewrite (IH outcomes). reflexivity.
Qed.

(** *** The lookups of interleaved tasks *)

(** What holds of the lookups sent while tasks interleave. *)
Lemma step_lookups clock candidates base s i :
  (base <= List.length (queries (run_self s)))%nat ->
  Spec.aaaaOnlyAfterFailedA resolve4 base (queries (run_self s)) ->
  Inv.awaitedLookupsSent base candidates s ->
  let s' := step clock candidates s i in
  (base <= List.length (queries (run_self s')))%nat
  /\ Spec.aaaaOnlyAfterFailedA resolve4 base (queries (run_self s'))
  /\ Inv.awaitedLookupsSent base candidates s'.
Proof.
  intros Hbase Hq Ha. cbn zeta.
  destruct (candidates !! i) as [c |] eqn:Hc;
    [| rewrite step_idle by (left; exact Hc); auto].
  destruct (run_tasks s !! i) as [task |] eqn:Ht;
    [| rewrite step_idle by (right; exact Ht); auto].
  assert (i < List.length (run_tasks s))%nat as Hi by (eapply lookup_lt_Some, Ht).
  (* a step that sends nothing and leaves no task awaiting an A lookup *)
  assert (forall task' m verified',
            (forall n, task' <> AwaitA n) ->
            let s' := mkRun (withCacheAndQueries (run_self s) m (queries (run_self s)))
                        (<[i := task']> (run_tasks s)) verified' in
            (base <= List.length (queries (run_self s')))%nat
            /\ Spec.aaaaOnlyAfterFailedA resolve4 base (queries (run_self s'))
            /\ Inv.awaitedLookupsSent base candidates s') as Hquiet.
  { intros task' m verified' Hno. cbn. split; [exact Hbase | split; [exact Hq |]].
    intros j n cj Hj Hcj. cbn in Hj |- *.
    destruct (decide (i = j)) as [<- | Hne].
    - rewrite list_lookup_insert_eq in Hj by exact Hi. injection Hj as ->.
      destruct (Hno n eq_refl).
    - rewrite list_lookup_insert_ne in Hj by exact Hne. apply (Ha j n cj Hj Hcj). }
  assert (withCacheAndQueries (run_self s) (dnsCache (run_self s)) (queries (run_self s))
          = run_self s) as Hself by (destruct (run_self s); reflexivity).
  rewrite (step_eq _ _ _ _ _ _ Hc Ht). cbn zeta.
  destruct task.
  - destruct (CacheManager.get _ _ _) as [[cached |] m].
    + apply Hquiet. discriminate.
    + cbn. rewrite length_app. cbn. split; [lia | split].
      * intros k h Hk Hlook.
        destruct (decide (k < List.length (queries (run_self s)))%nat) as [Hlt | Hge].
        -- rewrite lookup_app_l in Hlook by exact Hlt.
           destruct (Hq k h Hk Hlook) as (n & Hn & Hl & Hf). exists n.
           split; [exact Hn | split; [| exact Hf]].
           rewrite lookup_app_l by (eapply lookup_lt_Some, Hl). exact Hl.
        -- rewrite lookup_app_r in Hlook by lia.
           destruct (k - List.length (queries (run_self s)))%nat; cbn in Hlook; discriminate.
      * intros j n cj Hj Hcj. cbn in Hj |- *.
        destruct (decide (i = j)) as [<- | Hne].
        -- rewrite list_lookup_insert_eq in Hj by exact Hi. injection Hj as <-.
           rewrite Hc in Hcj. injection Hcj as <-. split; [exact Hbase |].
           rewrite lookup_app_r by lia. rewrite Nat.sub_diag. reflexivity.
        -- rewrite list_lookup_insert_ne in Hj by exact Hne.
           destruct (Ha j n cj Hj Hcj) as [Hn Hl]. split; [exact Hn |].
           rewrite lookup_app_l by (eapply lookup_lt_Some, Hl). exact Hl.
  - destruct (Ha i n c Ht Hc) as [Hn Hsent].
    destruct (resolve4 n (sub_hostname c)) eqn:H4.
    + rewrite <- Hself at 1. apply Hquiet. discriminate.
    + cbn. rewrite length_app. cbn. split; [lia | split].
      * intros k h Hk Hlook.
        destruct (decide (k < List.length (queries (run_self s)))%nat) as [Hlt | Hge].
        -- rewrite lookup_app_l in Hlook by exact Hlt.
           destruct (Hq k h Hk Hlook) as (n' & Hn' & Hl & Hf). exists n'.
           split; [exact Hn' | split; [| exact Hf]].
           rewrite lookup_app_l by (eapply lookup_lt_Some, Hl). exact Hl.
        -- rewrite lookup_app_r in Hlook by lia.
           destruct (k - List.length (queries (run_self s)))%nat as [| d] eqn:Hd;
             cbn in Hlook; [| destruct d; discriminate].
           injection Hlook as <-. exists n.
           pose proof (lookup_lt_Some _ _ _ Hsent) as Hlt.
           split; [lia | split; [| exact H4]].
           rewrite lookup_app_l by exact Hlt. exact Hsent.
      * intros j n' cj Hj Hcj. cbn in Hj |- *.
        destruct (decide (i = j)) as [<- | Hne].
        -- rewrite list_lookup_insert_eq in Hj by exact Hi. discriminate.
        -- rewrite list_lookup_insert_ne in Hj by exact Hne.
           destruct (Ha j n' cj Hj Hcj) as [Hn' Hl]. split; [exact Hn' |].
           rewrite lookup_app_l by (eapply lookup_lt_Some, Hl). exact Hl.
  - rewrite <- Hself at 1. apply Hquiet. discriminate.
  - apply Hquiet. discriminate.
  - rewrite <- Hself at 1. apply Hquiet. discriminate.
  - auto.
Qed.

Lemma steps_lookups clock candidates base l :
  forall s,
    (base <= List.length (queries (run_self s)))%nat ->
    Spec.aaaaOnlyAfterFailedA resolve4 base (queries (run_self s)) ->
    Inv.awaitedLookupsSent base candidates s ->
    Spec.aaaaOnlyAfterFailedA resolve4 base
      (queries (run_self (fold_left (step clock candidates) l s))).
Proof.
  induction l as [| i l IH]; intros s Hbase Hq Ha; [exact Hq |].
  cbn [fold_left].
  destruct (step_lookups clock candidates base s i Hbase Hq Ha) as (H1 & H2 & H3).
  apply IH; assumption.
Qed.

(** A task that no other task interrupts does what [resolveDNS] does, and
    then pushes its candidate when there is an address. *)
Lemma uninterrupted_task_is_resolveDNS clock candidates s i c :
  candidates !! i = Some c ->
  run_tasks s !! i = Some Queued ->
  let r := resolveDNS (clock i).1 (clock i).2 (sub_hostname c) (run_self s) in
  exists ips,
    r.1 = Some ips
    /\ fold_left (step clock candidates) (replicate 5 i) s
       = mkRun r.2 (<[i := Done ips]> (run_tasks s))
           (if 0 <? Z.of_nat (List.length ips)
            then run_verified s ++ [withIPs c ips]
            else run_verified s).
Proof.
  intros Hc Ht. cbn zeta.
  assert (i < List.length (run_tasks s))%nat as Hi by (eapply lookup_lt_Some, Ht).
  assert (forall task e v, run_tasks (mkRun e (<[i := task]> (run_tasks s)) v) !! i = Some task)
    as Hat by (intros; cbn; apply list_lookup_insert_eq, Hi).
  assert (forall task ips e v,
            run_tasks (mkRun e (<[i := task]> (<[i := Done ips]> (run_tasks s))) v) !! i
            = Some task) as Hat'.
  { intros. cbn. apply list_lookup_insert_eq. rewrite length_insert. exact Hi. }
  unfold SubdomainEnumerator.resolveDNS, CacheOps.getOrSet, lookup.
  cbn [replicate fold_left].
  rewrite (step_eq _ _ _ _ _ _ Hc Ht). cbn zeta.
  destruct (CacheManager.get (clock i).1 (dnsKey (sub_hostname c)) (dnsCache (run_self s)))
    as [[cached |] m].
  - exists cached. split; [reflexivity |].
    rewrite (step_eq _ _ _ _ _ _ Hc (Hat _ _ _)). cbn zeta. cbn [run_tasks run_self run_verified].
    rewrite list_insert_insert_eq.
    assert (forall e v, run_tasks (mkRun e (<[i := Done cached]> (run_tasks s)) v) !! i
                        = Some (Done cached)) as Hd by (intros; apply Hat).
    rewrite !(step_eq _ _ _ _ _ _ Hc (Hd _ _)). reflexivity.
  - rewrite (step_eq _ _ _ _ _ _ Hc (Hat _ _ _)). cbn zeta. cbn [run_tasks run_self run_verified].
    cbn [queries dnsCache withCacheAndQueries].
    destruct (resolve4 (List.length (queries (run_self s))) (sub_hostname c)) as [a |].
    + exists a. split; [reflexivity |]. rewrite list_insert_insert_eq.
      rewrite (step_eq _ _ _ _ _ _ Hc (Hat _ _ _)). cbn zeta.
      cbn [run_tasks run_self run_verified]. rewrite list_insert_insert_eq.
      rewrite (step_eq _ _ _ _ _ _ Hc (Hat _ _ _)). cbn zeta.
      cbn [run_tasks run_self run_verified]. rewrite list_insert_insert_eq.
      assert (forall e v, run_tasks (mkRun e (<[i := Done a]> (run_tasks s)) v) !! i
                          = Some (Done a)) as Hd by (intros; apply Hat).
      rewrite (step_eq _ _ _ _ _ _ Hc (Hd _ _)). reflexivity.
    + rewrite list_insert_insert_eq.
      rewrite (step_eq _ _ _ _ _ _ Hc (Hat _ _ _)). cbn zeta.
      cbn [run_tasks run_self run_verified]. rewrite list_insert_insert_eq.
      cbn [queries dnsCache withCacheAndQueries].
      exists (default [] (resolve6 (List.length (queries (run_self s) ++ [QueryA (sub_hostname c)]))
                            (sub_hostname c))).
      split; [destruct (resolve6 _ _); reflexivity |].
      rewrite (step_eq _ _ _ _ _ _ Hc (Hat _ _ _)). cbn zeta.
      cbn [run_tasks run_self run_verified]. rewrite list_insert_insert_eq.
      rewrite (step_eq _ _ _ _ _ _ Hc (Hat _ _ _)). cbn zeta.
      cbn [run_tasks run_self run_verified]. rewrite list_insert_insert_eq.
      cbn [queries dnsCache withCacheAndQueries domain concurrency seenSubdomains].
      destruct (resolve6 _ _); reflexivity.
Qed.

(** Whatever the schedule, the verified output holds, in some order, the
    candidates whose task ended with an address. *)
Lemma verifyDNS_outcomes clock schedule candidates e :
  exists outcomes,
    run_tasks (verifyRun clock schedule candidates e) = Done <$> outcomes
    /\ List.length outcomes = List.length candidates
    /\ (verifyDNS clock schedule candidates e).1
       ≡ₚ omap (fun cr => Spec.verified cr.1 (Some cr.2)) (zip candidates outcomes).
Proof.
  destruct (verifyRun_ends clock schedule candidates e) as (outcomes & Htasks & Hlen).
  exists outcomes. split; [exact Htasks | split; [exact Hlen |]].
  unfold SubdomainEnumerator.verifyDNS. cbn [fst].
  rewrite <- kept_Done, <- Htasks. unfold SubdomainEnumerator.verifyRun.
  apply steps_verified. cbn [run_verified run_tasks]. rewrite kept_Queued. reflexivity.
Qed.

(** C6. A resolution that misses the cache asks for A records first and
    for AAAA records only when the A lookup fails, and returns the
    addresses of one lookup only; it never rejects. [verifyDNS] runs one
    such resolution per candidate, the tasks interleaving as the schedule
    has it: every task ends, the verified output holds, in the order in
    which the tasks end, exactly the candidates whose resolution yielded at
    least one address, so a candidate without addresses is left out; of
    the lookups that the tasks send, an AAAA lookup always follows a failed
    A lookup for the same hostname; and a task that no other task
    interrupts performs exactly one such resolution. *)
Theorem resolver_A_then_AAAA_and_drops_unresolved clock schedule candidates e :
  (forall t_get t_set h e0,
      let r := resolveDNS t_get t_set h e0 in
      let n := List.length (queries e0) in
      is_Some r.1 /\
      match (CacheManager.get t_get (dnsKey h) (dnsCache e0)).1 with
      | Some cached => r.1 = Some cached /\ queries r.2 = queries e0
      | None =>
          match resolve4 n h with
          | Some addresses =>
              r.1 = Some addresses /\ queries r.2 = queries e0 ++ [QueryA h]
          | None =>
              r.1 = Some (default [] (resolve6 (S n) h))
              /\ queries r.2 = queries e0 ++ [QueryA h; QueryAAAA h]
          end
      end)
  /\ (exists outcomes,
        run_tasks (verifyRun clock schedule candidates e) = Done <$> outcomes
        /\ List.length outcomes = List.length candidates
        /\ (verifyDNS clock schedule candidates e).1
           ≡ₚ omap (fun cr => Spec.verified cr.1 (Some cr.2)) (zip candidates outcomes))
  /\ Forall (fun s => resolvedIPs s <> []) (verifyDNS clock schedule candidates e).1
  /\ Spec.aaaaOnlyAfterFailedA resolve4 (List.length (queries e))
       (queries (verifyDNS clock schedule candidates e).2)
  /\ (forall s i c,
        candidates !! i = Some c ->
        run_tasks s !! i = Some Queued ->
        let r := resolveDNS (clock i).1 (clock i).2 (sub_hostname c) (run_self s) in
        exists ips,
          r.1 = Some ips
          /\ fold_left (step clock candidates) (replicate 5 i) s
             = mkRun r.2 (<[i := Done ips]> (run_tasks s))
                 (if 0 <? Z.of_nat (List.length ips)
                  then run_verified s ++ [withIPs c ips]
                  else run_verified s)).
Proof.
  pose proof (verifyDNS_outcomes clock schedule candidates e) as Hout.
  split; [| split; [exact Hout | split; [| split;
    [| intros s i c; apply uninterrupted_task_is_resolveDNS]]]].
  - intros t_get t_set h e0. cbn zeta.
    pose proof (resolveDNS_cases t_get t_set h e0) as H. cbn zeta in H.
    split; [| exact H].
    destruct (CacheManager.get _ _ _).1; [destruct H as [-> _]; eauto |].
    destruct (resolve4 _ h); destruct H as [-> _]; eauto.
  - destruct Hout as (outcomes & _ & _ & Hperm). rewrite Hperm.
    apply Forall_forall. intros s Hs.
    apply list_elem_of_omap in Hs.
    destruct Hs as [[c r] [_ Hv]]. cbn in Hv.
    destruct r as [| ip ips]; inversion Hv. cbn. discriminate.
  - unfold SubdomainEnumerator.verifyDNS, SubdomainEnumerator.verifyRun. cbn [snd].
    apply steps_lookups; cbn [run_self run_tasks].
    + lia.
    + intros m h Hm Hlook. apply lookup_lt_Some in Hlook. lia.
    + intros i n c Hi _. apply lookup_replicate in Hi. destruct Hi as [Hi _]. discriminate.
Qed.

Lemma resolveDNS_miss_fail t_get t_set h e m1 :
  CacheManager.get t_get (dnsKey h) (dnsCache e) = (None, m1) ->
  resolve4 (List.length (queries e)) h = None ->
  resolve6 (S (List.length (queries e))) h = None ->
  resolveDNS t_get t_set h e
  = (Some [],
     mkEnumerator (domain e) (concurrency e)
       (CacheManager.set t_set (dnsKey h) [] (Some 3600000) m1)
       (seenSubdomains e) (queries e ++ [QueryA h; QueryAAAA h])).
Proof.
  intros Hget H4 H6.
  unfold SubdomainEnumerator.resolveDNS, CacheOps.getOrSet, lookup.
  rewrite Hget, H4. rewrite length_app, Nat.add_comm. cbn [List.length Nat.add].
  rewrite H6. rewrite <- app_assoc. reflexivity.
Qed.

(** C10. When a resolution misses the cache and both lookups fail, the
    resolution returns the empty list and stores it for one hour; a second
    resolution of the hostname within that hour returns the stored empty
    list and sends no lookup. *)
Theorem failed_resolution_is_cached t_get t_set t_get' t_set' h e :
  Spec.configured e ->
  (CacheManager.get t_get (dnsKey h) (dnsCache e)).1 = None ->
  resolve4 (List.length (queries e)) h = None ->
  resolve6 (S (List.length (queries e))) h = None ->
  t_get' - t_set <= 3600000 ->
  let r1 := resolveDNS t_get t_set h e in
  let r2 := resolveDNS t_get' t_set' h r1.2 in
  r1.1 = Some []
  /\ (value <$> (LRU.val <$> LRU.find (dnsKey h) (CacheManager.cache (dnsCache r1.2)))) = Some []
  /\ (expiresAt <$> (LRU.val <$> LRU.find (dnsKey h) (CacheManager.cache (dnsCache r1.2))))
     = Some (t_set + 3600000)
  /\ r2.1 = Some []
  /\ queries r2.2 = queries r1.2.
Proof.
  intros Hcfg Hmiss H4 H6 Hwindow. cbn zeta.
  pose proof (CacheManager_get_options t_get (dnsKey h) (dnsCache e)) as Hopt.
  destruct (CacheManager.get t_get (dnsKey h) (dnsCache e)) as [r m1] eqn:Hget.
  cbn [fst snd] in Hmiss, Hopt. subst r.
  rewrite (resolveDNS_miss_fail _ _ _ _ _ Hget H4 H6). cbn [fst snd].
  assert (LRU.ttl (LRU.options (CacheManager.cache m1)) = 3600000) as Httl.
  { rewrite Hopt, Hcfg. reflexivity. }
  split; [reflexivity |].
  cbn [dnsCache]. unfold CacheManager.set at 1 2. cbn [CacheManager.cache].
  rewrite LRU_find_set.
  cbn [fmap option_fmap option_map Spec.stored_item LRU.val value expiresAt JS.nullish].
  split; [reflexivity |]. split; [reflexivity |].
  pose proof (get_after_set t_set t_get' (dnsKey h) ([] : list string) (Some 3600000) m1) as Hhit.
  cbn zeta in Hhit. rewrite Httl in Hhit. cbn [JS.nullish] in Hhit.
  replace (3600000 <? t_get' - t_set) with false in Hhit by (symmetry; apply Z.ltb_ge; lia).
  replace (t_set + 3600000 <? t_get') with false in Hhit by (symmetry; apply Z.ltb_ge; lia).
  rewrite andb_false_r in Hhit.
  unfold SubdomainEnumerator.resolveDNS, CacheOps.getOrSet.
  cbn [dnsCache queries].
  destruct (CacheManager.get t_get' (dnsKey h) _) as [r m2].
  cbn [fst] in Hhit. subst r. cbn. split; reflexivity.
Qed.

End ResolverFacts.

(** The verified output is in the order in which the tasks end: when the
    task of the second candidate ends first, its candidate comes first. *)
Example verified_in_order_of_completion :
  let a := mkSubdomain "a.example.com" crt_sh [] 0 in
  let b := mkSubdomain "b.example.com" crt_sh [] 0 in
  let e := SubdomainEnumerator.new "example.com" None in
  List.map sub_hostname
    (SubdomainEnumerator.verifyDNS oneAddress oneAddress (fun _ => (0, 0)) [] [a; b] e).1
  = ["a.example.com"; "b.example.com"]
  /\ List.map sub_hostname
       (SubdomainEnumerator.verifyDNS oneAddress oneAddress (fun _ => (0, 0))
          [0; 1; 1; 1; 1]%nat [a; b] e).1
     = ["b.example.com"; "a.example.com"].
Proof. split; vm_compute; reflexivity. Qed.

(** Witness: a fresh enumerator whose resolvers answer nothing. *)
Lemma failed_resolution_is_cached_witness :
  let none : nat -> string -> option (list string) := fun _ _ => None in
  let e := SubdomainEnumerator.new "example.com" None in
  let r1 := SubdomainEnumerator.resolveDNS none none 10 20 "a.example.com" e in
  let r2 := SubdomainEnumerator.resolveDNS none none 30 40 "a.example.com" r1.2 in
  r1.1 = Some [] /\ r2.1 = Some []
  /\ SubdomainEnumerator.queries r2.2 = SubdomainEnumerator.queries r1.2.
Proof.
  intros none e.
  destruct (failed_resolution_is_cached none none 10 20 30 40 "a.example.com" e)
    as (H1 & _ & _ & H2 & H3); try reflexivity; [lia |].
  split; [exact H1 | split; [exact H2 | exact H3]].
Defined.

(** ** Endpoint discovery *)

Section EndpointFacts.
Import HostProber.

Lemma insertSorted_existing x l :
  exists_ x = true -> JS.insertSorted existsFirst x l = x :: l.
Proof.
  intros Hx. destruct l as [| y l]; [reflexivity |].
  cbn [JS.insertSorted]. unfold existsFirst. rewrite Hx.
  destruct (exists_ y); reflexivity.
Qed.

Lemma insertSorted_missing x ts fs :
  exists_ x = false ->
  Forall (fun e => exists_ e = true) ts ->
  Forall (fun e => exists_ e = false) fs ->
  JS.insertSorted existsFirst x (ts ++ fs) = ts ++ x :: fs.
Proof.
  intros Hx Hts Hfs. induction Hts as [| y ts Hy _ IH]; cbn [app].
  - destruct Hfs as [| y fs Hy _]; [reflexivity |].
    cbn [JS.insertSorted]. unfold existsFirst. rewrite Hx, Hy. reflexivity.
  - cbn [JS.insertSorted]. unfold existsFirst at 1. rewrite Hx, Hy. cbn.
    rewrite IH. reflexivity.
Qed.

Lemma Forall_filter_true {A} (f : A -> bool) l :
  Forall (fun e => f e = true) (List.filter f l).
Proof.
  induction l as [| x l IH]; cbn; [constructor |].
  destruct (f x) eqn:E; [constructor |]; assumption.
Qed.

Lemma Forall_filter_false {A} (f : A -> bool) l :
  Forall (fun e => f e = false) (List.filter (fun e => negb (f e)) l).
Proof.
  induction l as [| x l IH]; cbn; [constructor |].
  destruct (f x) eqn:E; cbn; [| constructor]; assumption.
Qed.

(** The sort with [existsFirst] is the stable partition. *)
Lemma sort_existsFirst l :
  JS.sort existsFirst l
  = List.filter exists_ l ++ List.filter (fun e => negb (exists_ e)) l.
Proof.
  unfold JS.sort. induction l as [| x l IH]; [reflexivity |].
  cbn [foldr List.filter]. rewrite IH.
  destruct (exists_ x) eqn:Hx; cbn [negb app].
  - apply insertSorted_existing. exact Hx.
  - apply insertSorted_missing;
      [exact Hx | apply Forall_filter_true | apply Forall_filter_false].
Qed.

Lemma elem_of_sort_existsFirst e l : e ∈ JS.sort existsFirst l <-> e ∈ l.
Proof.
  rewrite sort_existsFirst, elem_of_app, !list_elem_of_In, !filter_In.
  destruct (exists_ e); cbn; intuition discriminate.
Qed.

Lemma sort_existingFirst l : Spec.existingFirst (JS.sort existsFirst l).
Proof.
  rewrite sort_existsFirst. intros i j a b Hi Hj Ha Hb.
  pose proof (Forall_filter_true exists_ l) as Hts.
  pose proof (Forall_filter_false exists_ l) as Hfs.
  rewrite Forall_lookup in Hts, Hfs.
  apply lookup_app_Some in Hi, Hj.
  destruct Hj as [Hj | [_ Hj]]; [| apply Hfs in Hj; congruence].
  destruct Hi as [Hi | [Hlen _]]; [apply Hts in Hi; congruence |].
  apply lookup_lt_Some in Hj. lia.
Qed.

Lemma root_in_expandPaths commonEndpoints : "/" ∈ expandPaths commonEndpoints.
Proof.
  unfold expandPaths, JS.setAdd. case_bool_decide as H; [exact H |].
  apply elem_of_app. right. apply list_elem_of_singleton. reflexivity.
Qed.

Lemma path_probeEndpoint w hostname protocol port p :
  path (probeEndpoint w hostname protocol port p) = p.
Proof. unfold probeEndpoint. destruct (endpointRequest _ _ _); reflexivity. Qed.

Lemma elem_of_probeEndpoints e w self hostname protocol port :
  e ∈ probeEndpoints w self hostname protocol port ->
  exists p, p ∈ expandPaths (commonEndpoints self)
            /\ e = probeEndpoint w hostname protocol port p.
Proof.
  unfold probeEndpoints. rewrite elem_of_sort_existsFirst, list_elem_of_In, in_map_iff.
  intros [p [<- Hp]]. exists p. split; [apply list_elem_of_In, Hp | reflexivity].
Qed.

Lemma probeEndpoints_hasRoot w self hostname protocol port :
  Spec.hasRoot (probeEndpoints w self hostname protocol port).
Proof.
  unfold Spec.hasRoot, probeEndpoints.
  apply list_elem_of_In, in_map_iff.
  exists (probeEndpoint w hostname protocol port "/"). split.
  - apply path_probeEndpoint.
  - apply list_elem_of_In, elem_of_sort_existsFirst, list_elem_of_In, in_map.
    apply list_elem_of_In, root_in_expandPaths.
Qed.

(** C7, as amended. A check whose request was answered carries the status
    of the answer and exists exactly when that status is below 400; a
    check whose request failed or timed out carries status 0 and does not
    exist. *)
Theorem exists_iff_answered_below_400 w self hostname protocol port :
  Forall (fun e =>
            match endpointRequest w (endpointUrl hostname protocol port (path e)) hostname with
            | Responded resp =>
                ec_statusCode e = res_statusCode resp
                /\ (exists_ e = true <-> ec_statusCode e < 400)
            | Rejected _ => ec_statusCode e = 0 /\ exists_ e = false
            end)
    (probeEndpoints w self hostname protocol port).
Proof.
  apply Forall_forall. intros e He.
  apply elem_of_probeEndpoints in He. destruct He as [p [_ ->]].
  rewrite path_probeEndpoint. unfold probeEndpoint.
  destruct (endpointRequest w _ hostname) as [resp | msg]; cbn.
  - split; [reflexivity | apply Z.ltb_lt].
  - split; reflexivity.
Qed.

End EndpointFacts.

(** C7 as stated fails: the check of a request that failed has status 0,
    which is below 400, and does not exist. *)
Lemma failed_check_has_status_0_and_does_not_exist :
  let checks :=
    HostProber.probeEndpoints silentWorld (HostProber.new None None None None)
      "example.com" http 80 in
  head checks = Some (mkEndpointCheck "/" 0 false None)
  /\ ~ Forall Spec.existsIffBelow400 checks.
Proof.
  split; [vm_compute; reflexivity |].
  intros H. apply Forall_forall with (x := mkEndpointCheck "/" 0 false None) in H.
  - unfold Spec.existsIffBelow400 in H. cbn in H.
    destruct H as [_ H]. specialize (H eq_refl). discriminate.
  - vm_compute. left.
Qed.

(** ** The cache keeps what it is given *)

Section CacheInvariant.
Context {T : Type} (P : T -> Prop).

Local Abbreviation holds := (Forall (fun it : LRU.Item (CacheEntry T) => P (value (LRU.val it)))).

Lemma holds_without k l : holds l -> holds (LRU.without k l).
Proof.
  unfold LRU.without. rewrite !Forall_forall. intros H it Hit.
  apply list_elem_of_In, filter_In in Hit. apply H, list_elem_of_In, Hit.
Qed.

Lemma holds_tl l : holds l -> holds (List.tl l).
Proof. intros H. destruct H; [constructor | assumption]. Qed.

Lemma holds_find k (c : LRU.t (CacheEntry T)) it :
  holds (LRU.items c) -> LRU.find k c = Some it -> P (value (LRU.val it)).
Proof.
  unfold LRU.find. rewrite Forall_forall. intros H Hf.
  apply find_some in Hf. apply H, list_elem_of_In, Hf.
Qed.

Lemma LRU_get_holds now k (c : LRU.t (CacheEntry T)) :
  holds (LRU.items c) ->
  holds (LRU.items (LRU.get now k c).2)
  /\ forall entry, (LRU.get now k c).1 = Some entry -> P (value entry).
Proof.
  intros H. unfold LRU.get.
  destruct (LRU.find k c) as [it |] eqn:Hf; cbn [fst snd].
  - pose proof (holds_find _ _ _ H Hf) as Hit.
    destruct (LRU.isStale now it); cbn [fst snd LRU.items LRU.delete].
    + split; [apply holds_without, H | discriminate].
    + split.
      * apply Forall_app. split; [apply holds_without, H |].
        constructor; [| constructor].
        destruct (LRU.updateAgeOnGet _); exact Hit.
      * intros entry [= <-]. exact Hit.
  - split; [exact H | discriminate].
Qed.

Lemma get_holds now k (m : CacheManager.t T) :
  Spec.cacheHolds P m ->
  Spec.cacheHolds P (CacheManager.get now k m).2
  /\ forall v, (CacheManager.get now k m).1 = Some v -> P v.
Proof.
  unfold Spec.cacheHolds, CacheManager.get. intros H.
  destruct (LRU_get_holds now k _ H) as [Hc Hv].
  destruct (LRU.get now k (CacheManager.cache m)) as [[entry |] c]; cbn [fst snd] in *.
  - destruct (expiresAt entry <? now); cbn [fst snd CacheManager.cache LRU.delete LRU.items].
    + split; [apply holds_without, Hc | discriminate].
    + split; [exact Hc |]. intros v [= <-]. apply Hv. reflexivity.
  - split; [exact Hc | discriminate].
Qed.

Lemma set_holds now k v ttl (m : CacheManager.t T) :
  Spec.cacheHolds P m -> P v -> Spec.cacheHolds P (CacheManager.set now k v ttl m).
Proof.
  unfold Spec.cacheHolds, CacheManager.set, LRU.set, LRU.evict. intros H Hv.
  cbn [CacheManager.cache].
  destruct (LRU.find k _); cbn [LRU.items]; apply Forall_app; split;
    try (constructor; [exact Hv | constructor]).
  - apply holds_without, H.
  - destruct (_ && _); [apply holds_tl |]; exact H.
Qed.

Lemma new_holds maxSize ttl : Spec.cacheHolds P (CacheManager.new maxSize ttl).
Proof. constructor. Qed.

End CacheInvariant.

(** ** The redirect loop and the assembled record *)

Section ProbeFacts.
Variable URL_toString : string -> string -> option string.
Variable URL_protocol : string -> option string.
Variable extractTitle : string -> option string.
Variable splitAltNames : string -> list string.
Variable Number : string -> Z.

Import HostProber.

Local Abbreviation fetchLoop := (HostProber.fetchLoop URL_toString URL_protocol).
Local Abbreviation resolveLocation := (HostProber.resolveLocation URL_toString URL_protocol).
Local Abbreviation fetchWithRedirects := (HostProber.fetchWithRedirects URL_toString URL_protocol).
Local Abbreviation probeHost :=
  (HostProber.probeHost URL_toString URL_protocol extractTitle splitAltNames Number).
Local Abbreviation runTasks :=
  (HostProber.runTasks URL_toString URL_protocol extractTitle splitAltNames Number).
Local Abbreviation probeHosts :=
  (HostProber.probeHosts URL_toString URL_protocol extractTitle splitAltNames Number).
Local Abbreviation redirectsInARow := (Spec.redirectsInARow URL_toString URL_protocol).

(** One turn of the loop. *)
Lemma fetchLoop_step w host maxRedirects redirects url chain :
  fetchLoop w host maxRedirects redirects url chain =
  if decide (redirects <= maxRedirects) then
    match request w (Z.to_nat redirects) url host with
    | Rejected _ => (None, chain)
    | Responded resp =>
        match isRedirect (res_statusCode resp), rawLocation resp with
        | true, Some raw =>
            match resolveLocation url raw with
            | Some location =>
                fetchLoop w host maxRedirects (redirects + 1) location (chain ++ [location])
            | None => (None, chain)
            end
        | _, _ => (Some resp, chain)
        end
    end
  else (None, chain).
Proof.
  simp fetchLoop.
  destruct (Z_le_dec redirects maxRedirects); destruct (decide _); try lia;
    simp fetchLoop; [| reflexivity].
  destruct (request w _ url host) as [resp | msg]; simp fetchLoop; [| reflexivity].
  destruct (isRedirect _), (rawLocation resp) as [raw |]; simp fetchLoop;
    try reflexivity.
  destruct (HostProber.resolveLocation _ _ url raw); simp fetchLoop; reflexivity.
Qed.

(** A final response comes with at most [maxRedirects] redirects. *)
Lemma fetchLoop_chain w host maxRedirects (n : nat) :
  forall redirects url chain resp chain',
    Z.to_nat (maxRedirects + 1 - redirects) = n ->
    Z.of_nat (List.length chain) <= redirects ->
    fetchLoop w host maxRedirects redirects url chain = (Some resp, chain') ->
    Z.of_nat (List.length chain') <= maxRedirects.
Proof.
  induction n as [| n IH]; intros redirects url chain resp chain' Hn Hlen;
    rewrite fetchLoop_step; destruct (decide _) as [Hle | Hgt]; try discriminate;
    try lia.
  destruct (request w _ url host) as [r | msg]; [| discriminate].
  destruct (isRedirect _), (rawLocation r) as [raw |];
    try (intros [= _ <-]; lia).
  destruct (resolveLocation url raw) as [location |]; [| discriminate].
  apply IH; [lia |]. rewrite length_app. cbn [List.length]. lia.
Qed.

(** More redirects in a row than the loop has turns: no final response. *)
Lemma fetchLoop_exceeds w host maxRedirects (n : nat) :
  forall redirects url chain,
    0 <= redirects ->
    Z.to_nat (maxRedirects + 1 - redirects) = n ->
    redirectsInARow w host n (Z.to_nat redirects) url = true ->
    (fetchLoop w host maxRedirects redirects url chain).1 = None.
Proof.
  induction n as [| n IH]; intros redirects url chain Hr Hn Hrow;
    rewrite fetchLoop_step; destruct (decide _) as [Hle | Hgt]; try reflexivity;
    try lia.
  cbn [Spec.redirectsInARow] in Hrow.
  destruct (request w _ url host) as [r | msg]; [| reflexivity].
  apply andb_true_iff in Hrow. destruct Hrow as [-> Hrow].
  destruct (rawLocation r) as [raw |]; [| discriminate].
  destruct (HostProber.resolveLocation _ _ url raw) as [location |]; [| reflexivity].
  apply IH; [lia | lia |].
  replace (Z.to_nat (redirects + 1)) with (S (Z.to_nat redirects)) by lia.
  exact Hrow.
Qed.

Lemma fetchWithRedirects_chain w opts resp chain :
  0 <= fo_maxRedirects opts ->
  fetchWithRedirects w opts = (Some resp, chain) ->
  Z.of_nat (List.length chain) <= fo_maxRedirects opts.
Proof.
  intros Hmax. unfold HostProber.fetchWithRedirects.
  apply fetchLoop_chain with (n := Z.to_nat (fo_maxRedirects opts + 1 - 0));
    [reflexivity | cbn; lia].
Qed.

(** An attempt keeps the invariants of the cached records, and what it
    yields satisfies them. *)
Lemma probeHost_wellFormed w hostname ip protocol port self :
  Spec.cacheHolds Spec.wellFormed (cache self) ->
  (forall record,
      (probeHost w hostname ip protocol port self).1 = Some record ->
      Spec.wellFormed record)
  /\ Spec.cacheHolds Spec.wellFormed (cache (probeHost w hostname ip protocol port self).2).
Proof.
  intros Hinv. unfold HostProber.probeHost.
  destruct (get_holds Spec.wellFormed (now_cacheGet w)
              (probeCacheKey hostname ip protocol port) (cache self) Hinv) as [Hc Hv].
  destruct (CacheManager.get _ _ (cache self)) as [[cached |] c]; cbn [fst snd] in Hc, Hv.
  - cbn [fst snd withCache cache]. split; [| exact Hc].
    intros record [= <-]. apply Hv. reflexivity.
  - cbn [withCache cache timeout].
    destruct (HostProber.fetchWithRedirects _ _ w _) as [[finalResponse |] chain] eqn:Hfetch;
      cbn [fst snd cache]; [| split; [discriminate | exact Hc]].
    destruct (res_body finalResponse) as [body |]; cbn [fst snd cache];
      [| split; [discriminate | exact Hc]].
    match goal with |- context [Some ?r = Some _] => assert (Spec.wellFormed r) as Hwf end.
    { split; [| split]; cbn [redirectChain endpoints].
      - apply fetchWithRedirects_chain in Hfetch; cbn [fo_maxRedirects] in *; [| lia].
        unfold Spec.chainBounded. cbn [redirectChain]. lia.
      - apply probeEndpoints_hasRoot.
      - apply sort_existingFirst. }
    split; [intros record [= <-]; exact Hwf |].
    apply set_holds; assumption.
Qed.

Lemma runTasks_wellFormed tasks :
  forall worlds self,
    Spec.cacheHolds Spec.wellFormed (cache self) ->
    Forall Spec.wellFormed (runTasks worlds tasks self).1
    /\ Spec.cacheHolds Spec.wellFormed (cache (runTasks worlds tasks self).2).
Proof.
  induction tasks as [| [[[hostname ip] protocol] port] rest IH]; intros worlds self Hinv;
    [split; [constructor | exact Hinv] |].
  cbn [HostProber.runTasks].
  destruct (probeHost_wellFormed (worlds 0%nat) hostname ip protocol port self Hinv)
    as [Hr Hc].
  destruct (probeHost (worlds 0%nat) hostname ip protocol port self) as [r self1].
  cbn [fst snd] in Hr, Hc.
  destruct (IH (fun i => worlds (S i)) self1 Hc) as [Hrs Hc2].
  destruct (runTasks (fun i => worlds (S i)) rest self1) as [results self2].
  cbn [fst snd] in *. split; [| exact Hc2].
  destruct r as [v |]; [constructor; [apply Hr; reflexivity | exact Hrs] | exact Hrs].
Qed.

(** A batch keeps the invariants of the cached records, which hold in a
    fresh prober. *)
Lemma probeHosts_keeps_wellFormed worlds subdomains self :
  Spec.cacheHolds Spec.wellFormed (cache self) ->
  Spec.cacheHolds Spec.wellFormed (cache (probeHosts worlds subdomains self).2).
Proof. intros Hinv. apply runTasks_wellFormed, Hinv. Qed.

Lemma new_prober_wellFormed timeout concurrency endpointConcurrency commonEndpoints :
  Spec.cacheHolds Spec.wellFormed
    (cache (HostProber.new timeout concurrency endpointConcurrency commonEndpoints)).
Proof. apply new_holds. Qed.

(** C4. An attempt that misses the cache and whose requests are answered
    by six redirects in a row yields no record, as a plain [null]; and
    every record that an attempt or a batch yields has a redirect chain of
    at most five entries. *)
Theorem too_many_redirects_yield_nothing w hostname ip protocol port self :
  Spec.cacheHolds Spec.wellFormed (cache self) ->
  ((CacheManager.get (now_cacheGet w) (probeCacheKey hostname ip protocol port)
      (cache self)).1 = None ->
   redirectsInARow w hostname 6 0 (Spec.firstUrl ip protocol port) = true ->
   (probeHost w hostname ip protocol port self).1 = None)
  /\ (forall record,
        (probeHost w hostname ip protocol port self).1 = Some record ->
        (List.length (redirectChain record) <= 5)%nat)
  /\ (forall worlds subdomains,
        Forall (fun record => (List.length (redirectChain record) <= 5)%nat)
          (probeHosts worlds subdomains self).1).
Proof.
  intros Hinv. split; [| split].
  - intros Hmiss Hrow. unfold HostProber.probeHost.
    destruct (CacheManager.get _ _ (cache self)) as [r c]. cbn [fst] in Hmiss. subst r.
    pose proof (fetchLoop_exceeds w hostname 5 6 0 (Spec.firstUrl ip protocol port) []
                  ltac:(lia) eq_refl Hrow) as Hnone.
    unfold HostProber.fetchWithRedirects.
    cbn [fo_protocol fo_ip fo_port fo_hostname fo_maxRedirects].
    fold (Spec.firstUrl ip protocol port).
    destruct (HostProber.fetchLoop _ _ w hostname 5 0 _ []) as [final chain].
    cbn [fst] in Hnone. subst final. reflexivity.
  - intros record Hrec.
    apply (probeHost_wellFormed w hostname ip protocol port self Hinv) in Hrec.
    apply Hrec.
  - intros worlds subdomains.
    destruct (runTasks_wellFormed (probeTasks subdomains) worlds self Hinv) as [H _].
    eapply Forall_impl; [exact H |]. intros r Hr. apply Hr.
Qed.

(** C8. Every record that an attempt or a batch yields has a check of the
    root path among its endpoints, and its existing endpoints come before
    its non-existing ones. *)
Theorem endpoints_have_root_and_existing_first w hostname ip protocol port self :
  Spec.cacheHolds Spec.wellFormed (cache self) ->
  (forall record,
      (probeHost w hostname ip protocol port self).1 = Some record ->
      Spec.hasRoot (endpoints record) /\ Spec.existingFirst (endpoints record))
  /\ (forall worlds subdomains,
        Forall (fun record =>
                  Spec.hasRoot (endpoints record) /\ Spec.existingFirst (endpoints record))
          (probeHosts worlds subdomains self).1).
Proof.
  intros Hinv. split.
  - intros record Hrec.
    apply (probeHost_wellFormed w hostname ip protocol port self Hinv) in Hrec.
    apply Hrec.
  - intros worlds subdomains.
    destruct (runTasks_wellFormed (probeTasks subdomains) worlds self Hinv) as [H _].
    eapply Forall_impl; [exact H |]. intros r Hr. apply Hr.
Qed.

End ProbeFacts.

(** Witness: a fresh prober in a world that redirects for ever. *)
Lemma too_many_redirects_yield_nothing_witness :
  (HostProber.probeHost plainURL noProtocol noTitle noAltNames zeroNumber
     loopingWorld "example.com" "10.0.0.1" http 80
     (HostProber.new None None None None)).1 = None.
Proof.
  apply (too_many_redirects_yield_nothing plainURL noProtocol noTitle noAltNames zeroNumber
           loopingWorld "example.com" "10.0.0.1" http 80
           (HostProber.new None None None None)).
  - apply Forall_nil. exact I.
  - vm_compute. reflexivity.
  - vm_compute. reflexivity.
Defined.

(** Witness: a fresh prober in a world that answers every request. *)
Lemma endpoints_have_root_and_existing_first_witness :
  exists record,
    (HostProber.probeHost plainURL noProtocol noTitle noAltNames zeroNumber
       plainWorld "example.com" "10.0.0.1" http 80
       (HostProber.new None None None None)).1 = Some record
    /\ Spec.hasRoot (endpoints record) /\ Spec.existingFirst (endpoints record).
Proof.
  destruct (HostProber.probeHost plainURL noProtocol noTitle noAltNames zeroNumber
              plainWorld "example.com" "10.0.0.1" http 80
              (HostProber.new None None None None)).1 as [record |] eqn:E.
  - exists record. split; [reflexivity |].
    apply (endpoints_have_root_and_existing_first plainURL noProtocol noTitle noAltNames
             zeroNumber plainWorld "example.com" "10.0.0.1" http 80
             (HostProber.new None None None None)).
    + apply Forall_nil. exact I.
    + exact E.
  - vm_compute in E. discriminate.
Defined.

(** ** The risk classifier *)

(** Goals on the order of the JS numbers, by cases. *)
Ltac number_order :=
  repeat match goal with x : JS.Number |- _ => destruct x end;
  unfold Spec.le, Spec.clamp, JS.geb, JS.ltb, JS.Math_max, JS.Math_min, JS.leb, JS.ofZ in *;
  cbn in *;
  repeat (case_bool_decide; cbn in * );
  try reflexivity; try discriminate; try contradiction; try congruence;
  try (f_equal; apply Qc_is_canon);
  unfold Qcle in *; cbn in *;
  repeat match goal with
         | |- context [Qred ?q] =>
             let v := eval vm_compute in (Qred q) in progress change (Qred q) with v
         | H : context [Qred ?q] |- _ =>
             let v := eval vm_compute in (Qred q) in progress change (Qred q) with v in H
         end;
  try lra.

Section ClassifierFacts.
Import Classifier.

Lemma categoriesOf_app cs cs' :
  Spec.categoriesOf (cs ++ cs') = Spec.categoriesOf cs ++ Spec.categoriesOf cs'.
Proof. unfold Spec.categoriesOf. rewrite List.map_app, concat_app. reflexivity. Qed.

Lemma scoresOf_app cs cs' :
  Spec.scoresOf (cs ++ cs') = Spec.scoresOf cs ++ Spec.scoresOf cs'.
Proof. apply List.map_app. Qed.

Lemma tracks_nil : Spec.tracks (mkAcc [] 0 []) [].
Proof. split; reflexivity. Qed.

Lemma tracks_same a cs : Spec.tracks a cs -> Spec.tracks a (cs ++ []).
Proof. rewrite app_nil_r. trivial. Qed.

Lemma tracks_fire category risk note a cs :
  Spec.tracks a cs ->
  Spec.tracks (fire category risk note a)
    (cs ++ [(match category with Some c => [c] | None => [] end, risk)]).
Proof.
  intros [Hc Hr]. split; cbn [fire acc_categories acc_riskScore].
  - rewrite categoriesOf_app, Hc. unfold Spec.categoriesOf at 2. cbn.
    rewrite app_nil_r. reflexivity.
  - rewrite scoresOf_app, fold_left_app, Hr. reflexivity.
Qed.

Lemma tracks_when (b : bool) category risk note a cs :
  Spec.tracks a cs ->
  Spec.tracks (if b then fire (Some category) risk note a else a)
    (cs ++ Spec.when b ([category], risk)).
Proof.
  intros H. destruct b; [| apply tracks_same, H].
  apply (tracks_fire (Some category)), H.
Qed.

Lemma tracks_hostnames r patterns :
  forall a cs,
    Spec.tracks a cs ->
    Spec.tracks (fold_left (hostnameRule r) patterns a)
      (cs ++ flat_map (fun entry : string * (string * Z) =>
                         Spec.when (JS.testAltI entry.1 (hostname r))
                           ([entry.2.1], entry.2.2)) patterns).
Proof.
  induction patterns as [| [pattern [category risk]] rest IH]; intros a cs H;
    [apply tracks_same, H |].
  cbn [fold_left flat_map]. rewrite app_assoc. apply IH.
  unfold hostnameRule. cbn [fst snd]. apply tracks_when, H.
Qed.

Lemma tracks_hostnameContributions r :
  Spec.tracks (fold_left (hostnameRule r) hostnamePatterns (mkAcc [] 0 []))
    (Spec.hostnameContributions r).
Proof.
  pose proof (tracks_hostnames r hostnamePatterns (mkAcc [] 0 []) [] tracks_nil) as H.
  rewrite app_nil_l in H. exact H.
Qed.

Lemma tracks_status r a :
  Spec.tracks a (Spec.hostnameContributions r) ->
  Spec.tracks (statusCodeRule r a)
    (Spec.hostnameContributions r ++ Spec.statusContributions r).
Proof.
  intros H. unfold statusCodeRule, Spec.statusContributions.
  rewrite (proj1 H).
  destruct (_ && _); [apply (tracks_fire None), H |].
  destruct (_ || _); [apply (tracks_fire None), H |].
  destruct (500 <=? _); [apply (tracks_fire None), H | apply tracks_same, H].
Qed.

Lemma tracks_tls now r a cs :
  Spec.tracks a cs ->
  Spec.tracks (noTlsRule r (tlsRules now r a)) (cs ++ Spec.tlsContributions now r).
Proof.
  intros H. unfold noTlsRule, tlsRules, Spec.tlsContributions.
  destruct (tls r) as [t |].
  - rewrite app_assoc. apply tracks_when.
    destruct (validTo t) as [v |]; [| apply tracks_same, H].
    rewrite app_assoc. apply tracks_when, tracks_when, H.
  - destruct (protocol r); [| apply tracks_same, H].
    apply (tracks_fire (Some "no-tls")), H.
Qed.

(** The local variables of [applyBuiltInRules] hold the contributions of
    the built-in rules. *)
Lemma tracks_builtIn now r :
  Spec.tracks (runBuiltInRules now r) (Spec.builtInContributions now r).
Proof.
  unfold runBuiltInRules, Spec.builtInContributions.
  unfold slowResponseRule, Spec.slowContributions.
  rewrite !app_assoc. apply tracks_when.
  apply tracks_tls.
  unfold directoryListingRule, exposedEndpointsRule, Spec.endpointContributions.
  rewrite !app_assoc.
  match goal with
  | |- Spec.tracks (match ?f with Some _ => ?x | None => ?y end) _ =>
      change (match f with Some _ => x | None => y end)
        with (if bool_decide (is_Some f) then x else y) ||
      replace (match f with Some _ => x | None => y end)
        with (if bool_decide (is_Some f) then x else y)
        by (destruct f; [rewrite bool_decide_eq_true_2 by eauto
                        | rewrite bool_decide_eq_false_2 by (intros [? ?]; discriminate)];
            reflexivity)
  end.
  apply tracks_when. apply tracks_when.
  unfold weakHeadersRule, corsRule, outdatedServerRule, Spec.headerContributions.
  rewrite !app_assoc. apply tracks_when, tracks_when, tracks_when.
  apply tracks_status, tracks_hostnameContributions.
Qed.

Lemma fold_max_assoc l a x :
  fold_left Z.max l (Z.max a x) = Z.max a (fold_left Z.max l x).
Proof.
  revert x. induction l as [| y l IH]; intros x; [reflexivity |].
  cbn [fold_left]. rewrite <- Z.max_assoc. apply IH.
Qed.

Lemma fold_max_ge l a : a <= fold_left Z.max l a.
Proof.
  revert a. induction l as [| x l IH]; intros a; cbn [fold_left]; [lia |].
  specialize (IH (Z.max a x)). lia.
Qed.

(** *** The order of the JS numbers *)

Lemma leb_ofZ a b : JS.leb (JS.ofZ a) (JS.ofZ b) = (a <=? b).
Proof.
  unfold JS.leb, JS.ofZ.
  destruct (Z.leb_spec a b) as [H | H]; [apply bool_decide_eq_true | apply bool_decide_eq_false];
    unfold Qcle; cbn; rewrite !Qred_correct, <- Zle_Qle; lia.
Qed.

Lemma Math_max_ofZ a b : JS.Math_max (JS.ofZ a) (JS.ofZ b) = JS.ofZ (Z.max a b).
Proof.
  change (JS.Math_max (JS.ofZ a) (JS.ofZ b))
    with (if JS.leb (JS.ofZ a) (JS.ofZ b) then JS.ofZ b else JS.ofZ a).
  rewrite leb_ofZ. destruct (Z.leb_spec a b); f_equal; lia.
Qed.

Lemma Math_min_ofZ a b : JS.Math_min (JS.ofZ a) (JS.ofZ b) = JS.ofZ (Z.min a b).
Proof.
  change (JS.Math_min (JS.ofZ a) (JS.ofZ b))
    with (if JS.leb (JS.ofZ a) (JS.ofZ b) then JS.ofZ a else JS.ofZ b).
  rewrite leb_ofZ. destruct (Z.leb_spec a b); f_equal; lia.
Qed.

Lemma Math_max_assoc a b c :
  JS.Math_max (JS.Math_max a b) c = JS.Math_max a (JS.Math_max b c).
Proof. number_order. Qed.

Lemma Math_max_NaN_r a : JS.Math_max a JS.NaN = JS.NaN.
Proof. destruct a; reflexivity. Qed.

Lemma Math_max_numeric a b : a <> JS.NaN -> b <> JS.NaN -> JS.Math_max a b <> JS.NaN.
Proof. intros Ha Hb. number_order. Qed.

Lemma Math_max_ge_l a b : a <> JS.NaN -> b <> JS.NaN -> Spec.le a (JS.Math_max a b).
Proof. intros Ha Hb. number_order. Qed.

Lemma Math_max_ge_r a b : a <> JS.NaN -> b <> JS.NaN -> Spec.le b (JS.Math_max a b).
Proof. intros Ha Hb. number_order. Qed.

Lemma le_trans a b c : Spec.le a b -> Spec.le b c -> Spec.le a c.
Proof. intros H1 H2. number_order. Qed.

Lemma le_numeric a b : Spec.le a b -> a <> JS.NaN /\ b <> JS.NaN.
Proof. intros H. split; intros ->; number_order. Qed.

Lemma Math_min_mono a b c : Spec.le a b -> c <> JS.NaN -> Spec.le (JS.Math_min a c) (JS.Math_min b c).
Proof. intros H Hc. number_order. Qed.

Lemma Math_min_le_r a c : a <> JS.NaN -> c <> JS.NaN -> Spec.le (JS.Math_min a c) c.
Proof. intros Ha Hc. number_order. Qed.

Lemma Math_min_numeric a c : a <> JS.NaN -> c <> JS.NaN -> JS.Math_min a c <> JS.NaN.
Proof. intros Ha Hc. number_order. Qed.

Lemma ofZ_numeric z : JS.ofZ z <> JS.NaN.
Proof. discriminate. Qed.

Lemma clamp_min_max m :
  m <> JS.NaN ->
  JS.Math_min (JS.Math_max (JS.ofZ 0) m) (JS.ofZ 100) = Spec.clamp m.
Proof. intros Hm. number_order. Qed.

Lemma fold_Math_max_assoc l a x :
  fold_left JS.Math_max l (JS.Math_max a x) = JS.Math_max a (fold_left JS.Math_max l x).
Proof.
  revert x. induction l as [| y l IH]; intros x; [reflexivity |].
  cbn [fold_left]. rewrite Math_max_assoc. apply IH.
Qed.

Lemma fold_Math_max_ofZ l a :
  fold_left JS.Math_max (List.map JS.ofZ l) (JS.ofZ a) = JS.ofZ (fold_left Z.max l a).
Proof.
  revert a. induction l as [| x l IH]; intros a; [reflexivity |].
  cbn [List.map fold_left]. rewrite Math_max_ofZ. apply IH.
Qed.

(** One [NaN] among the scores makes the maximum [NaN]. *)
Lemma fold_Math_max_NaN l :
  forall a, a = JS.NaN \/ JS.NaN ∈ l -> fold_left JS.Math_max l a = JS.NaN.
Proof.
  induction l as [| x l IH]; intros a [Ha | Hl]; cbn [fold_left].
  - exact Ha.
  - inversion Hl.
  - apply IH. left. subst a. reflexivity.
  - apply IH. apply elem_of_cons in Hl. destruct Hl as [<- | Hl]; [left | right; exact Hl].
    apply Math_max_NaN_r.
Qed.

Lemma fold_Math_max_numeric l :
  forall a, a <> JS.NaN -> Spec.numeric l -> fold_left JS.Math_max l a <> JS.NaN.
Proof.
  induction l as [| x l IH]; intros a Ha Hl; [exact Ha |].
  cbn [fold_left]. apply Forall_cons in Hl. destruct Hl as [Hx Hl].
  apply IH; [apply Math_max_numeric; assumption | exact Hl].
Qed.

Lemma fold_Math_max_ge l :
  forall a, a <> JS.NaN -> Spec.numeric l -> Spec.le a (fold_left JS.Math_max l a).
Proof.
  induction l as [| x l IH]; intros a Ha Hl; cbn [fold_left].
  - clear Hl. number_order.
  - apply Forall_cons in Hl. destruct Hl as [Hx Hl].
    apply (le_trans _ (JS.Math_max a x)); [apply Math_max_ge_l; assumption |].
    apply IH; [apply Math_max_numeric; assumption | exact Hl].
Qed.

Lemma fold_Math_max_elem l :
  forall a x, a <> JS.NaN -> Spec.numeric l -> x ∈ l ->
              Spec.le x (fold_left JS.Math_max l a).
Proof.
  induction l as [| y l IH]; intros a x Ha Hl Hx; [inversion Hx |].
  cbn [fold_left]. apply Forall_cons in Hl. destruct Hl as [Hy Hl].
  apply elem_of_cons in Hx. destruct Hx as [-> | Hx].
  - apply (le_trans _ (JS.Math_max a y)); [apply Math_max_ge_r; assumption |].
    apply fold_Math_max_ge; [apply Math_max_numeric; assumption | exact Hl].
  - apply IH; [apply Math_max_numeric; assumption | exact Hl | exact Hx].
Qed.

Lemma greatest_numeric l m : Spec.numeric l -> Spec.greatest l = Some m -> m <> JS.NaN.
Proof.
  revert m. induction l as [| x l IH]; intros m Hl Hm; [discriminate |].
  apply Forall_cons in Hl. destruct Hl as [Hx Hl]. cbn [Spec.greatest] in Hm.
  destruct (Spec.greatest l) as [m' |]; injection Hm as <-; [| exact Hx].
  specialize (IH m' Hl eq_refl). destruct (JS.leb x m'); assumption.
Qed.

(** The fold of [Math.max] is the greatest of the numbers, if none is
    [NaN]. *)
Lemma fold_Math_max_greatest l :
  forall a, a <> JS.NaN -> Spec.numeric l ->
    fold_left JS.Math_max l a
    = match Spec.greatest l with Some m => JS.Math_max a m | None => a end.
Proof.
  induction l as [| x l IH]; intros a Ha Hl; [reflexivity |].
  pose proof Hl as Hxl. apply Forall_cons in Hl. destruct Hl as [Hx Hl].
  cbn [fold_left Spec.greatest]. rewrite fold_Math_max_assoc, (IH x Hx Hl).
  destruct (Spec.greatest l) as [m |] eqn:Hg; [| reflexivity].
  pose proof (greatest_numeric l m Hl Hg) as Hm.
  f_equal. clear - Hx Hm. number_order.
Qed.

(** *** The loop over the plugins *)

Lemma hookContributions_cons p plugins r :
  Spec.hookContributions (p :: plugins) r
  = match Spec.hookContribution r p with
    | Some c => [c]
    | None => []
    end ++ Spec.hookContributions plugins r.
Proof.
  unfold Spec.hookContributions. generalize (Spec.hookContribution r). intros f.
  cbn. destruct (f p); reflexivity.
Qed.

Lemma hookCategories_cons p plugins r :
  Spec.hookCategories (p :: plugins) r
  = match Spec.hookContribution r p with Some c => c.1 | None => [] end
    ++ Spec.hookCategories plugins r.
Proof.
  unfold Spec.hookCategories. rewrite hookContributions_cons.
  destruct (Spec.hookContribution r p); reflexivity.
Qed.

Lemma hookScores_cons p plugins r :
  Spec.hookScores (p :: plugins) r
  = match Spec.hookContribution r p with Some c => [c.2] | None => [] end
    ++ Spec.hookScores plugins r.
Proof.
  unfold Spec.hookScores. rewrite hookContributions_cons.
  destruct (Spec.hookContribution r p); reflexivity.
Qed.

(** What one turn of the loop over the plugins does: it ends [classify]
    when the hook throws what cannot be printed, and otherwise adds what
    the hook contributes. *)
Lemma pluginStep_contribution r a log p :
  match pluginStep r (a, log) p with
  | Some (a', log') =>
      Spec.throwsUnprintable r p = false
      /\ loc_categories a'
         = loc_categories a
           ++ match Spec.hookContribution r p with Some c => c.1 | None => [] end
      /\ loc_riskScore a'
         = fold_left JS.Math_max
             (match Spec.hookContribution r p with Some c => [c.2] | None => [] end)
             (loc_riskScore a)
  | None => Spec.throwsUnprintable r p = true
  end.
Proof.
  unfold pluginStep, Spec.hookContribution, Spec.throwsUnprintable.
  destruct (onClassify p) as [hook |];
    [| cbn; rewrite app_nil_r; split; [| split]; reflexivity].
  destruct (hook r) as [raw | thrown].
  - destruct (acceptedHint raw) as [[cs hint] |]; cbn;
      [| rewrite app_nil_r]; split; try split; reflexivity.
  - destruct (errorMessageOf thrown) as [message |] eqn:Hm; cbn.
    + rewrite app_nil_r. split; [| split; reflexivity].
      first [reflexivity | apply bool_decide_eq_false; discriminate].
    + first [reflexivity | apply bool_decide_eq_true; reflexivity].
Qed.

(** What the loop over the plugins adds to the local variables, when it
    ends normally; and it ends normally exactly when no hook throws what
    cannot be printed. *)
Lemma pluginLoop_contributions r plugins :
  forall a log,
    match pluginLoop r plugins (a, log) with
    | Some (a', log') =>
        Forall (fun p => Spec.throwsUnprintable r p = false) plugins
        /\ loc_categories a' = loc_categories a ++ Spec.hookCategories plugins r
        /\ loc_riskScore a'
           = fold_left JS.Math_max (Spec.hookScores plugins r) (loc_riskScore a)
    | None => Exists (fun p => Spec.throwsUnprintable r p = true) plugins
    end.
Proof.
  induction plugins as [| p plugins IH]; intros a log.
  - cbn. rewrite app_nil_r. split; [constructor | split; reflexivity].
  - cbn [pluginLoop].
    pose proof (pluginStep_contribution r a log p) as Hstep.
    destruct (pluginStep r (a, log) p) as [[a1 log1] |]; [| left; exact Hstep].
    destruct Hstep as (Hp & Hc & Hr). specialize (IH a1 log1).
    destruct (pluginLoop r plugins (a1, log1)) as [[a2 log2] |]; [| right; exact IH].
    destruct IH as (Hall & Hc2 & Hr2).
    split; [constructor; assumption |].
    rewrite Hc2, Hr2, Hc, Hr, hookCategories_cons, hookScores_cons.
    rewrite <- app_assoc, fold_left_app. split; reflexivity.
Qed.

(** The categories and the score of a classified record, in terms of the
    contributions. *)
Lemma classifyRecord_contributions now plugins r c log :
  classifyRecord now plugins r = Some (c, log) ->
  probe c = r
  /\ categories c = JS.dedupe (Spec.pushedCategories now plugins r)
  /\ riskScore c
     = JS.Math_min (fold_left JS.Math_max (Spec.scores now plugins r) (JS.ofZ 0))
         (JS.ofZ 100).
Proof.
  unfold classifyRecord, applyBuiltInRules.
  cbn [hint_categories hint_riskScore hint_notes].
  destruct (tracks_builtIn now r) as [Hc Hr].
  match goal with |- context [pluginLoop r plugins (?a, ?log)] =>
    pose proof (pluginLoop_contributions r plugins a log) as H;
    destruct (pluginLoop r plugins (a, log)) as [[a' log'] |]; [| discriminate]
  end.
  cbn [loc_categories loc_riskScore] in H. destruct H as (_ & H1 & H2).
  intros [= <- <-]. cbn [probe categories riskScore].
  rewrite H1, H2, Hc, Hr. unfold Spec.pushedCategories.
  split; [reflexivity | split; [reflexivity |]].
  unfold Spec.scores. rewrite fold_left_app, fold_Math_max_ofZ, Math_max_ofZ.
  rewrite (Z.max_r 0) by apply fold_max_ge. reflexivity.
Qed.

(** The body of the loop returns unless a hook throws what cannot be
    printed. *)
Lemma classifyRecord_returns now plugins r :
  Forall (fun p => Spec.throwsUnprintable r p = false) plugins ->
  is_Some (classifyRecord now plugins r).
Proof.
  intros Hall. unfold classifyRecord.
  match goal with |- context [pluginLoop r plugins (?a, ?log)] =>
    pose proof (pluginLoop_contributions r plugins a log) as H;
    destruct (pluginLoop r plugins (a, log)) as [[a' log'] |]; [eauto |]
  end.
  apply Exists_exists in H. destruct H as (p & Hp & Htrue).
  rewrite Forall_forall in Hall. rewrite (Hall p Hp) in Htrue. discriminate.
Qed.

Lemma classifyRecord_rejects now plugins r :
  classifyRecord now plugins r = None ->
  Exists (fun p => Spec.throwsUnprintable r p = true) plugins.
Proof.
  unfold classifyRecord.
  match goal with |- context [pluginLoop r plugins (?a, ?log)] =>
    pose proof (pluginLoop_contributions r plugins a log) as H;
    destruct (pluginLoop r plugins (a, log)) as [[a' log'] |]; [discriminate |]
  end.
  intros _. exact H.
Qed.

(** [classify] runs the body of its loop on every record, in order. *)
Lemma classifyAll_records plugins results :
  forall clock out log,
    classifyAll clock plugins results = Some (out, log) ->
    List.length out = List.length results
    /\ forall i c, out !! i = Some c ->
         exists r log', results !! i = Some r
                        /\ classifyRecord (clock i) plugins r = Some (c, log').
Proof.
  induction results as [| r results IH]; intros clock out log H; cbn [classifyAll] in H.
  - injection H as <- <-. split; [reflexivity |]. intros i c Hi. destruct i; discriminate.
  - destruct (classifyRecord (clock 0%nat) plugins r) as [[c0 log1] |] eqn:H0; [| discriminate].
    destruct (classifyAll (fun i => clock (S i)) plugins results) as [[cs log2] |] eqn:Hrest;
      [| discriminate].
    injection H as <- <-. destruct (IH _ _ _ Hrest) as [Hlen Hrec].
    split; [cbn; rewrite Hlen; reflexivity |].
    intros [| i] c Hi; cbn in Hi.
    + injection Hi as <-. exists r, log1. split; [reflexivity | exact H0].
    + destruct (Hrec i c Hi) as (r' & log' & Hr' & Hc'). exists r', log'.
      split; assumption.
Qed.

Lemma classify_records clock plugins results out log :
  classify clock results (Some plugins) = Some (out, log) ->
  List.length out = List.length results
  /\ forall i c, out !! i = Some c ->
       exists r log', results !! i = Some r
                      /\ classifyRecord (clock i) plugins r = Some (c, log').
Proof.
  unfold classify. cbn [JS.nullish].
  destruct (classifyAll clock plugins results) as [[out' log'] |] eqn:H; [| discriminate].
  intros [= <- <-]. apply (classifyAll_records _ _ _ _ _ H).
Qed.

(** [classify] returns unless a hook throws what cannot be printed. *)
Lemma classify_returns plugins results :
  forall clock,
    Forall (fun r => Forall (fun p => Spec.throwsUnprintable r p = false) plugins) results ->
    is_Some (classify clock results (Some plugins)).
Proof.
  intros clock Hall. unfold classify. cbn [JS.nullish].
  assert (is_Some (classifyAll clock plugins results)) as [[out log] ->]; [| eauto].
  revert clock. induction Hall as [| r results Hr Hall IH]; intros clock; [cbn; eauto |].
  cbn [classifyAll].
  destruct (classifyRecord_returns (clock 0%nat) plugins r Hr) as [[c log1] ->].
  destruct (IH (fun i => clock (S i))) as [[cs log2] ->]. eauto.
Qed.

(** *** The score *)

(** The score of a classified record when no hook returns [NaN]: the
    maximum of the contributed scores, clamped to [0,100]. *)
Lemma numeric_scores_are_clamped now plugins r c log :
  classifyRecord now plugins r = Some (c, log) ->
  Spec.numeric (Spec.hookScores plugins r) ->
  Spec.scoreIsClampedMaximum now plugins r c.
Proof.
  intros Hsome Hnum.
  destruct (classifyRecord_contributions _ _ _ _ _ Hsome) as (_ & _ & Hr).
  assert (Spec.numeric (Spec.scores now plugins r)) as Hall.
  { unfold Spec.scores, Spec.numeric. apply Forall_app. split; [| exact Hnum].
    apply Forall_forall. intros x Hx. apply list_elem_of_In, in_map_iff in Hx.
    destruct Hx as (z & <- & _). discriminate. }
  pose proof (fold_Math_max_numeric _ (JS.ofZ 0) (ofZ_numeric 0) Hall) as Hfold.
  pose proof (fold_Math_max_ge _ (JS.ofZ 0) (ofZ_numeric 0) Hall) as Hge.
  unfold Spec.scoreIsClampedMaximum. rewrite Hr. split; [| split].
  - rewrite (fold_Math_max_greatest _ _ (ofZ_numeric 0) Hall). unfold Spec.finalScore.
    destruct (Spec.greatest (Spec.scores now plugins r)) as [m |] eqn:Hg.
    + apply clamp_min_max. apply (greatest_numeric _ _ Hall Hg).
    + reflexivity.
  - revert Hfold Hge. generalize (fold_left JS.Math_max (Spec.scores now plugins r) (JS.ofZ 0)).
    intros x Hx Hle. number_order.
  - apply Math_min_le_r; [exact Hfold | discriminate].
Qed.

(** A hook that returns [NaN] as its score makes the score of the record
    [NaN]. *)
Lemma NaN_score_propagates now plugins r c log :
  classifyRecord now plugins r = Some (c, log) ->
  JS.NaN ∈ Spec.hookScores plugins r ->
  riskScore c = JS.NaN.
Proof.
  intros Hsome Hnan.
  destruct (classifyRecord_contributions _ _ _ _ _ Hsome) as (_ & _ & ->).
  rewrite fold_Math_max_NaN; [reflexivity |].
  right. unfold Spec.scores. apply elem_of_app. right. exact Hnan.
Qed.

(** C1, at the input where it fails. A hook that returns the score [NaN]
    with an accepted hint makes the risk score of the record [NaN]:
    [Math.max] and [Math.min] hand [NaN] on, so the score is neither the
    clamped maximum of the contributed scores nor within [0,100]. *)
Theorem nan_hook_score_is_not_clamped :
  exists c log,
    classify (fun _ => 0) [quietRecord] (Some [nanPlugin]) = Some ([c], log)
    /\ riskScore c = JS.NaN
    /\ ~ Spec.scoreIsClampedMaximum 0 [nanPlugin] quietRecord c.
Proof.
  eexists. eexists. split; [vm_compute; reflexivity |].
  split; [reflexivity |].
  intros (_ & H & _). vm_compute in H. discriminate.
Qed.

Example riskScore_above_100_is_clamped :
  exists c log,
    classifyRecord 0 [loudPlugin] quietRecord = Some (c, log)
    /\ riskScore c = JS.ofZ 100.
Proof. eexists. eexists. split; [vm_compute; reflexivity |]. number_order. Qed.

Example fractional_score_is_kept :
  exists c log,
    classifyRecord 0 [halfPlugin] quietRecord = Some (c, log)
    /\ riskScore c = JS.Finite (Q2Qc (145 # 2)).
Proof. eexists. eexists. split; [vm_compute; reflexivity |]. number_order. Qed.

(** *** The categories *)

Lemma elem_of_dedupeFrom x seen l :
  x ∈ JS.dedupeFrom seen l <-> x ∈ l /\ x ∉ seen.
Proof.
  revert seen. induction l as [| y l IH]; intros seen; cbn [JS.dedupeFrom].
  - split; [intros H; inversion H | intros [H _]; inversion H].
  - case_bool_decide as Hy.
    + rewrite IH, elem_of_cons. split; [tauto |].
      intros [[-> | H] Hx]; [contradiction | tauto].
    + rewrite !elem_of_cons, IH, elem_of_cons.
      destruct (decide (x = y)) as [-> | Hne]; tauto.
Qed.

Lemma elem_of_dedupe x l : x ∈ JS.dedupe l <-> x ∈ l.
Proof.
  unfold JS.dedupe. rewrite elem_of_dedupeFrom. split; [tauto |].
  intros H. split; [exact H | apply not_elem_of_nil].
Qed.

Lemma dedupe_nonempty l : l <> [] -> JS.dedupe l <> [].
Proof.
  destruct l as [| x l]; [congruence |]. intros _ H.
  assert (x ∈ JS.dedupe (x :: l)) as Hx by (apply elem_of_dedupe; left).
  rewrite H in Hx. inversion Hx.
Qed.

Lemma filter_filter_bool {A} (f g : A -> bool) (l : list A) :
  List.filter f (List.filter g l) = List.filter (fun x => g x && f x) l.
Proof.
  induction l as [| x l IH]; [reflexivity |]. cbn [List.filter].
  destruct (g x); cbn [List.filter andb]; [destruct (f x) |]; rewrite IH; reflexivity.
Qed.

(** [Array.from(new Set(xs))] keeps the first occurrence of every element,
    in order. *)
Lemma dedupeFrom_distinct l :
  forall seen,
    JS.dedupeFrom seen l
    = List.filter (fun y => negb (bool_decide (y ∈ seen))) (Spec.distinct l).
Proof.
  induction l as [| x l IH]; intros seen; [reflexivity |].
  cbn [JS.dedupeFrom Spec.distinct List.filter].
  case_bool_decide as Hx; cbn [negb].
  - rewrite IH, filter_filter_bool. apply filter_ext_in. intros y _.
    destruct (String.eqb_spec y x) as [-> | Hne]; cbn [negb andb]; [| reflexivity].
    rewrite bool_decide_eq_true_2 by exact Hx. reflexivity.
  - f_equal. rewrite IH, filter_filter_bool. apply filter_ext_in. intros y _.
    destruct (String.eqb_spec y x) as [-> | Hne]; cbn [negb andb].
    + rewrite bool_decide_eq_true_2 by left. reflexivity.
    + apply f_equal, bool_decide_ext. rewrite elem_of_cons. tauto.
Qed.

Lemma dedupe_distinct l : JS.dedupe l = Spec.distinct l.
Proof.
  unfold JS.dedupe. rewrite dedupeFrom_distinct.
  induction (Spec.distinct l) as [| y d IH]; [reflexivity |].
  cbn [List.filter]. rewrite bool_decide_eq_false_2 by apply not_elem_of_nil.
  cbn [negb]. f_equal. exact IH.
Qed.

Lemma clean_nil : Spec.clean [].
Proof. apply not_elem_of_nil. Qed.

Lemma clean_app cs cs' : Spec.clean cs -> Spec.clean cs' -> Spec.clean (cs ++ cs').
Proof. unfold Spec.clean. rewrite categoriesOf_app, elem_of_app. tauto. Qed.

Lemma clean_one category risk : category <> "standard" -> Spec.clean [([category], risk)].
Proof.
  intros Hne. unfold Spec.clean, Spec.categoriesOf. cbn.
  rewrite list_elem_of_singleton. congruence.
Qed.

Lemma clean_none risk : Spec.clean [([], risk)].
Proof. apply not_elem_of_nil. Qed.

Lemma clean_when b category risk :
  category <> "standard" -> Spec.clean (Spec.when b ([category], risk)).
Proof. intros Hne. destruct b; [apply clean_one, Hne | apply clean_nil]. Qed.

Lemma clean_builtIn now r : Spec.clean (Spec.builtInContributions now r).
Proof.
  unfold Spec.builtInContributions.
  apply clean_app;
    [| apply clean_app; [| apply clean_app; [| apply clean_app; [| apply clean_app]]]].
  - unfold Spec.hostnameContributions, hostnamePatterns. cbn [flat_map fst snd].
    repeat (apply clean_app; [apply clean_when; discriminate |]). apply clean_nil.
  - unfold Spec.statusContributions.
    destruct (_ && _); [apply clean_none |].
    destruct (_ || _); [apply clean_none |].
    destruct (500 <=? _); [apply clean_none | apply clean_nil].
  - unfold Spec.headerContributions.
    apply clean_app; [| apply clean_app]; apply clean_when; discriminate.
  - unfold Spec.endpointContributions.
    apply clean_app; apply clean_when; discriminate.
  - unfold Spec.tlsContributions.
    destruct (tls r) as [t |].
    + apply clean_app; [| apply clean_when; discriminate].
      destruct (validTo t); [| apply clean_nil].
      apply clean_app; apply clean_when; discriminate.
    + destruct (protocol r); [apply clean_one; discriminate | apply clean_nil].
  - apply clean_when. discriminate.
Qed.

(** C2, as amended. Of every record that [classify] returns, the
    categories are never empty, and the sentinel is among them exactly when
    no built-in rule contributed a category or a hook itself contributed
    the sentinel. The categories are the first occurrences, in order, of
    the categories of the built-in rules (or the sentinel, when there is
    none) followed by the categories of the hooks; so when no built-in rule
    contributed a category the sentinel comes first and the categories of
    the hooks follow it. *)
Theorem categories_nonempty_standard_marks_no_builtIn clock plugins results out log i c :
  classify clock results (Some plugins) = Some (out, log) ->
  out !! i = Some c ->
  exists r,
    results !! i = Some r
    /\ categories c <> []
    /\ ("standard" ∈ categories c <->
        Spec.categoriesOf (Spec.builtInContributions (clock i) r) = []
        \/ "standard" ∈ Spec.hookCategories plugins r)
    /\ categories c = Spec.distinct (Spec.pushedCategories (clock i) plugins r)
    /\ (Spec.categoriesOf (Spec.builtInContributions (clock i) r) = [] ->
        categories c
        = "standard"
          :: List.filter (fun y => negb (String.eqb y "standard"))
               (Spec.distinct (Spec.hookCategories plugins r))).
Proof.
  intros Hclassify Hi.
  destruct (classify_records _ _ _ _ _ Hclassify) as [_ Hrec].
  destruct (Hrec i c Hi) as (r & log' & Hr & Hc). exists r. split; [exact Hr |].
  destruct (classifyRecord_contributions _ _ _ _ _ Hc) as (_ & H & _).
  pose proof (clean_builtIn (clock i) r) as Hclean. unfold Spec.clean in Hclean.
  split; [| split; [| split]].
  - rewrite H. apply dedupe_nonempty. unfold Spec.pushedCategories.
    destruct (Spec.categoriesOf (Spec.builtInContributions (clock i) r)); discriminate.
  - rewrite H, elem_of_dedupe. unfold Spec.pushedCategories. rewrite elem_of_app.
    destruct (Spec.categoriesOf (Spec.builtInContributions (clock i) r)) as [| c0 cs] eqn:E.
    + split; [tauto |]. intros _. left. left.
    + split; [intros [H' | H']; [contradiction | right; exact H'] |].
      intros [H' | H']; [discriminate | right; exact H'].
  - rewrite H. apply dedupe_distinct.
  - intros Hnone. rewrite H, dedupe_distinct. unfold Spec.pushedCategories.
    rewrite Hnone. reflexivity.
Qed.

(** C2 as stated fails: on a record for which no built-in rule
    contributes a category, the category of a hook comes after the
    sentinel. *)
Lemma standard_cooccurs_with_hook_category :
  exists c log,
    classify (fun _ => 0) [quietRecord] (Some [customPlugin]) = Some ([c], log)
    /\ categories c = ["standard"; "custom-category"]
    /\ ~ Spec.standardIffNothingContributed 0 [customPlugin] quietRecord c.
Proof.
  eexists. eexists. split; [vm_compute; reflexivity |].
  split; [reflexivity |].
  intros [H _]. cbn [categories] in H.
  destruct H as [_ Hin]; [left |]. vm_compute in Hin. discriminate.
Qed.

(** *** Hooks that throw *)

Lemma hookContribution_throws r p :
  Spec.throwsOn r p = true -> Spec.hookContribution r p = None.
Proof.
  unfold Spec.throwsOn, Spec.hookContribution.
  destruct (onClassify p) as [hook |]; [| discriminate].
  destruct (hook r); [discriminate | reflexivity].
Qed.

(** The hooks that throw on a record contribute nothing to it. *)
Lemma hookContributions_skip_throwing r plugins :
  Spec.hookContributions plugins r
  = Spec.hookContributions (List.filter (fun p => negb (Spec.throwsOn r p)) plugins) r.
Proof.
  induction plugins as [| p plugins IH]; [reflexivity |].
  cbn [List.filter]. destruct (Spec.throwsOn r p) eqn:Hthrows; cbn [negb].
  - rewrite hookContributions_cons, (hookContribution_throws _ _ Hthrows). exact IH.
  - rewrite !hookContributions_cons, IH. reflexivity.
Qed.

Lemma pushedCategories_skip_throwing now r plugins :
  Spec.pushedCategories now plugins r
  = Spec.pushedCategories now (List.filter (fun p => negb (Spec.throwsOn r p)) plugins) r.
Proof.
  unfold Spec.pushedCategories, Spec.hookCategories.
  rewrite <- hookContributions_skip_throwing. reflexivity.
Qed.

Lemma scores_skip_throwing now r plugins :
  Spec.scores now plugins r
  = Spec.scores now (List.filter (fun p => negb (Spec.throwsOn r p)) plugins) r.
Proof.
  unfold Spec.scores, Spec.hookScores.
  rewrite <- hookContributions_skip_throwing. reflexivity.
Qed.

(** When every value that a hook throws can be printed, [classify] returns
    one classified record for every input record, in order, and the
    categories and the score of each are made of what the built-in rules
    and the hooks that do not throw on that record contribute. *)
Lemma printable_throws_are_skipped clock plugins results :
  Forall (fun r => Forall (fun p => Spec.throwsUnprintable r p = false) plugins) results ->
  exists out log,
    classify clock results (Some plugins) = Some (out, log)
    /\ List.map probe out = results
    /\ forall i c, out !! i = Some c ->
         exists r, results !! i = Some r
           /\ categories c
              = Spec.distinct
                  (Spec.pushedCategories (clock i)
                     (List.filter (fun p => negb (Spec.throwsOn r p)) plugins) r)
           /\ riskScore c
              = JS.Math_min
                  (fold_left JS.Math_max
                     (Spec.scores (clock i)
                        (List.filter (fun p => negb (Spec.throwsOn r p)) plugins) r)
                     (JS.ofZ 0))
                  (JS.ofZ 100).
Proof.
  intros Hall. destruct (classify_returns plugins results clock Hall) as [[out log] Hsome].
  exists out, log. split; [exact Hsome |].
  destruct (classify_records _ _ _ _ _ Hsome) as [Hlen Hrec]. split.
  - apply list_eq. intros i. rewrite list_lookup_fmap.
    destruct (out !! i) as [c |] eqn:Hi; cbn.
    + destruct (Hrec i c Hi) as (r & log' & -> & Hc).
      destruct (classifyRecord_contributions _ _ _ _ _ Hc) as (-> & _). reflexivity.
    + symmetry. apply lookup_ge_None. apply lookup_ge_None in Hi. lia.
  - intros i c Hi. destruct (Hrec i c Hi) as (r & log' & Hr & Hc). exists r.
    split; [exact Hr |].
    destruct (classifyRecord_contributions _ _ _ _ _ Hc) as (_ & Hcat & Hscore).
    rewrite <- pushedCategories_skip_throwing, <- scores_skip_throwing, <- dedupe_distinct.
    split; assumption.
Qed.

(** C3, at the input where it fails. A hook that throws a value of which
    no message can be made (here [Object.create(null)], on which [String]
    throws) makes the [catch] block itself throw: [classify] rejects and
    returns no record at all. *)
Theorem unprintable_throw_rejects_classify :
  classify (fun _ => 0) [quietRecord] (Some [unprintablePlugin]) = None
  /\ ~ Spec.returnsOnePerRecord (fun _ => 0) [unprintablePlugin] [quietRecord].
Proof.
  split; [reflexivity |].
  intros (out & log & H & _). vm_compute in H. discriminate.
Qed.

Example faulty_plugin_is_logged_and_skipped :
  exists c,
    classify (fun _ => 0) [quietRecord] (Some [faultyPlugin; customPlugin])
    = Some ([c],
            [(info, "Classifying probe results...");
             (error, "Plugin faulty-plugin classification failed: Plugin error")])
    /\ categories c = ["standard"; "custom-category"]
    /\ riskScore c = JS.ofZ 90.
Proof.
  eexists. split; [vm_compute; reflexivity |]. split; [reflexivity | number_order].
Qed.

End ClassifierFacts.

(** Witness: the quiet record with the hook of [customPlugin]. *)
Lemma categories_nonempty_standard_marks_no_builtIn_witness :
  exists c log,
    Classifier.classify (fun _ => 0) [quietRecord] (Some [customPlugin]) = Some ([c], log)
    /\ categories c <> []
    /\ categories c
       = "standard"
         :: List.filter (fun y => negb (String.eqb y "standard"))
              (Spec.distinct (Spec.hookCategories [customPlugin] quietRecord)).
Proof.
  destruct (Classifier.classify (fun _ => 0) [quietRecord] (Some [customPlugin]))
    as [[out log] |] eqn:H; [| vm_compute in H; discriminate].
  destruct out as [| c [| c' out]]; [vm_compute in H; discriminate | | vm_compute in H; discriminate].
  exists c, log. split; [reflexivity |].
  destruct (categories_nonempty_standard_marks_no_builtIn
              (fun _ => 0) [customPlugin] [quietRecord] [c] log 0%nat c H eq_refl)
    as (r & Hr & Hne & _ & _ & Hfirst).
  injection Hr as <-. split; [exact Hne |]. apply Hfirst. reflexivity.
Defined.

(** * Further properties of the code *)

(** ** The LRU store behind the cache *)

Section StoreFacts.
Context {T : Type}.

Lemma hasKey_true {V} k (it : LRU.Item V) : LRU.hasKey k it = true <-> LRU.key it = k.
Proof. unfold LRU.hasKey. apply String.eqb_eq. Qed.

Lemma find_Some_key {V} k (c : LRU.t V) it :
  LRU.find k c = Some it -> LRU.key it = k /\ In it (LRU.items c).
Proof.
  unfold LRU.find. intros H. apply find_some in H. destruct H as [Hin Hk].
  split; [apply hasKey_true, Hk | exact Hin].
Qed.

Lemma find_None_keys {V} k (c : LRU.t V) : LRU.find k c = None <-> k ∉ Inv.keys c.
Proof.
  unfold LRU.find, Inv.keys. induction (LRU.items c) as [| it l IH]; cbn.
  - split; [intros _; apply not_elem_of_nil | reflexivity].
  - rewrite not_elem_of_cons. destruct (LRU.hasKey k it) eqn:E.
    + apply hasKey_true in E. split; [discriminate | intros [H _]; congruence].
    + rewrite IH. split; [| tauto]. intros H. split; [| exact H].
      intros ->. unfold LRU.hasKey in E. rewrite String.eqb_refl in E. discriminate.
Qed.

Lemma keys_without {V} k (l : list (LRU.Item V)) :
  List.map LRU.key (LRU.without k l) = List.filter (fun k' => negb (String.eqb k' k)) (List.map LRU.key l).
Proof.
  unfold LRU.without, LRU.hasKey. induction l as [| it l IH]; cbn; [reflexivity |].
  destruct (String.eqb (LRU.key it) k); cbn; [exact IH | f_equal; exact IH].
Qed.

Lemma elem_of_keys_without {V} k k' (l : list (LRU.Item V)) :
  k' ∈ List.map LRU.key (LRU.without k l) <-> k' ∈ List.map LRU.key l /\ k' <> k.
Proof.
  rewrite keys_without, !list_elem_of_In, filter_In, negb_true_iff, String.eqb_neq.
  reflexivity.
Qed.

Lemma NoDup_keys_without {V} k (l : list (LRU.Item V)) :
  NoDup (List.map LRU.key l) -> NoDup (List.map LRU.key (LRU.without k l)).
Proof.
  rewrite keys_without. rewrite !NoDup_ListNoDup. apply List.NoDup_filter.
Qed.

Lemma length_without_le {V} k (l : list (LRU.Item V)) :
  (List.length (LRU.without k l) <= List.length l)%nat.
Proof. apply List.filter_length_le. Qed.

(** Removing a stored key from a store without repeated keys removes one
    item. *)
Lemma length_without_stored {V} k (l : list (LRU.Item V)) :
  NoDup (List.map LRU.key l) -> k ∈ List.map LRU.key l ->
  S (List.length (LRU.without k l)) = List.length l.
Proof.
  unfold LRU.without, LRU.hasKey.
  induction l as [| it l IH]; cbn; intros Hnd Hin; [inversion Hin |].
  apply NoDup_cons in Hnd. destruct Hnd as [Hnot Hnd].
  destruct (String.eqb (LRU.key it) k) eqn:E; cbn.
  - apply String.eqb_eq in E. subst k. f_equal.
    clear IH Hin Hnd. induction l as [| it' l IH]; cbn; [reflexivity |].
    apply not_elem_of_cons in Hnot. destruct Hnot as [Hne Hnot].
    destruct (String.eqb (LRU.key it') (LRU.key it)) eqn:E'.
    + apply String.eqb_eq in E'. congruence.
    + cbn. f_equal. apply IH, Hnot.
  - f_equal. apply IH; [exact Hnd |].
    apply elem_of_cons in Hin. destruct Hin as [-> | Hin]; [| exact Hin].
    rewrite String.eqb_refl in E. discriminate.
Qed.

Lemma keys_app {V} (l l' : list (LRU.Item V)) :
  List.map LRU.key (l ++ l') = List.map LRU.key l ++ List.map LRU.key l'.
Proof. apply List.map_app. Qed.

(** Moving or storing an item under [k] at the recent end. *)
Lemma wellKept_move {V} (o : LRU.Options) k (l : list (LRU.Item V)) it :
  LRU.key it = k ->
  NoDup (List.map LRU.key l) -> k ∈ List.map LRU.key l ->
  Inv.bounded (LRU.mkLRU o l) ->
  Inv.wellKept (LRU.mkLRU o (LRU.without k l ++ [it])).
Proof.
  intros Hk Hnd Hin Hb. split.
  - unfold Inv.keys. cbn [LRU.items]. rewrite keys_app. apply NoDup_app.
    split; [apply NoDup_keys_without, Hnd | split].
    + intros k' Hk' Hin'. cbn in Hin'. apply list_elem_of_singleton in Hin'.
      apply elem_of_keys_without in Hk'. destruct Hk' as [_ Hne]. congruence.
    + cbn. apply NoDup_singleton.
  - intros Hmax. specialize (Hb Hmax). cbn [LRU.items LRU.options] in *.
    rewrite length_app. cbn [List.length].
    pose proof (length_without_stored k l Hnd Hin). lia.
Qed.

Lemma wellKept_delete {V} k (c : LRU.t V) : Inv.wellKept c -> Inv.wellKept (LRU.delete k c).
Proof.
  intros [Hnd Hb]. split.
  - apply NoDup_keys_without, Hnd.
  - intros Hmax. specialize (Hb Hmax). cbn [LRU.delete LRU.items LRU.options] in *.
    pose proof (length_without_le k (LRU.items c)). lia.
Qed.

Lemma wellKept_LRU_get {V} now k (c : LRU.t V) :
  Inv.wellKept c -> Inv.wellKept (LRU.get now k c).2.
Proof.
  intros Hwk. unfold LRU.get.
  destruct (LRU.find k c) as [it |] eqn:Hf; [| exact Hwk].
  destruct (LRU.isStale now it); cbn [snd]; [apply wellKept_delete, Hwk |].
  destruct Hwk as [Hnd Hb]. apply find_Some_key in Hf. destruct Hf as [Hk Hin].
  apply wellKept_move.
  - destruct (LRU.updateAgeOnGet _); exact Hk.
  - exact Hnd.
  - rewrite <- Hk. apply list_elem_of_In, in_map, Hin.
  - destruct c. exact Hb.
Qed.

Lemma wellKept_LRU_set {V} now k (v : V) (c : LRU.t V) :
  Inv.wellKept c -> Inv.wellKept (LRU.set now k v c).
Proof.
  intros [Hnd Hb]. unfold LRU.set.
  destruct (LRU.find k c) as [it |] eqn:Hf.
  - apply find_Some_key in Hf. destruct Hf as [Hk Hin]. apply wellKept_move.
    + reflexivity.
    + exact Hnd.
    + rewrite <- Hk. apply list_elem_of_In, in_map, Hin.
    + destruct c. exact Hb.
  - apply find_None_keys in Hf. unfold Inv.keys in Hf, Hnd. unfold LRU.evict.
    split.
    + unfold Inv.keys. cbn [LRU.items]. rewrite keys_app. apply NoDup_app.
      assert (forall l : list (LRU.Item V),
                 NoDup (List.map LRU.key l) -> k ∉ List.map LRU.key l ->
                 NoDup (List.map LRU.key (List.tl l)) /\ k ∉ List.map LRU.key (List.tl l)) as Htl.
      { intros [| x l] H1 H2; cbn; [split; assumption |].
        cbn in H1, H2. apply NoDup_cons in H1. apply not_elem_of_cons in H2. tauto. }
      destruct (_ && _).
      * destruct (Htl _ Hnd Hf) as [H1 H2]. split; [exact H1 | split].
        -- intros k' Hk' Hin'. cbn in Hin'. apply list_elem_of_singleton in Hin'. congruence.
        -- cbn. apply NoDup_singleton.
      * split; [exact Hnd | split].
        -- intros k' Hk' Hin'. cbn in Hin'. apply list_elem_of_singleton in Hin'. congruence.
        -- cbn. apply NoDup_singleton.
    + intros Hmax. cbn [LRU.options LRU.items] in *. specialize (Hb Hmax).
      rewrite length_app. cbn [List.length].
      case_bool_decide as Hfull; cbn [andb].
      * replace (negb (Nat.eqb _ 0)) with true
          by (symmetry; apply negb_true_iff, Nat.eqb_neq; exact Hmax).
        destruct (LRU.items c) as [| x l]; cbn in *; lia.
      * lia.
Qed.

(** X1. The operations of the cache keep its store within capacity and
    without repeated keys. *)
Theorem cache_stays_within_capacity now k (v : T) ttl (m : CacheManager.t T) :
  Inv.wellKept (CacheManager.cache m) ->
  Inv.wellKept (CacheManager.cache (CacheManager.set now k v ttl m))
  /\ Inv.wellKept (CacheManager.cache (CacheManager.get now k m).2)
  /\ Inv.wellKept (CacheManager.cache (CacheManager.has now k m).2)
  /\ Inv.wellKept (CacheManager.cache (CacheManager.delete k m))
  /\ Inv.wellKept (CacheManager.cache (CacheManager.clear m)).
Proof.
  intros Hwk.
  assert (Inv.wellKept (CacheManager.cache (CacheManager.get now k m).2)) as Hget.
  { unfold CacheManager.get. pose proof (wellKept_LRU_get now k _ Hwk) as H.
    destruct (LRU.get now k (CacheManager.cache m)) as [[entry |] c]; cbn [snd] in *;
      [| exact H].
    destruct (_ <? now); cbn [snd CacheManager.cache]; [apply wellKept_delete |]; exact H. }
  split; [apply wellKept_LRU_set, Hwk | split; [exact Hget | split; [| split]]].
  - unfold CacheManager.has. unfold CacheManager.get in Hget.
    destruct (LRU.get now k (CacheManager.cache m)) as [[entry |] c]; cbn [snd] in *;
      [| exact Hget].
    destruct (_ <? now); exact Hget.
  - apply wellKept_delete, Hwk.
  - split; [apply NoDup_nil; exact I | intros _; cbn; lia].
Qed.

End StoreFacts.

(** Witness: a fresh cache. *)
Lemma cache_stays_within_capacity_witness :
  Inv.wellKept
    (CacheManager.cache
       (CacheManager.set 0 "a" 1%nat None (CacheManager.new (Some 2%nat) None))).
Proof.
  apply (cache_stays_within_capacity 0 "a" 1%nat None (CacheManager.new (Some 2%nat) None)).
  split; [apply NoDup_nil; exact I | intros _; cbn; lia].
Defined.

Section CacheUse.
Context {T : Type}.

Lemma stored_true k (m : CacheManager.t T) :
  CacheManager.stored k m = true <-> k ∈ Inv.keys (CacheManager.cache m).
Proof.
  unfold CacheManager.stored. rewrite bool_decide_eq_true.
  destruct (LRU.find k (CacheManager.cache m)) as [it |] eqn:Hf.
  - split; [intros _ | eauto]. apply find_Some_key in Hf. destruct Hf as [<- Hin].
    apply list_elem_of_In, in_map, Hin.
  - apply find_None_keys in Hf. split; [intros [? ?]; discriminate | contradiction].
Qed.

Lemma stored_false k (m : CacheManager.t T) :
  CacheManager.stored k m = false <-> k ∉ Inv.keys (CacheManager.cache m).
Proof. rewrite <- stored_true. destruct (CacheManager.stored k m); split; congruence. Qed.

(** What [get] returns, from what the store returns. *)
Lemma get_value now k (m : CacheManager.t T) :
  (CacheManager.get now k m).1
  = match (LRU.get now k (CacheManager.cache m)).1 with
    | Some entry => if expiresAt entry <? now then None else Some (value entry)
    | None => None
    end.
Proof.
  unfold CacheManager.get.
  destruct (LRU.get now k (CacheManager.cache m)) as [[entry |] c]; cbn [fst];
    [| reflexivity].
  destruct (_ <? now); reflexivity.
Qed.

(** After a [get] the key is stored exactly when the [get] returned a
    value. *)
Lemma stored_after_get now k (m : CacheManager.t T) :
  CacheManager.stored k (CacheManager.get now k m).2
  = bool_decide (is_Some (CacheManager.get now k m).1).
Proof.
  unfold CacheManager.get, CacheManager.stored, LRU.get.
  destruct (LRU.find k (CacheManager.cache m)) as [it |] eqn:Hf.
  - destruct (LRU.isStale now it); cbn [fst snd CacheManager.cache].
    + rewrite LRU_find_delete. reflexivity.
    + destruct (_ <? now); cbn [fst snd CacheManager.cache].
      * rewrite LRU_find_delete. reflexivity.
      * unfold LRU.find. cbn [LRU.items].
        rewrite find_app_miss by apply find_without. cbn [List.find].
        apply find_Some_key in Hf. destruct Hf as [Hk _].
        match goal with |- context [LRU.hasKey k ?x] =>
          replace (LRU.hasKey k x) with true
            by (symmetry; apply hasKey_true; destruct (LRU.updateAgeOnGet _); exact Hk)
        end.
        reflexivity.
  - cbn [fst snd CacheManager.cache]. rewrite Hf. reflexivity.
Qed.

(** X2. After a [get], the key is stored exactly when the [get] returned a
    value: an entry that [get] finds expired is removed, and an entry that
    is returned stays. *)
Theorem key_stored_iff_get_hit now k (m : CacheManager.t T) :
  CacheManager.stored k (CacheManager.get now k m).2
  = bool_decide (is_Some (CacheManager.get now k m).1).
Proof. apply stored_after_get. Qed.

(** X3. [has] answers whether [get] would return a value, and leaves the
    cache as [get] does: it removes an expired entry and makes a live one
    the most recently used. *)
Theorem has_agrees_with_get now k (m : CacheManager.t T) :
  CacheManager.has now k m
  = (bool_decide (is_Some (CacheManager.get now k m).1), (CacheManager.get now k m).2).
Proof.
  unfold CacheManager.has, CacheManager.get.
  destruct (LRU.get now k (CacheManager.cache m)) as [[entry |] c]; cbn [fst snd].
  - destruct (_ <? now); reflexivity.
  - reflexivity.
Qed.

Lemma LRU_get_delete_ne {V} now k k' (c : LRU.t V) :
  k <> k' -> (LRU.get now k' (LRU.delete k c)).1 = (LRU.get now k' c).1.
Proof.
  intros Hne. unfold LRU.get, LRU.find, LRU.delete. cbn [LRU.items].
  rewrite find_without_ne by exact Hne.
  destruct (List.find (LRU.hasKey k') (LRU.items c)) as [it |]; [| reflexivity].
  destruct (LRU.isStale now it); reflexivity.
Qed.

(** X4. After [delete(key)] a [get] of the key finds nothing and a [get] of
    any other key returns what it returned before; after [clear()] every
    [get] finds nothing. *)
Theorem delete_removes_only_its_key now k k' (m : CacheManager.t T) :
  k <> k' ->
  (CacheManager.get now k (CacheManager.delete k m)).1 = None
  /\ (CacheManager.get now k' (CacheManager.delete k m)).1 = (CacheManager.get now k' m).1
  /\ (CacheManager.get now k' (CacheManager.clear m)).1 = None.
Proof.
  intros Hne. split; [| split].
  - rewrite get_value. unfold LRU.get. cbn [CacheManager.delete CacheManager.cache].
    rewrite LRU_find_delete. reflexivity.
  - rewrite !get_value. cbn [CacheManager.delete CacheManager.cache].
    rewrite LRU_get_delete_ne by exact Hne. reflexivity.
  - reflexivity.
Qed.

(** X5. Storing a new key in a full cache evicts the least recently used
    key and no other: the oldest key is gone, the new key is stored, every
    other key stays, and the cache is full again. *)
Theorem full_cache_evicts_least_recently_used now k (v : T) ttl (m : CacheManager.t T)
    oldest rest :
  Inv.wellKept (CacheManager.cache m) ->
  Inv.full (CacheManager.cache m) ->
  LRU.items (CacheManager.cache m) = oldest :: rest ->
  CacheManager.stored k m = false ->
  let m' := CacheManager.set now k v ttl m in
  CacheManager.stored (LRU.key oldest) m' = false
  /\ CacheManager.stored k m' = true
  /\ (forall k', k' <> LRU.key oldest ->
               CacheManager.stored k' m = true -> CacheManager.stored k' m' = true)
  /\ Inv.full (CacheManager.cache m').
Proof.
  intros [Hnd _] [Hmax Hfull] Hitems Hnew. cbn zeta.
  assert (LRU.items (CacheManager.cache (CacheManager.set now k v ttl m))
          = rest ++ [LRU.mkItem k (mkCacheEntry v (now + JS.nullish ttl (CacheManager.defaultTTL m)))
                       (if LRU.ttl (LRU.options (CacheManager.cache m)) =? 0 then 0 else now)
                       (LRU.ttl (LRU.options (CacheManager.cache m)))]) as Hset.
  { unfold CacheManager.set, LRU.set, LRU.evict. cbn [CacheManager.cache].
    apply stored_false, find_None_keys in Hnew. rewrite Hnew.
    rewrite bool_decide_eq_true_2 by exact Hfull.
    replace (negb (Nat.eqb _ 0)) with true
      by (symmetry; apply negb_true_iff, Nat.eqb_neq; exact Hmax).
    cbn [andb LRU.items]. rewrite Hitems. reflexivity. }
  assert (LRU.options (CacheManager.cache (CacheManager.set now k v ttl m))
          = LRU.options (CacheManager.cache m)) as Hopt by apply LRU_set_options.
  unfold Inv.keys in Hnd. rewrite Hitems in Hnd. cbn in Hnd.
  apply NoDup_cons in Hnd. destruct Hnd as [Hold Hnd].
  assert (LRU.key oldest <> k) as Hne.
  { intros Heq. apply stored_false in Hnew. apply Hnew. unfold Inv.keys.
    rewrite Hitems, <- Heq. left. }
  split; [| split; [| split]].
  - apply stored_false. unfold Inv.keys. rewrite Hset, keys_app, elem_of_app.
    cbn. rewrite list_elem_of_singleton. tauto.
  - apply stored_true. unfold Inv.keys. rewrite Hset, keys_app, elem_of_app.
    right. cbn. left.
  - intros k' Hk' Hin. apply stored_true in Hin. apply stored_true.
    unfold Inv.keys in *. rewrite Hset, keys_app, elem_of_app. left.
    rewrite Hitems in Hin. cbn in Hin. apply elem_of_cons in Hin. tauto.
  - split; rewrite Hopt; [exact Hmax |].
    rewrite Hset, length_app, <- Hfull, Hitems. cbn. lia.
Qed.

(** X6. A [get] that returns a value makes its key the most recently used:
    the next new key stored in the full cache (of capacity two or more)
    does not evict it. *)
Theorem get_refreshes_recency now now' k k2 (v v2 : T) ttl (m : CacheManager.t T) :
  Inv.wellKept (CacheManager.cache m) ->
  Inv.full (CacheManager.cache m) ->
  (2 <= LRU.max (LRU.options (CacheManager.cache m)))%nat ->
  (CacheManager.get now k m).1 = Some v ->
  CacheManager.stored k2 m = false ->
  CacheManager.stored k (CacheManager.set now' k2 v2 ttl (CacheManager.get now k m).2) = true.
Proof.
  intros [Hnd _] [Hmax Hfull] Hcap Hhit Hnew.
  unfold CacheManager.get in *. unfold LRU.get in *.
  destruct (LRU.find k (CacheManager.cache m)) as [it |] eqn:Hf; [| discriminate].
  destruct (LRU.isStale now it); [discriminate |].
  cbn [fst snd] in *. destruct (_ <? now); [discriminate |].
  cbn [fst snd]. clear Hhit.
  apply find_Some_key in Hf. destruct Hf as [Hk Hin].
  assert (k ∈ List.map LRU.key (LRU.items (CacheManager.cache m))) as Hkin
    by (rewrite <- Hk; apply list_elem_of_In, in_map, Hin).
  pose proof (length_without_stored k _ Hnd Hkin) as Hlen.
  apply stored_false in Hnew. unfold Inv.keys in Hnew.
  assert (k2 <> k) as Hne by (intros ->; contradiction).
  apply stored_true. unfold Inv.keys, CacheManager.set, LRU.set, LRU.evict.
  cbn [CacheManager.cache LRU.options LRU.items].
  match goal with |- context [LRU.find k2 ?c] =>
    assert (LRU.find k2 c = None) as Hf2
  end.
  { apply find_None_keys. unfold Inv.keys. cbn [LRU.items].
    rewrite keys_app, elem_of_app, elem_of_keys_without. cbn.
    rewrite list_elem_of_singleton.
    intros [[H _] | H]; [contradiction |].
    destruct (LRU.updateAgeOnGet _); cbn in H; congruence. }
  rewrite Hf2. cbn [LRU.items LRU.options].
  rewrite length_app. cbn [List.length].
  rewrite bool_decide_eq_true_2 by lia.
  replace (negb (Nat.eqb _ 0)) with true
    by (symmetry; apply negb_true_iff, Nat.eqb_neq; exact Hmax).
  cbn [andb].
  destruct (LRU.without k (LRU.items (CacheManager.cache m))) as [| x l]; [cbn in Hlen; lia |].
  cbn [app List.tl]. rewrite !keys_app, !elem_of_app. left. right. cbn.
  apply list_elem_of_singleton. destruct (LRU.updateAgeOnGet _); cbn; congruence.
Qed.

Lemma getOrSet_miss {W : Type} t_get t_set k (factory : W -> option T * W) ttl
    (m m1 : CacheManager.t T) (w w1 : W) v :
  CacheManager.get t_get k m = (None, m1) ->
  factory w = (Some v, w1) ->
  CacheOps.getOrSet t_get t_set k factory ttl m w
  = (Some v, CacheManager.set t_set k v ttl m1, w1).
Proof. intros Hget Hfac. unfold CacheOps.getOrSet. rewrite Hget, Hfac. reflexivity. Qed.

(** X7. [getOrSet] memoizes: after a miss whose factory resolves to a value,
    a second [getOrSet] of the key before the TTL (at most the TTL of the
    cache) has elapsed returns that value and does not run its factory. *)
Theorem getOrSet_memoizes {W : Type} t_get t_set t_get' t_set' k
    (factory factory' : W -> option T * W) (t : Z) (m : CacheManager.t T) (w w1 w' : W) v :
  (CacheManager.get t_get k m).1 = None ->
  factory w = (Some v, w1) ->
  t <= LRU.ttl (LRU.options (CacheManager.cache m)) ->
  t_get' - t_set <= t ->
  let r1 := CacheOps.getOrSet t_get t_set k factory (Some t) m w in
  let r2 := CacheOps.getOrSet t_get' t_set' k factory' (Some t) r1.1.2 w' in
  r1 = (Some v, CacheManager.set t_set k v (Some t) (CacheManager.get t_get k m).2, w1)
  /\ r2.1.1 = Some v /\ r2.2 = w'.
Proof.
  intros Hmiss Hfac Ht Hnow. cbn zeta.
  pose proof (CacheManager_get_options t_get k m) as Hopt.
  destruct (CacheManager.get t_get k m) as [r m1] eqn:Hget.
  cbn [fst snd] in Hmiss, Hopt. subst r.
  rewrite (getOrSet_miss _ _ _ _ _ _ _ _ _ _ Hget Hfac). cbn [fst snd].
  split; [reflexivity |].
  unfold CacheOps.getOrSet.
  pose proof (get_before_expiry t_set t_get' k v t m1 ltac:(rewrite Hopt; exact Ht) Hnow) as Hhit.
  destruct (CacheManager.get t_get' k _) as [r m2]. cbn [fst] in Hhit. subst r.
  split; reflexivity.
Qed.

(** X8. A factory that rejects makes [getOrSet] reject and stores nothing
    under the key. *)
Theorem getOrSet_rejection_stores_nothing {W : Type} t_get t_set k
    (factory : W -> option T * W) ttl (m : CacheManager.t T) (w w1 : W) :
  (CacheManager.get t_get k m).1 = None ->
  factory w = (None, w1) ->
  let r := CacheOps.getOrSet t_get t_set k factory ttl m w in
  r.1.1 = None /\ r.2 = w1 /\ CacheManager.stored k r.1.2 = false.
Proof.
  intros Hmiss Hfac. cbn zeta.
  pose proof (stored_after_get t_get k m) as Hst.
  unfold CacheOps.getOrSet.
  destruct (CacheManager.get t_get k m) as [r m1]. cbn [fst snd] in Hmiss, Hst. subst r.
  rewrite Hfac. cbn [fst snd]. split; [reflexivity | split; [reflexivity |]].
  rewrite Hst. apply bool_decide_eq_false. intros [? ?]. discriminate.
Qed.

(** X9. The last write wins: the value of a second [set] of a key is the one
    that a [get] returns, as long as its TTL (at most the TTL of the cache)
    has not elapsed. *)
Theorem last_write_wins now0 now1 now2 k (v1 v2 : T) ttl1 (t : Z) (m : CacheManager.t T) :
  t <= LRU.ttl (LRU.options (CacheManager.cache m)) ->
  now2 - now1 <= t ->
  (CacheManager.get now2 k
     (CacheManager.set now1 k v2 (Some t) (CacheManager.set now0 k v1 ttl1 m))).1 = Some v2.
Proof.
  intros Ht Hnow. rewrite get_after_set. cbn [JS.nullish].
  cbn [CacheManager.set CacheManager.cache]. rewrite LRU_set_options.
  replace (_ <? now2 - now1) with false by (symmetry; apply Z.ltb_ge; lia).
  rewrite andb_false_r.
  replace (now1 + t <? now2) with false by (symmetry; apply Z.ltb_ge; lia).
  reflexivity.
Qed.

End CacheUse.

Ltac by_computation := vm_compute; apply (bool_decide_unpack _); vm_compute; exact I.

(** Witness: deleting one of two keys. *)
Lemma delete_removes_only_its_key_witness :
  let m := CacheManager.set 0 "b" 2%nat None
             (CacheManager.set 0 "a" 1%nat None (CacheManager.new None None)) in
  (CacheManager.get 1 "a" (CacheManager.delete "a" m)).1 = None
  /\ (CacheManager.get 1 "b" (CacheManager.delete "a" m)).1 = Some 2%nat.
Proof.
  intros m.
  destruct (delete_removes_only_its_key 1 "a" "b" m) as (H1 & H2 & _); [discriminate |].
  split; [exact H1 | rewrite H2; reflexivity].
Defined.

(** Witness: a full cache of capacity two holding [a] then [b]; storing
    [c] evicts [a], the least recently used key, and keeps [b]. *)
Lemma full_cache_evicts_least_recently_used_witness :
  let m := CacheManager.set 0 "b" 2%nat None
             (CacheManager.set 0 "a" 1%nat None (CacheManager.new (Some 2%nat) None)) in
  let m' := CacheManager.set 1 "c" 3%nat None m in
  CacheManager.stored "a" m' = false
  /\ CacheManager.stored "c" m' = true
  /\ CacheManager.stored "b" m' = true.
Proof.
  intros m m'.
  pose proof (full_cache_evicts_least_recently_used 1 "c" 3%nat None m
                (LRU.mkItem "a" (mkCacheEntry 1%nat 300000) 0 300000)
                [LRU.mkItem "b" (mkCacheEntry 2%nat 300000) 0 300000]
                ltac:(split; [by_computation | intros _; vm_compute; lia])
                ltac:(split; [discriminate | reflexivity])
                eq_refl eq_refl) as H.
  cbn zeta in H. destruct H as (Ha & Hc & Hothers & _).
  split; [exact Ha | split; [exact Hc |]].
  apply Hothers; [discriminate | reflexivity].
Defined.

(** Witness: in a cache of capacity two holding [a] then [b], reading [a]
    saves it from the eviction that storing [c] causes. *)
Lemma get_refreshes_recency_witness :
  let m := CacheManager.set 0 "b" 2%nat None
             (CacheManager.set 0 "a" 1%nat None (CacheManager.new (Some 2%nat) None)) in
  CacheManager.stored "a" (CacheManager.set 2 "c" 3%nat None (CacheManager.get 1 "a" m).2) = true
  /\ CacheManager.stored "a" (CacheManager.set 2 "c" 3%nat None m) = false.
Proof.
  intros m. split; [| reflexivity].
  apply (get_refreshes_recency 1 2 "a" "c" 1%nat 3%nat None m).
  - split; [by_computation | intros _; vm_compute; lia].
  - split; [discriminate | reflexivity].
  - vm_compute. lia.
  - reflexivity.
  - reflexivity.
Defined.

(** Witness: a factory that counts its runs. *)
Lemma getOrSet_memoizes_witness :
  let factory : nat -> option nat * nat := fun runs => (Some 7%nat, S runs) in
  let m : CacheManager.t nat := CacheManager.new None None in
  let r1 := CacheOps.getOrSet 0 5 "k" factory (Some 1000) m 0%nat in
  let r2 := CacheOps.getOrSet 900 905 "k" factory (Some 1000) r1.1.2 1%nat in
  r2.1.1 = Some 7%nat /\ r2.2 = 1%nat.
Proof.
  intros factory m.
  pose proof (getOrSet_memoizes 0 5 900 905 "k" factory factory 1000 m 0%nat 1%nat 1%nat 7%nat
                eq_refl eq_refl ltac:(vm_compute; discriminate) ltac:(lia)) as H.
  cbn zeta in H. exact (proj2 H).
Defined.

(** Witness: a factory that rejects. *)
Lemma getOrSet_rejection_stores_nothing_witness :
  let factory : nat -> option nat * nat := fun runs => (None, S runs) in
  let r := CacheOps.getOrSet 0 5 "k" factory None (CacheManager.new None None) 0%nat in
  r.1.1 = None /\ r.2 = 1%nat /\ CacheManager.stored "k" r.1.2 = false.
Proof.
  intros factory.
  apply (getOrSet_rejection_stores_nothing 0 5 "k" factory None (CacheManager.new None None)
           0%nat 1%nat); reflexivity.
Defined.

(** Witness: two writes and a read within the default TTL. *)
Lemma last_write_wins_witness :
  (CacheManager.get 20 "k"
     (CacheManager.set 10 "k" 2%nat (Some 100)
        (CacheManager.set 0 "k" 1%nat None (CacheManager.new None None)))).1 = Some 2%nat.
Proof.
  apply (last_write_wins 0 10 20 "k" 1%nat 2%nat None 100 (CacheManager.new None None));
    vm_compute; discriminate.
Defined.

(** ** The discovery sources *)

Section DiscoveryFacts.
Import Discovery.

Local Abbreviation hostnames := (List.map sub_hostname).

Lemma elem_of_setAdd x y s : x ∈ JS.setAdd y s <-> x ∈ s \/ x = y.
Proof.
  unfold JS.setAdd. case_bool_decide as H.
  - split; [tauto |]. intros [Hx | ->]; assumption.
  - rewrite elem_of_app, list_elem_of_singleton. reflexivity.
Qed.

(** What the reporting loop does to the results and to the set of seen
    hostnames. *)
Lemma report_loop tag clock subdomains :
  forall results seen,
    exists fresh,
      (fold_left (report tag clock) subdomains (results, seen)).1 = results ++ fresh
      /\ Forall (fun s => sub_hostname s ∈ subdomains /\ (sub_hostname s ∉ seen)
                          /\ source s = tag /\ resolvedIPs s = []) fresh
      /\ NoDup (hostnames fresh)
      /\ (forall h, h ∈ snd (fold_left (report tag clock) subdomains (results, seen))
                    <-> h ∈ seen \/ h ∈ subdomains).
Proof.
  induction subdomains as [| sub subs IH]; intros results seen.
  - exists []. cbn. rewrite app_nil_r.
    split; [reflexivity | split; [constructor | split; [constructor |]]].
    intros h. rewrite elem_of_nil. tauto.
  - cbn [fold_left]. unfold report at 2 4. case_bool_decide as Hseen.
    + destruct (IH results seen) as (fresh & H1 & H2 & H3 & H4).
      exists fresh. split; [exact H1 | split; [| split; [exact H3 |]]].
      * eapply Forall_impl; [exact H2 |]. cbn. intros s (Ha & Hb & Hc).
        split; [right; exact Ha | tauto].
      * intros h. rewrite H4, elem_of_cons. split; [tauto |].
        intros [H | [-> | H]]; tauto.
    + destruct (IH (results ++ [mkSubdomain sub tag [] (clock (List.length results))])
                  (JS.setAdd sub seen)) as (fresh & H1 & H2 & H3 & H4).
      exists (mkSubdomain sub tag [] (clock (List.length results)) :: fresh).
      split; [rewrite H1, <- app_assoc; reflexivity | split; [| split]].
      * constructor; [cbn; split; [left | tauto] |].
        eapply Forall_impl; [exact H2 |]. cbn. intros s (Ha & Hb & Hc).
        rewrite elem_of_setAdd in Hb. split; [right; exact Ha | tauto].
      * cbn. apply NoDup_cons. split; [| exact H3].
        intros Hin. apply list_elem_of_In, in_map_iff in Hin.
        destruct Hin as (s & Hs & Hin). rewrite Forall_forall in H2.
        apply list_elem_of_In, H2 in Hin. destruct Hin as (_ & Hb & _).
        apply Hb, elem_of_setAdd. right. exact Hs.
      * intros h. rewrite H4, elem_of_setAdd, elem_of_cons. tauto.
Qed.

Lemma lowerChar_idem c : JS.lowerChar (JS.lowerChar c) = JS.lowerChar c.
Proof. destruct c as [[|] [|] [|] [|] [|] [|] [|] [|]]; reflexivity. Qed.

Lemma toLowerCase_idem s : JS.toLowerCase (JS.toLowerCase s) = JS.toLowerCase s.
Proof.
  induction s as [| c s IH]; [reflexivity |].
  cbn [JS.toLowerCase]. rewrite lowerChar_idem, IH. reflexivity.
Qed.

Lemma addName_clean domain subdomains name :
  Forall (cleanName domain) subdomains ->
  Forall (cleanName domain) (addName domain subdomains name).
Proof.
  intros H. unfold addName.
  destruct (JS.endsWith _ domain) eqn:Hend; [| exact H].
  destruct (JS.includes _ "*") eqn:Hstar; [exact H |]. cbn [negb andb].
  apply Forall_forall. intros x Hx. apply elem_of_setAdd in Hx.
  destruct Hx as [Hx | ->]; [rewrite Forall_forall in H; apply H, Hx |].
  split; [exact Hend | split; [exact Hstar | apply toLowerCase_idem]].
Qed.

Lemma collect_clean domain data : Forall (cleanName domain) (collect domain data).
Proof.
  destruct data as [entries |]; [| constructor]. cbn [collect].
  assert (forall subs, Forall (cleanName domain) subs ->
                       Forall (cleanName domain) (fold_left (addEntry domain) entries subs)) as H.
  { induction entries as [| entry entries IH]; intros subs Hs; [exact Hs |].
    cbn [fold_left]. apply IH. destruct entry as [nv |]; [| exact Hs]. cbn [addEntry].
    revert subs Hs. induction (JSText.lines nv) as [| name names IHn]; intros subs Hs;
      [exact Hs |].
    cbn [fold_left]. apply IHn, addName_clean, Hs. }
  apply H. constructor.
Qed.


(** X10. Every host that the crt.sh source reports has a name in lower case
    that ends with the target domain and holds no wildcard, carries the
    source tag of crt.sh and no address, and was not seen before; whatever
    the answer of crt.sh, the source returns normally. *)
Theorem crtsh_names_are_normalized response clock e :
  Forall (fun s =>
            cleanName (SubdomainEnumerator.domain e) (sub_hostname s)
            /\ source s = crt_sh /\ resolvedIPs s = []
            /\ sub_hostname s ∉ SubdomainEnumerator.seenSubdomains e)
    (enumerateFromCrtSh response clock e).1.
Proof.
  unfold enumerateFromCrtSh.
  destruct response as [| [|] [data |]]; try constructor.
  pose proof (collect_clean (SubdomainEnumerator.domain e) data) as Hclean.
  destruct (report_loop crt_sh clock (collect (SubdomainEnumerator.domain e) data) []
              (SubdomainEnumerator.seenSubdomains e)) as (fresh & H1 & H2 & _).
  destruct (fold_left _ _ _) as [results seen]. cbn [fst app] in *. subst results.
  eapply Forall_impl; [exact H2 |]. cbn. intros s (Ha & Hb & Hc & Hd).
  rewrite Forall_forall in Hclean. split; [apply Hclean, Ha | tauto].
Qed.

(** X11. Every host that the wordlist source reports is named by a word of
    the list, a dot and the target domain, where the word is a line of the
    file after trimming that is neither empty nor a comment; it carries
    the source tag of the wordlist. A wordlist that cannot be read gives no
    host and leaves the enumerator as it was. *)
Theorem wordlist_names_are_words_under_domain file clock e :
  Forall (fun s =>
            exists line,
              line ∈ JSText.lines (default "" file)
              /\ sub_hostname s = JSText.trim line +:+ "." +:+ SubdomainEnumerator.domain e
              /\ JSText.trim line <> ""
              /\ JS.startsWith (JSText.trim line) "#" = false
              /\ source s = wordlist)
    (enumerateFromWordlist file clock e).1
  /\ enumerateFromWordlist None clock e = ([], e).
Proof.
  split; [| reflexivity].
  unfold enumerateFromWordlist. destruct file as [content |]; [| constructor].
  cbn [default].
  match goal with |- context [fold_left (report wordlist clock) ?subs (?r, ?seen)] =>
    destruct (report_loop wordlist clock subs r seen) as (fresh & H1 & H2 & _)
  end.
  destruct (fold_left _ _ _) as [results seen]. cbn [fst app] in *. subst results.
  eapply Forall_impl; [exact H2 |]. cbn. intros s (Ha & _ & Hc & _).
  apply list_elem_of_In, in_map_iff in Ha. destruct Ha as (word & Hw & Hin).
  unfold wordsOf in Hin. apply filter_In in Hin. destruct Hin as [Hin Hkeep].
  apply in_map_iff in Hin. destruct Hin as (line & <- & Hline).
  apply andb_true_iff in Hkeep. destruct Hkeep as [Htruthy Hhash].
  exists line. split; [apply list_elem_of_In, Hline |].
  split; [symmetry; exact Hw | split; [| split; [| exact Hc]]].
  - unfold JS.truthy in Htruthy. apply negb_true_iff, String.eqb_neq in Htruthy. exact Htruthy.
  - apply negb_true_iff in Hhash. exact Hhash.
Qed.

Lemma seen_after_crtsh response clock e h :
  h ∈ SubdomainEnumerator.seenSubdomains e ->
  h ∈ SubdomainEnumerator.seenSubdomains (enumerateFromCrtSh response clock e).2.
Proof.
  intros Hh. unfold enumerateFromCrtSh.
  destruct response as [| [|] [data |]]; try exact Hh.
  destruct (report_loop crt_sh clock (collect (SubdomainEnumerator.domain e) data) []
              (SubdomainEnumerator.seenSubdomains e)) as (fresh & _ & _ & _ & H4).
  destruct (fold_left _ _ _) as [results seen]. cbn [snd] in *. apply H4. left. exact Hh.
Qed.


Lemma crtsh_reportsFresh response clock e :
  reportsFresh e (enumerateFromCrtSh response clock e).
Proof.
  unfold reportsFresh, enumerateFromCrtSh.
  destruct response as [| [|] [data |]];
    try (cbn; split; [constructor | split; [| split]]; intros h Hh; solve [inversion Hh | exact Hh]).
  destruct (report_loop crt_sh clock (collect (SubdomainEnumerator.domain e) data) []
              (SubdomainEnumerator.seenSubdomains e)) as (fresh & H1 & H2 & H3 & H4).
  destruct (fold_left _ _ _) as [results seen]. cbn [fst snd app] in *. subst results.
  cbn [withSeen SubdomainEnumerator.seenSubdomains].
  rewrite Forall_forall in H2.
  split; [exact H3 | split; [| split]]; intros h Hh.
  - apply list_elem_of_In, in_map_iff in Hh. destruct Hh as (s & <- & Hs).
    apply list_elem_of_In, H2 in Hs. tauto.
  - apply list_elem_of_In, in_map_iff in Hh. destruct Hh as (s & <- & Hs).
    apply list_elem_of_In, H2 in Hs. apply H4. tauto.
  - apply H4. tauto.
Qed.

Lemma wordlist_reportsFresh file clock e :
  reportsFresh e (enumerateFromWordlist file clock e).
Proof.
  unfold reportsFresh, enumerateFromWordlist.
  destruct file as [content |];
    [| cbn; split; [constructor | split; [| split]]; intros h Hh;
       solve [inversion Hh | exact Hh]].
  match goal with |- context [fold_left (report wordlist clock) ?subs (?r, ?seen)] =>
    destruct (report_loop wordlist clock subs r seen) as (fresh & H1 & H2 & H3 & H4)
  end.
  destruct (fold_left _ _ _) as [results seen]. cbn [fst snd app] in *. subst results.
  cbn [withSeen SubdomainEnumerator.seenSubdomains].
  rewrite Forall_forall in H2.
  split; [exact H3 | split; [| split]]; intros h Hh.
  - apply list_elem_of_In, in_map_iff in Hh. destruct Hh as (s & <- & Hs).
    apply list_elem_of_In, H2 in Hs. tauto.
  - apply list_elem_of_In, in_map_iff in Hh. destruct Hh as (s & <- & Hs).
    apply list_elem_of_In, H2 in Hs. apply H4. tauto.
  - apply H4. tauto.
Qed.

(** Two sources one after the other report disjoint names. *)
Lemma fresh_then_fresh e r1 (r2 : list SubdomainResult * SubdomainEnumerator.t) :
  reportsFresh e r1 -> reportsFresh r1.2 r2 ->
  NoDup (hostnames r1.1 ++ hostnames r2.1)
  /\ NoDup (hostnames r2.1 ++ hostnames r1.1).
Proof.
  intros (Ha1 & Ha2 & Ha3 & Ha4) (Hb1 & Hb2 & Hb3 & Hb4).
  split; apply NoDup_app; (split; [assumption | split; [| assumption]]).
  - intros h Hh1 Hh2. apply (Hb2 h Hh2), Ha3, Hh1.
  - intros h Hh2 Hh1. apply (Hb2 h Hh2), Ha3, Hh1.
Qed.

Lemma gather_unique_and_unseen crtFirst response file clockCrt clockWords e :
  NoDup (hostnames (gather crtFirst response file clockCrt clockWords e).1)
  /\ Forall (fun s => sub_hostname s ∉ SubdomainEnumerator.seenSubdomains e)
       (gather crtFirst response file clockCrt clockWords e).1.
Proof.
  unfold gather. destruct crtFirst.
  - pose proof (crtsh_reportsFresh response clockCrt e) as Hc.
    pose proof (seen_after_crtsh response clockCrt e) as Hseen.
    destruct (enumerateFromCrtSh response clockCrt e) as [c e1].
    pose proof (wordlist_reportsFresh file clockWords e1) as Hw.
    destruct (enumerateFromWordlist file clockWords e1) as [w e2].
    destruct (fresh_then_fresh e (c, e1) (w, e2) Hc Hw) as [Hnd _].
    cbn [fst snd] in *. rewrite List.map_app. split; [exact Hnd |].
    apply Forall_app. destruct Hc as (_ & Hc & _). destruct Hw as (_ & Hw & _).
    cbn [fst snd] in *. split; apply Forall_forall; intros s Hs.
    + apply Hc, list_elem_of_In, in_map, list_elem_of_In, Hs.
    + intros Hin. apply (Hw (sub_hostname s));
        [apply list_elem_of_In, in_map, list_elem_of_In, Hs | apply Hseen, Hin].
  - pose proof (wordlist_reportsFresh file clockWords e) as Hw.
    destruct (enumerateFromWordlist file clockWords e) as [w e1].
    pose proof (crtsh_reportsFresh response clockCrt e1) as Hc.
    destruct (enumerateFromCrtSh response clockCrt e1) as [c e2].
    destruct (fresh_then_fresh e (w, e1) (c, e2) Hw Hc) as [_ Hnd].
    cbn [fst snd] in *. rewrite List.map_app. split; [exact Hnd |].
    apply Forall_app. destruct Hw as (_ & Hw & _ & Hkeep). destruct Hc as (_ & Hc & _).
    cbn [fst snd] in *. split; apply Forall_forall; intros s Hs.
    + intros Hin. apply (Hc (sub_hostname s));
        [apply list_elem_of_In, in_map, list_elem_of_In, Hs | apply Hkeep, Hin].
    + apply Hw, list_elem_of_In, in_map, list_elem_of_In, Hs.
Qed.

(** X12. In whichever order the two sources complete, and whatever was seen
    before, the gathered candidates name every host once, and no candidate
    had been seen before. *)
Theorem gathered_hostnames_are_unique crtFirst response file clockCrt clockWords e :
  let results := (gather crtFirst response file clockCrt clockWords e).1 in
  NoDup (hostnames results)
  /\ Forall (fun s => sub_hostname s ∉ SubdomainEnumerator.seenSubdomains e) results.
Proof. apply gather_unique_and_unseen. Qed.

Lemma verified_hostnames_sublist (candidates : list SubdomainResult) :
  forall outcomes : list (list string),
    hostnames (omap (fun cr => Spec.verified cr.1 (Some cr.2)) (zip candidates outcomes))
    `sublist_of` hostnames candidates.
Proof.
  induction candidates as [| c cs IH]; intros [| ips outcomes]; cbn;
    try apply sublist_nil_l.
  specialize (IH outcomes). destruct ips as [| ip ips]; cbn.
  - apply sublist_cons, IH.
  - apply sublist_skip, IH.
Qed.

Lemma verifyDNS_resolved resolve4 resolve6 clock schedule candidates e :
  Forall (fun s => resolvedIPs s <> [])
    (SubdomainEnumerator.verifyDNS resolve4 resolve6 clock schedule candidates e).1.
Proof.
  destruct (verifyDNS_outcomes resolve4 resolve6 clock schedule candidates e)
    as (outcomes & _ & _ & Hperm).
  rewrite Hperm. apply Forall_forall. intros s Hs.
  apply list_elem_of_omap in Hs. destruct Hs as [[c r] [_ Hv]]. cbn in Hv.
  destruct r as [| ip ips]; inversion Hv. cbn. discriminate.
Qed.

Lemma verifyDNS_unique resolve4 resolve6 clock schedule candidates e :
  NoDup (hostnames candidates) ->
  NoDup (hostnames
           (SubdomainEnumerator.verifyDNS resolve4 resolve6 clock schedule candidates e).1).
Proof.
  intros Hnd.
  destruct (verifyDNS_outcomes resolve4 resolve6 clock schedule candidates e)
    as (outcomes & _ & _ & Hperm).
  unfold hostnames. rewrite Hperm.
  eapply sublist_NoDup; [exact Hnd | apply verified_hostnames_sublist].
Qed.

(** X13. The output of [enumerate()] names every host at most once, in
    whichever order the sources complete and the verification tasks
    interleave, and every host in it has at least one resolved address. *)
Theorem enumerate_output_is_unique_and_resolved resolve4 resolve6 crtFirst response file
    clockCrt clockWords clockDns schedule e :
  let out := (enumerate resolve4 resolve6 crtFirst response file
                clockCrt clockWords clockDns schedule e).1 in
  NoDup (hostnames out) /\ Forall (fun s => resolvedIPs s <> []) out.
Proof.
  cbn zeta. unfold enumerate.
  pose proof (gather_unique_and_unseen crtFirst response file clockCrt clockWords e) as [Hnd _].
  destruct (gather crtFirst response file clockCrt clockWords e) as [results e1].
  cbn [fst] in Hnd. split.
  - apply verifyDNS_unique, Hnd.
  - apply verifyDNS_resolved.
Qed.

End DiscoveryFacts.

Example crtsh_collects_normalized_names :
  Discovery.collect "example.com"
    (Discovery.DataArray
       [Discovery.NameValue ("*.example.com" +:+ JSText.LF +:+ "WWW.Example.com " +:+ JSText.LF
                             +:+ "other.org" +:+ JSText.LF +:+ "www.example.com");
        Discovery.Malformed;
        Discovery.NameValue "api.example.com"])
  = ["www.example.com"; "api.example.com"].
Proof. vm_compute. reflexivity. Qed.

Example wordlist_skips_comments_and_blanks :
  Discovery.wordsOf ("# common" +:+ JSText.LF +:+ "www" +:+ JSText.LF +:+ JSText.LF
                     +:+ "  mail  " +:+ JSText.LF +:+ "#ftp" +:+ JSText.LF)
  = ["www"; "mail"].
Proof. vm_compute. reflexivity. Qed.

(** ** More on the prober *)

Section ProberUse.
Variable URL_toString : string -> string -> option string.
Variable URL_protocol : string -> option string.
Variable extractTitle : string -> option string.
Variable splitAltNames : string -> list string.
Variable Number : string -> Z.

Import HostProber.

Local Abbreviation probeHost :=
  (HostProber.probeHost URL_toString URL_protocol extractTitle splitAltNames Number).
Local Abbreviation fetchLoop := (HostProber.fetchLoop URL_toString URL_protocol).
Local Abbreviation fetchWithRedirects := (HostProber.fetchWithRedirects URL_toString URL_protocol).

(** X14. A record that an attempt assembles is served again from the cache:
    a second attempt at the same target within ten minutes returns the same
    record, whatever the network then answers. *)
Theorem assembled_record_is_served_from_cache w w' hostname ip protocol port self record :
  Inv.proberConfigured self ->
  (CacheManager.get (now_cacheGet w) (probeCacheKey hostname ip protocol port)
     (cache self)).1 = None ->
  (probeHost w hostname ip protocol port self).1 = Some record ->
  now_cacheGet w' - now_cacheSet w <= 600000 ->
  (probeHost w' hostname ip protocol port (probeHost w hostname ip protocol port self).2).1
  = Some record.
Proof.
  intros [Httl Hdef] Hmiss Hrec Hnow.
  pose proof (CacheManager_get_options (now_cacheGet w)
                (probeCacheKey hostname ip protocol port) (cache self)) as Hopt.
  assert (forall c : CacheManager.t ProbeResult,
             CacheManager.defaultTTL
               (CacheManager.get (now_cacheGet w)
                  (probeCacheKey hostname ip protocol port) c).2
             = CacheManager.defaultTTL c) as Hdef'.
  { intros c. unfold CacheManager.get.
    destruct (LRU.get _ _ _) as [[entry |] c']; [destruct (_ <? _) |]; reflexivity. }
  specialize (Hdef' (cache self)).
  unfold HostProber.probeHost in Hrec |- *.
  destruct (CacheManager.get (now_cacheGet w) _ (cache self)) as [r c].
  cbn [fst snd] in Hmiss, Hopt, Hdef'. subst r.
  cbn [withCache cache timeout] in Hrec |- *.
  destruct (HostProber.fetchWithRedirects _ _ w _) as [[finalResponse |] chain];
    [| discriminate].
  destruct (res_body finalResponse) as [body |]; [| discriminate].
  cbn [fst snd withCache cache] in Hrec |- *. injection Hrec as Hrec.
  rewrite Hrec.
  pose proof (get_after_set (now_cacheSet w) (now_cacheGet w')
                (probeCacheKey hostname ip protocol port) record None c) as Hhit.
  cbn zeta in Hhit. rewrite Hopt, Httl, Hdef', Hdef in Hhit. cbn [JS.nullish] in Hhit.
  replace (600000 <? now_cacheGet w' - now_cacheSet w) with false in Hhit
    by (symmetry; apply Z.ltb_ge; lia).
  replace (now_cacheSet w + 600000 <? now_cacheGet w') with false in Hhit
    by (symmetry; apply Z.ltb_ge; lia).
  rewrite andb_false_r in Hhit.
  destruct (CacheManager.get (now_cacheGet w') _ _) as [r c']. cbn [fst] in Hhit. subst r.
  reflexivity.
Qed.

(** X15. An attempt that yields nothing caches nothing: afterwards no record
    is stored under the key of its target, so the next attempt goes to the
    network again. *)
Theorem failed_attempt_is_not_cached w hostname ip protocol port self :
  (probeHost w hostname ip protocol port self).1 = None ->
  CacheManager.stored (probeCacheKey hostname ip protocol port)
    (cache (probeHost w hostname ip protocol port self).2) = false.
Proof.
  pose proof (stored_after_get (now_cacheGet w) (probeCacheKey hostname ip protocol port)
                (cache self)) as Hst.
  unfold HostProber.probeHost.
  destruct (CacheManager.get (now_cacheGet w) _ (cache self)) as [[cached |] c];
    cbn [fst snd] in Hst |- *; [discriminate |].
  assert (CacheManager.stored (probeCacheKey hostname ip protocol port) c = false) as Hc.
  { rewrite Hst. apply bool_decide_eq_false. intros [? ?]. discriminate. }
  cbn [withCache cache timeout].
  destruct (HostProber.fetchWithRedirects _ _ w _) as [[finalResponse |] chain];
    [| intros _; exact Hc].
  destruct (res_body finalResponse) as [body |]; [discriminate | intros _; exact Hc].
Qed.

(** Whatever the loop returns, its chain has at most one entry per turn, and
    a response that it returns is not a redirect to follow. *)
Lemma fetchLoop_result w host maxRedirects (n : nat) :
  forall redirects url chain,
    Z.to_nat (maxRedirects + 1 - redirects) = n ->
    Z.of_nat (List.length chain) <= redirects ->
    -1 <= maxRedirects ->
    let r := fetchLoop w host maxRedirects redirects url chain in
    Z.of_nat (List.length r.2) <= Z.max redirects (maxRedirects + 1)
    /\ match r.1 with
       | Some resp =>
           isRedirect (res_statusCode resp) && bool_decide (is_Some (rawLocation resp)) = false
       | None => True
       end.
Proof.
  induction n as [| n IH]; intros redirects url chain Hn Hlen Hmax; cbn zeta;
    rewrite fetchLoop_step; destruct (decide _) as [Hle | Hgt];
    try (cbn [fst snd]; split; [lia | exact I]); try lia.
  destruct (request w _ url host) as [r | msg]; [| cbn [fst snd]; split; [lia | exact I]].
  destruct (isRedirect (res_statusCode r)) eqn:Hred;
    [| cbn [fst snd]; rewrite Hred; split; [lia | reflexivity]].
  destruct (rawLocation r) as [raw |] eqn:Hraw;
    [| cbn [fst snd]; rewrite Hred, Hraw; split; [lia | ]].
  - destruct (HostProber.resolveLocation _ _ url raw) as [location |];
      [| cbn [fst snd]; split; [lia | exact I]].
    specialize (IH (redirects + 1) location (chain ++ [location])).
    cbn zeta in IH. destruct IH as [IH1 IH2];
      [lia | rewrite length_app; cbn [List.length]; lia | lia |].
    split; [lia | exact IH2].
  - reflexivity.
Qed.

(** X16. Whatever the network does, [fetchWithRedirects] collects at most
    [maxRedirects + 1] redirect locations, and a response that it returns
    as final is not a 3xx with a [Location]: such a response is always
    followed. *)
Theorem fetch_chain_is_bounded_and_final_is_final w opts :
  0 <= fo_maxRedirects opts ->
  let r := fetchWithRedirects w opts in
  Z.of_nat (List.length r.2) <= fo_maxRedirects opts + 1
  /\ match r.1 with
     | Some resp =>
         isRedirect (res_statusCode resp) && bool_decide (is_Some (rawLocation resp)) = false
     | None => True
     end.
Proof.
  intros Hmax. cbn zeta. unfold HostProber.fetchWithRedirects.
  match goal with |- context [HostProber.fetchLoop _ _ w ?h ?m 0 ?u []] =>
    pose proof (fetchLoop_result w h m (Z.to_nat (m + 1 - 0)) 0 u [] eq_refl
                  ltac:(cbn; lia) ltac:(lia)) as H
  end.
  cbn zeta in H. destruct H as [H1 H2]. split; [lia | exact H2].
Qed.

End ProberUse.

(** Witness: a record assembled in a world that answers is served again in a
    world that does not. *)
Lemma assembled_record_is_served_from_cache_witness :
  exists record,
    (HostProber.probeHost plainURL noProtocol noTitle noAltNames zeroNumber
       plainWorld "example.com" "10.0.0.1" http 80
       (HostProber.new None None None None)).1 = Some record
    /\ (HostProber.probeHost plainURL noProtocol noTitle noAltNames zeroNumber
          silentWorld "example.com" "10.0.0.1" http 80
          (HostProber.probeHost plainURL noProtocol noTitle noAltNames zeroNumber
             plainWorld "example.com" "10.0.0.1" http 80
             (HostProber.new None None None None)).2).1 = Some record.
Proof.
  destruct (HostProber.probeHost plainURL noProtocol noTitle noAltNames zeroNumber
              plainWorld "example.com" "10.0.0.1" http 80
              (HostProber.new None None None None)).1 as [record |] eqn:E.
  - exists record. split; [reflexivity |].
    apply (assembled_record_is_served_from_cache plainURL noProtocol noTitle noAltNames
             zeroNumber plainWorld silentWorld "example.com" "10.0.0.1" http 80
             (HostProber.new None None None None) record).
    + split; reflexivity.
    + reflexivity.
    + exact E.
    + vm_compute. discriminate.
  - vm_compute in E. discriminate.
Defined.

(** Witness: an attempt in a world that does not answer. *)
Lemma failed_attempt_is_not_cached_witness :
  CacheManager.stored (HostProber.probeCacheKey "example.com" "10.0.0.1" http 80)
    (HostProber.cache
       (HostProber.probeHost plainURL noProtocol noTitle noAltNames zeroNumber
          silentWorld "example.com" "10.0.0.1" http 80
          (HostProber.new None None None None)).2) = false.
Proof.
  apply (failed_attempt_is_not_cached plainURL noProtocol noTitle noAltNames zeroNumber
           silentWorld "example.com" "10.0.0.1" http 80 (HostProber.new None None None None)).
  vm_compute. reflexivity.
Defined.

(** Witness: the loop of [probeHost] in a world that redirects for ever. *)
Lemma fetch_chain_is_bounded_and_final_is_final_witness :
  Z.of_nat
    (List.length
       (HostProber.fetchWithRedirects plainURL noProtocol loopingWorld
          (HostProber.mkFetchOptions "example.com" "10.0.0.1" http 80 5 3000)).2) <= 6.
Proof.
  pose proof (fetch_chain_is_bounded_and_final_is_final plainURL noProtocol loopingWorld
                (HostProber.mkFetchOptions "example.com" "10.0.0.1" http 80 5 3000)
                ltac:(vm_compute; discriminate)) as H.
  exact (proj1 H).
Defined.

(** ** Endpoint expansion and the notes of the checks *)

Section EndpointUse.
Import HostProber.

Lemma NoDup_setAdd x s : NoDup s -> NoDup (JS.setAdd x s).
Proof.
  intros H. unfold JS.setAdd. case_bool_decide as Hx; [exact H |].
  apply NoDup_app. split; [exact H | split; [| apply NoDup_singleton]].
  intros y Hy Hy'. apply list_elem_of_singleton in Hy'. subst y. contradiction.
Qed.

Lemma NoDup_addVariations paths p : NoDup paths -> NoDup (addVariations paths p).
Proof.
  intros H. unfold addVariations.
  destruct (negb (JS.endsWith p "/")), (negb (JS.includes p "."));
    repeat apply NoDup_setAdd; exact H.
Qed.

Lemma elem_of_addVariations x paths p :
  x ∈ addVariations paths p <->
  x ∈ paths
  \/ (JS.endsWith p "/" = false /\ x = p +:+ "/")
  \/ (JS.includes p "." = false /\ (x = p +:+ ".php" \/ x = p +:+ ".asp")).
Proof.
  unfold addVariations.
  destruct (JS.endsWith p "/"), (JS.includes p "."); cbn [negb];
    rewrite ?elem_of_setAdd; intuition congruence.
Qed.

(** The loop over the snapshot of the base paths. *)
Lemma variations_loop snapshot :
  forall paths,
    NoDup paths ->
    NoDup (fold_left addVariations snapshot paths)
    /\ forall x, x ∈ fold_left addVariations snapshot paths <->
                 x ∈ paths
                 \/ exists p, p ∈ snapshot
                      /\ ((JS.endsWith p "/" = false /\ x = p +:+ "/")
                          \/ (JS.includes p "." = false
                              /\ (x = p +:+ ".php" \/ x = p +:+ ".asp"))).
Proof.
  induction snapshot as [| p snapshot IH]; intros paths Hnd; cbn [fold_left].
  - split; [exact Hnd |]. intros x. split; [tauto |].
    intros [H | (p & Hp & _)]; [exact H | inversion Hp].
  - destruct (IH (addVariations paths p) (NoDup_addVariations _ _ Hnd)) as [H1 H2].
    split; [exact H1 |]. intros x. rewrite H2, elem_of_addVariations. split.
    + intros [[H | H] | (q & Hq & H)]; [tauto | right; exists p; split; [left | exact H] |].
      right. exists q. split; [right; exact Hq | exact H].
    + intros [H | (q & Hq & H)]; [tauto |].
      apply elem_of_cons in Hq. destruct Hq as [-> | Hq]; [tauto |].
      right. exists q. tauto.
Qed.

Lemma base_loop commonEndpoints :
  forall paths,
    NoDup paths ->
    NoDup (fold_left (fun paths p => JS.setAdd p paths) commonEndpoints paths)
    /\ forall x, x ∈ fold_left (fun paths p => JS.setAdd p paths) commonEndpoints paths
                 <-> x ∈ paths \/ x ∈ commonEndpoints.
Proof.
  induction commonEndpoints as [| p ps IH]; intros paths Hnd; cbn [fold_left].
  - split; [exact Hnd |]. intros x. rewrite elem_of_nil. tauto.
  - destruct (IH (JS.setAdd p paths) (NoDup_setAdd _ _ Hnd)) as [H1 H2].
    split; [exact H1 |]. intros x. rewrite H2, elem_of_setAdd, elem_of_cons. tauto.
Qed.

(** The paths that are requested: each one once, and exactly the root, the
    base paths and their variations. *)
Lemma expandPaths_spec commonEndpoints :
  NoDup (expandPaths commonEndpoints)
  /\ forall x, x ∈ expandPaths commonEndpoints <->
               x = "/" \/ x ∈ commonEndpoints
               \/ exists p, p ∈ commonEndpoints
                    /\ ((JS.endsWith p "/" = false /\ x = p +:+ "/")
                        \/ (JS.includes p "." = false
                            /\ (x = p +:+ ".php" \/ x = p +:+ ".asp"))).
Proof.
  unfold expandPaths.
  destruct (base_loop commonEndpoints [] ltac:(constructor)) as [Hb1 Hb2].
  set (base := fold_left (fun paths p => JS.setAdd p paths) commonEndpoints []) in *.
  destruct (variations_loop base base Hb1) as [Hv1 Hv2].
  split; [apply NoDup_setAdd, Hv1 |].
  intros x. rewrite elem_of_setAdd, Hv2, Hb2, elem_of_nil. split.
  - intros [[[[] | H] | (p & Hp & H)] | ->]; [tauto | | tauto].
    right. right. exists p. rewrite Hb2, elem_of_nil in Hp. tauto.
  - intros [-> | [H | (p & Hp & H)]]; [tauto | tauto |].
    left. right. exists p. rewrite Hb2, elem_of_nil. tauto.
Qed.

Lemma partition_Permutation {A} (f : A -> bool) (l : list A) :
  List.filter f l ++ List.filter (fun x => negb (f x)) l ≡ₚ l.
Proof.
  induction l as [| x l IH]; [reflexivity |]. cbn [List.filter].
  destruct (f x); cbn [negb app].
  - constructor. exact IH.
  - rewrite <- Permutation_middle. constructor. exact IH.
Qed.

(** X17. Endpoint discovery requests every path of the expanded set once:
    the paths of the checks are the expanded set up to order, without
    repetition, and the expanded set is exactly the root, the configured
    paths, their trailing-slash variants and, for paths without a dot, their
    [.php] and [.asp] variants. *)
Theorem one_check_per_expanded_path w self hostname protocol port :
  List.map path (probeEndpoints w self hostname protocol port)
  ≡ₚ expandPaths (commonEndpoints self)
  /\ NoDup (List.map path (probeEndpoints w self hostname protocol port))
  /\ forall x, x ∈ expandPaths (commonEndpoints self) <->
               x = "/" \/ x ∈ commonEndpoints self
               \/ exists p, p ∈ commonEndpoints self
                    /\ ((JS.endsWith p "/" = false /\ x = p +:+ "/")
                        \/ (JS.includes p "." = false
                            /\ (x = p +:+ ".php" \/ x = p +:+ ".asp"))).
Proof.
  destruct (expandPaths_spec (commonEndpoints self)) as [Hnd Hspec].
  assert (List.map path (probeEndpoints w self hostname protocol port)
          ≡ₚ expandPaths (commonEndpoints self)) as Hperm.
  { unfold probeEndpoints. rewrite sort_existsFirst, partition_Permutation.
    rewrite List.map_map.
    erewrite List.map_ext; [rewrite List.map_id; reflexivity |].
    intros p. apply path_probeEndpoint. }
  split; [exact Hperm | split; [| exact Hspec]].
  rewrite Hperm. exact Hnd.
Qed.

(** X18. A check carries a note only when its endpoint exists, and the note
    is one of the three notes of the prober. *)
Theorem notes_only_on_existing_endpoints w self hostname protocol port :
  Forall (fun e =>
            match ec_notes e with
            | Some note => exists_ e = true /\ note ∈ Inv.proberNotes
            | None => True
            end)
    (probeEndpoints w self hostname protocol port).
Proof.
  apply Forall_forall. intros e He.
  apply elem_of_probeEndpoints in He. destruct He as [p [_ ->]].
  unfold probeEndpoint. destruct (endpointRequest w _ hostname) as [resp | msg];
    cbn [ec_notes exists_]; [| exact I].
  destruct (res_statusCode resp <? 400); [| exact I].
  destruct (res_body resp) as [txt |]; [| exact I].
  unfold Inv.proberNotes.
  destruct (_ || _); [split; [reflexivity | left] |].
  destruct (_ && _); [split; [reflexivity | right; left] |].
  destruct (_ && _); [split; [reflexivity | right; right; left] | exact I].
Qed.

End EndpointUse.

(** ** More on the classifier *)

Section ClassifierUse.
Import Classifier.

Lemma elem_of_categoriesOf c cs :
  c ∈ Spec.categoriesOf cs <-> exists contribution, contribution ∈ cs /\ c ∈ contribution.1.
Proof.
  unfold Spec.categoriesOf. rewrite list_elem_of_In, in_concat. split.
  - intros (l & Hl & Hc). apply in_map_iff in Hl. destruct Hl as (x & <- & Hx).
    exists x. split; apply list_elem_of_In; assumption.
  - intros (x & Hx & Hc). exists x.1. split; [apply in_map |]; apply list_elem_of_In; assumption.
Qed.

Lemma elem_of_hookCategories c plugins r :
  c ∈ Spec.hookCategories plugins r
  <-> exists contribution, contribution ∈ Spec.hookContributions plugins r /\ c ∈ contribution.1.
Proof.
  unfold Spec.hookCategories. rewrite list_elem_of_In, in_concat. split.
  - intros (l & Hl & Hc). apply in_map_iff in Hl. destruct Hl as (x & <- & Hx).
    exists x. split; apply list_elem_of_In; assumption.
  - intros (x & Hx & Hc). exists x.1. split; [apply in_map |]; apply list_elem_of_In; assumption.
Qed.

Lemma numeric_scores now plugins r :
  Spec.numeric (Spec.hookScores plugins r) -> Spec.numeric (Spec.scores now plugins r).
Proof.
  intros Hnum. unfold Spec.scores, Spec.numeric. apply Forall_app. split; [| exact Hnum].
  apply Forall_forall. intros x Hx. apply list_elem_of_In, in_map_iff in Hx.
  destruct Hx as (z & <- & _). discriminate.
Qed.

(** A score that was contributed is a lower bound of the score of the
    record, up to the clamp, when no hook returns [NaN]. *)
Lemma score_shows now plugins r c log x :
  classifyRecord now plugins r = Some (c, log) ->
  Spec.numeric (Spec.hookScores plugins r) ->
  x ∈ Spec.scores now plugins r ->
  Spec.le (JS.Math_min x (JS.ofZ 100)) (riskScore c).
Proof.
  intros Hsome Hnum Hx.
  destruct (classifyRecord_contributions _ _ _ _ _ Hsome) as (_ & _ & ->).
  apply Math_min_mono; [| discriminate].
  apply fold_Math_max_elem; [discriminate | apply numeric_scores, Hnum | exact Hx].
Qed.

(** What a built-in rule contributes shows in the classified record. *)
Lemma builtIn_contribution_shows now plugins r c log cs z :
  classifyRecord now plugins r = Some (c, log) ->
  (cs, z) ∈ Spec.builtInContributions now r ->
  (forall category, category ∈ cs -> category ∈ categories c)
  /\ (Spec.numeric (Spec.hookScores plugins r) ->
      Spec.le (JS.ofZ (Z.min z 100)) (riskScore c)).
Proof.
  intros Hsome Hin. split.
  - destruct (classifyRecord_contributions _ _ _ _ _ Hsome) as (_ & -> & _).
    intros category Hcat. apply elem_of_dedupe. unfold Spec.pushedCategories.
    apply elem_of_app. left.
    assert (category ∈ Spec.categoriesOf (Spec.builtInContributions now r)) as H
      by (apply elem_of_categoriesOf; exists (cs, z); split; assumption).
    destruct (Spec.categoriesOf (Spec.builtInContributions now r)); [inversion H | exact H].
  - intros Hnum. rewrite <- Math_min_ofZ.
    apply (score_shows now plugins r c log _ Hsome Hnum).
    unfold Spec.scores, Spec.scoresOf. apply elem_of_app. left.
    apply list_elem_of_In, in_map, (in_map snd _ (cs, z)), list_elem_of_In, Hin.
Qed.

(** What a hook contributes shows in the classified record. *)
Lemma hook_contribution_shows now plugins r c log cs x :
  classifyRecord now plugins r = Some (c, log) ->
  (cs, x) ∈ Spec.hookContributions plugins r ->
  (forall category, category ∈ cs -> category ∈ categories c)
  /\ (Spec.numeric (Spec.hookScores plugins r) ->
      Spec.le (JS.Math_min x (JS.ofZ 100)) (riskScore c)).
Proof.
  intros Hsome Hin. split.
  - destruct (classifyRecord_contributions _ _ _ _ _ Hsome) as (_ & -> & _).
    intros category Hcat. apply elem_of_dedupe. unfold Spec.pushedCategories.
    apply elem_of_app. right. apply elem_of_hookCategories.
    exists (cs, x). split; assumption.
  - intros Hnum. apply (score_shows now plugins r c log _ Hsome Hnum).
    unfold Spec.scores, Spec.hookScores. apply elem_of_app. right.
    apply list_elem_of_In, (in_map snd _ (cs, x)), list_elem_of_In, Hin.
Qed.

(** X19. Whatever a built-in rule or a hook contributes shows in the
    classified record: its categories are among the categories, and,
    unless a hook returned [NaN] as its score, the risk score is at least
    its score, or 100 if that is less. *)
Theorem contributions_show_in_the_record now plugins r c log :
  classifyRecord now plugins r = Some (c, log) ->
  (forall cs z, (cs, z) ∈ Spec.builtInContributions now r ->
     (forall category, category ∈ cs -> category ∈ categories c)
     /\ (Spec.numeric (Spec.hookScores plugins r) ->
         Spec.le (JS.ofZ (Z.min z 100)) (riskScore c)))
  /\ (forall cs x, (cs, x) ∈ Spec.hookContributions plugins r ->
        (forall category, category ∈ cs -> category ∈ categories c)
        /\ (Spec.numeric (Spec.hookScores plugins r) ->
            Spec.le (JS.Math_min x (JS.ofZ 100)) (riskScore c))).
Proof.
  intros Hsome. split; intros cs x Hin.
  - apply (builtIn_contribution_shows now plugins r c log cs x Hsome Hin).
  - apply (hook_contribution_shows now plugins r c log cs x Hsome Hin).
Qed.

Lemma NoDup_dedupeFrom l :
  forall seen, NoDup (JS.dedupeFrom seen l).
Proof.
  induction l as [| x l IH]; intros seen; cbn [JS.dedupeFrom]; [constructor |].
  case_bool_decide as Hx; [apply IH |].
  apply NoDup_cons. split; [| apply IH].
  rewrite elem_of_dedupeFrom. intros [_ H]. apply H. left.
Qed.

Lemma dedupeFrom_sublist l : forall seen, JS.dedupeFrom seen l `sublist_of` l.
Proof.
  induction l as [| x l IH]; intros seen; cbn [JS.dedupeFrom]; [constructor |].
  case_bool_decide; [apply sublist_cons | apply sublist_skip]; apply IH.
Qed.

(** X20. The categories of a classified record hold no category twice and
    keep the order of first appearance: they are a sublist of the
    categories as they were pushed. *)
Theorem categories_are_deduplicated now plugins r c log :
  classifyRecord now plugins r = Some (c, log) ->
  NoDup (categories c)
  /\ categories c
     `sublist_of` (match Spec.categoriesOf (Spec.builtInContributions now r) with
                    | [] => ["standard"]
                    | cs => cs
                    end ++ Spec.hookCategories plugins r).
Proof.
  intros Hsome. destruct (classifyRecord_contributions _ _ _ _ _ Hsome) as (_ & -> & _).
  split; [apply NoDup_dedupeFrom | apply dedupeFrom_sublist].
Qed.

(** X21. A certificate that has expired is flagged twice: as expired and as
    expiring, since its time left is below a week as well; the risk score is
    at least 65, unless a hook returned [NaN] as its score. *)
Theorem expired_certificate_is_also_expiring now plugins r t v c log :
  tls r = Some t -> validTo t = Some v -> v < now ->
  classifyRecord now plugins r = Some (c, log) ->
  "expired-certificate" ∈ categories c
  /\ "expiring-certificate" ∈ categories c
  /\ (Spec.numeric (Spec.hookScores plugins r) -> Spec.le (JS.ofZ 65) (riskScore c)).
Proof.
  intros Ht Hv Hlt Hsome.
  assert (Spec.tlsContributions now r
          = [(["expired-certificate"], 65); (["expiring-certificate"], 40)]
            ++ Spec.when (hasWeakCipher t) (["weak-cipher"], 70)) as Htls.
  { unfold Spec.tlsContributions. rewrite Ht, Hv.
    replace (v <? now) with true by (symmetry; apply Z.ltb_lt; lia).
    replace (v - now <? oneWeek) with true
      by (symmetry; apply Z.ltb_lt; unfold oneWeek; lia).
    reflexivity. }
  assert (forall x, x ∈ [(["expired-certificate"], 65); (["expiring-certificate"], 40)] ->
                    x ∈ Spec.builtInContributions now r) as Hin.
  { intros x Hx. unfold Spec.builtInContributions. rewrite Htls.
    rewrite !elem_of_app. do 4 right. left. left. exact Hx. }
  destruct (builtIn_contribution_shows now plugins r c log ["expired-certificate"] 65 Hsome)
    as [H1 H2]; [apply Hin; left |].
  destruct (builtIn_contribution_shows now plugins r c log ["expiring-certificate"] 40 Hsome)
    as [H3 _]; [apply Hin; right; left |].
  split; [apply H1; left | split; [apply H3; left | exact H2]].
Qed.

Lemma scores_when b cs k bound :
  k <= bound -> Forall (fun x => x <= bound) (Spec.scoresOf (Spec.when b (cs, k))).
Proof. intros H. destruct b; cbn; [constructor; [exact H | constructor] | constructor]. Qed.

(** No built-in rule scores above 85. *)
Lemma builtIn_scores_le_85 now r :
  Forall (fun x => x <= 85) (Spec.scoresOf (Spec.builtInContributions now r)).
Proof.
  unfold Spec.builtInContributions. rewrite !scoresOf_app.
  repeat (apply Forall_app; split).
  - unfold Spec.hostnameContributions, hostnamePatterns. cbn [flat_map fst snd].
    rewrite !scoresOf_app. repeat (apply Forall_app; split);
      try (apply scores_when; lia). constructor.
  - unfold Spec.statusContributions.
    destruct (_ && _); [cbn; constructor; [lia | constructor] |].
    destruct (_ || _); [cbn; constructor; [lia | constructor] |].
    destruct (500 <=? _); [cbn; constructor; [lia | constructor] | constructor].
  - unfold Spec.headerContributions. rewrite !scoresOf_app.
    repeat (apply Forall_app; split); apply scores_when; lia.
  - unfold Spec.endpointContributions. rewrite !scoresOf_app.
    repeat (apply Forall_app; split); apply scores_when; lia.
  - unfold Spec.tlsContributions. destruct (tls r) as [t |].
    + rewrite scoresOf_app. apply Forall_app. split; [| apply scores_when; lia].
      destruct (validTo t); [| constructor]. rewrite scoresOf_app.
      apply Forall_app. split; apply scores_when; lia.
    + destruct (protocol r); [cbn; constructor; [lia | constructor] | constructor].
  - apply scores_when. lia.
Qed.

Lemma fold_max_le l bound : forall a, a <= bound -> Forall (fun x => x <= bound) l ->
  fold_left Z.max l a <= bound.
Proof.
  induction l as [| x l IH]; intros a Ha Hl; [exact Ha |].
  cbn [fold_left]. inversion Hl; subst. apply IH; [lia | assumption].
Qed.

Lemma hookScores_app plugins plugins' r :
  Spec.hookScores (plugins ++ plugins') r
  = Spec.hookScores plugins r ++ Spec.hookScores plugins' r.
Proof.
  unfold Spec.hookScores, Spec.hookContributions. rewrite omap_app. apply List.map_app.
Qed.

Lemma scores_app now plugins plugins' r :
  Spec.scores now (plugins ++ plugins') r
  = Spec.scores now plugins r ++ Spec.hookScores plugins' r.
Proof. unfold Spec.scores. rewrite hookScores_app. apply app_assoc. Qed.

Lemma scores_nil now r :
  Spec.scores now [] r = List.map JS.ofZ (Spec.scoresOf (Spec.builtInContributions now r)).
Proof. unfold Spec.scores. apply app_nil_r. Qed.

(** X22. Without hooks the risk score never exceeds 85, the highest score of
    a built-in rule; and registering one more hook never lowers the score
    of a record, unless a hook returns [NaN] as its score. *)
Theorem hooks_only_raise_the_score now plugins p r c c' log log' :
  classifyRecord now plugins r = Some (c, log) ->
  classifyRecord now (plugins ++ [p]) r = Some (c', log') ->
  Spec.numeric (Spec.hookScores (plugins ++ [p]) r) ->
  (plugins = [] -> Spec.le (riskScore c) (JS.ofZ 85))
  /\ Spec.le (riskScore c) (riskScore c').
Proof.
  intros Hsome Hsome' Hnum.
  destruct (classifyRecord_contributions _ _ _ _ _ Hsome) as (_ & _ & Hr).
  destruct (classifyRecord_contributions _ _ _ _ _ Hsome') as (_ & _ & Hr').
  split.
  - intros ->. rewrite Hr, scores_nil, fold_Math_max_ofZ, Math_min_ofZ.
    unfold Spec.le. rewrite leb_ofZ. apply Z.leb_le.
    pose proof (fold_max_le _ 85 0 ltac:(lia) (builtIn_scores_le_85 now r)). lia.
  - rewrite Hr, Hr', scores_app, fold_left_app.
    rewrite hookScores_app in Hnum. apply Forall_app in Hnum. destruct Hnum as [Hnum Hp].
    apply Math_min_mono; [| discriminate].
    apply fold_Math_max_ge; [| exact Hp].
    apply fold_Math_max_numeric; [discriminate |].
    apply (numeric_scores now plugins r Hnum).
Qed.

End ClassifierUse.

(** Witness: the hook of [customPlugin] on the quiet record. *)
Lemma contributions_show_in_the_record_witness :
  exists c log,
    Classifier.classifyRecord 0 [customPlugin] quietRecord = Some (c, log)
    /\ "custom-category" ∈ categories c
    /\ Spec.le (JS.ofZ 90) (riskScore c).
Proof.
  destruct (Classifier.classifyRecord 0 [customPlugin] quietRecord) as [[c log] |] eqn:H;
    [| vm_compute in H; discriminate].
  exists c, log. split; [reflexivity |].
  destruct (contributions_show_in_the_record 0 [customPlugin] quietRecord c log H) as [_ Hh].
  destruct (Hh ["custom-category"] (JS.ofZ 90)) as [Hc Hs]; [left |].
  split; [apply Hc; left |].
  apply Hs. constructor; [discriminate | constructor].
Defined.

(** Witness: the same record and hook. *)
Lemma categories_are_deduplicated_witness :
  exists c log,
    Classifier.classifyRecord 0 [customPlugin] quietRecord = Some (c, log)
    /\ NoDup (categories c).
Proof.
  destruct (Classifier.classifyRecord 0 [customPlugin] quietRecord) as [[c log] |] eqn:H;
    [| vm_compute in H; discriminate].
  exists c, log. split; [reflexivity |].
  apply (categories_are_deduplicated 0 [customPlugin] quietRecord c log H).
Defined.

(** Witness: the record of the repository's test, one second after the
    certificate expired. *)
Lemma expired_certificate_is_also_expiring_witness :
  exists c log,
    Classifier.classifyRecord 1000 [] expiredRecord = Some (c, log)
    /\ "expired-certificate" ∈ categories c
    /\ "expiring-certificate" ∈ categories c
    /\ Spec.le (JS.ofZ 65) (riskScore c).
Proof.
  destruct (Classifier.classifyRecord 1000 [] expiredRecord) as [[c log] |] eqn:H;
    [| vm_compute in H; discriminate].
  exists c, log. split; [reflexivity |].
  destruct (expired_certificate_is_also_expiring 1000 [] expiredRecord
              (mkTLSInfo None (Some "TLSv1.2") (Some "AES256-SHA") None (Some (-1000)) (Some 0)
                 (Some "Test CA") (Some "test.example.com") ["test.example.com"] None)
              0 c log eq_refl eq_refl ltac:(lia) H) as (H1 & H2 & H3).
  split; [exact H1 | split; [exact H2 |]]. apply H3. constructor.
Defined.

(** Witness: the quiet record, without hooks and with the hook of
    [customPlugin]. *)
Lemma hooks_only_raise_the_score_witness :
  exists c c' log log',
    Classifier.classifyRecord 0 [] quietRecord = Some (c, log)
    /\ Classifier.classifyRecord 0 [customPlugin] quietRecord = Some (c', log')
    /\ Spec.le (riskScore c) (JS.ofZ 85)
    /\ Spec.le (riskScore c) (riskScore c').
Proof.
  destruct (Classifier.classifyRecord 0 [] quietRecord) as [[c log] |] eqn:H;
    [| vm_compute in H; discriminate].
  destruct (Classifier.classifyRecord 0 [customPlugin] quietRecord) as [[c' log'] |] eqn:H';
    [| vm_compute in H'; discriminate].
  exists c, c', log, log'. split; [reflexivity | split; [reflexivity |]].
  destruct (hooks_only_raise_the_score 0 [] customPlugin quietRecord c c' log log' H H')
    as [H1 H2]; [constructor; [discriminate | constructor] |].
  split; [apply H1; reflexivity | exact H2].
Defined.

(** ** The TLS descriptor and the headers of a record *)

Section DescriptorFacts.
Import HostProber.

(** X23. The descriptor that the TLS inspection attaches is of one of two
    kinds: a handshake descriptor, without validation error and with a
    fingerprint, or a validation-error descriptor, which carries one of the
    four recognized codes, no alternative name and nothing else. *)
Theorem tls_descriptor_is_handshake_or_error splitAltNames w hostname port :
  match extractTLSInfoSafe splitAltNames w hostname port with
  | Some d =>
      match validationError d with
      | None => is_Some (ja3Lite d)
      | Some code =>
          code ∈ validationErrorCodes
          /\ d = mkTLSInfo (Some code) None None None None None None None [] None
      end
  | None => True
  end.
Proof.
  unfold extractTLSInfoSafe.
  destruct (tlsConnect w hostname port) as [[cert |] getProtocol getCipher | code |];
    try exact I.
  - cbn. eauto.
  - destruct (truthyOpt code) as [c |]; [| exact I].
    case_bool_decide as Hc; [| exact I]. cbn. split; [exact Hc | reflexivity].
Qed.

(** X24. A certificate that fails validation is not scored: on a record
    whose descriptor is a validation-error descriptor, even for an expired
    certificate, the TLS rules and the no-TLS rule of the classifier leave
    categories, score and notes as they are. *)
Theorem validation_error_is_not_scored splitAltNames w hostname port now r a :
  tls r = extractTLSInfoSafe splitAltNames w hostname port ->
  (exists code, tlsConnect w hostname port = TlsError (Some code)
                /\ code ∈ validationErrorCodes) ->
  is_Some (tls r)
  /\ Classifier.tlsRules now r a = a
  /\ Classifier.noTlsRule r a = a
  /\ Spec.tlsContributions now r = [].
Proof.
  intros Htls (code & Hconn & Hcode). unfold extractTLSInfoSafe in Htls.
  rewrite Hconn in Htls. unfold truthyOpt, JS.truthy in Htls.
  assert (String.eqb code "" = false) as Hne.
  { apply String.eqb_neq. intros ->. revert Hcode. clear. intros H.
    unfold validationErrorCodes in H. repeat (apply elem_of_cons in H; destruct H as [H | H];
      [discriminate |]). inversion H. }
  rewrite Hne in Htls. cbn [negb] in Htls.
  rewrite bool_decide_eq_true_2 in Htls by exact Hcode.
  unfold Classifier.tlsRules, Classifier.noTlsRule, Spec.tlsContributions.
  rewrite Htls. cbn. split; [eauto | split; [reflexivity | split; reflexivity]].
Qed.

(** X25. [normalizeHeaders] keeps the header names, leaves only strings as
    values (an array is joined with a comma and a space) and is idempotent. *)
Theorem normalizeHeaders_gives_strings (hs : gmap string HeaderValue) :
  dom (normalizeHeaders hs) = dom hs
  /\ (forall k v, normalizeHeaders hs !! k = Some v ->
        exists s, v = HString s
                  /\ (hs !! k = Some (HString s)
                      \/ exists vs, hs !! k = Some (HArray vs) /\ s = JS.join ", " vs))
  /\ normalizeHeaders (normalizeHeaders hs) = normalizeHeaders hs.
Proof.
  unfold normalizeHeaders. split; [apply dom_fmap_L | split].
  - intros k v. rewrite lookup_fmap. destruct (hs !! k) as [[s | vs] |]; cbn.
    + intros [= <-]. exists s. split; [reflexivity | left; reflexivity].
    + intros [= <-]. exists (JS.join ", " vs).
      split; [reflexivity | right; exists vs; split; reflexivity].
    + discriminate.
  - rewrite <- map_fmap_compose. apply map_fmap_ext.
    intros k [s | vs] _; reflexivity.
Qed.

End DescriptorFacts.

(** Witness: a handshake that fails on an expired certificate. *)
Lemma validation_error_is_not_scored_witness :
  let r := mkProbeResult "example.com" "10.0.0.1" https 443 200 "200" ∅ 0 None []
             (HostProber.extractTLSInfoSafe noAltNames expiredCertWorld "example.com" 443)
             [] 100 0 in
  Spec.tlsContributions 1000 r = [].
Proof.
  intros r.
  apply (validation_error_is_not_scored noAltNames expiredCertWorld "example.com" 443 1000 r
           (Classifier.mkAcc [] 0 [])).
  - reflexivity.
  - exists "CERT_HAS_EXPIRED". split; [reflexivity |].
    apply list_elem_of_further, list_elem_of_here.
Defined.

(** ** From the prober to the classifier *)

Lemma find_is_Some {A} (f : A -> bool) (l : list A) (x : A) :
  x ∈ l -> f x = true -> is_Some (List.find f l).
Proof.
  intros Hx Hf. destruct (List.find f l) as [y |] eqn:Hfind; [eauto |].
  apply list_elem_of_In in Hx.
  rewrite (find_none f l Hfind x Hx) in Hf. discriminate.
Qed.

Section ProberToClassifier.
Import HostProber Classifier.

(** X26. An endpoint that answers below 400 with a page containing
    [Index of /] or [Parent Directory] (in any case) marks the whole host:
    the record built from the endpoint checks of [probeEndpoints] is
    classified [directory-listing], with a risk score of at least 80 unless
    a hook returned [NaN] as its score. *)
Theorem listing_page_marks_the_host w self host proto prt now plugins r p resp txt c log :
  endpoints r = probeEndpoints w self host proto prt ->
  p ∈ expandPaths (commonEndpoints self) ->
  endpointRequest w (endpointUrl host proto prt p) host = Responded resp ->
  res_statusCode resp < 400 ->
  res_body resp = Some txt ->
  JS.testLiteralI "Index of /" txt || JS.testLiteralI "Parent Directory" txt = true ->
  classifyRecord now plugins r = Some (c, log) ->
  "directory-listing" ∈ categories c
  /\ (Spec.numeric (Spec.hookScores plugins r) -> Spec.le (JS.ofZ 80) (riskScore c)).
Proof.
  intros Hr Hp Hreq Hstatus Hbody Hpage Hsome.
  assert (is_Some (List.find hasListingNote (endpoints r))) as Hfind.
  { apply (find_is_Some _ _ (probeEndpoint w host proto prt p)).
    - rewrite Hr. unfold probeEndpoints.
      apply elem_of_sort_existsFirst, list_elem_of_In, in_map, list_elem_of_In, Hp.
    - unfold probeEndpoint. rewrite Hreq. cbn zeta.
      replace (res_statusCode resp <? 400) with true by (symmetry; apply Z.ltb_lt; lia).
      rewrite Hbody, Hpage. reflexivity. }
  destruct (builtIn_contribution_shows now plugins r c log ["directory-listing"] 80 Hsome)
    as [H1 H2].
  - unfold Spec.builtInContributions, Spec.endpointContributions.
    rewrite bool_decide_eq_true_2 by exact Hfind.
    rewrite !elem_of_app. do 3 right. left. right. left.
  - split; [apply H1; left | exact H2].
Qed.

End ProberToClassifier.

(** Witness: a host whose root serves an index page. *)
Lemma listing_page_marks_the_host_witness :
  let self := HostProber.new None None None (Some ["/"]) in
  let r := mkProbeResult "files.example.com" "10.0.0.1" http 80 200 "200" ∅ 0 None []
             None (HostProber.probeEndpoints listingWorld self "files.example.com" http 80)
             100 0 in
  exists c log,
    Classifier.classifyRecord 0 [] r = Some (c, log)
    /\ "directory-listing" ∈ categories c
    /\ Spec.le (JS.ofZ 80) (riskScore c).
Proof.
  intros self r.
  destruct (Classifier.classifyRecord 0 [] r) as [[c log] |] eqn:H;
    [| vm_compute in H; discriminate].
  exists c, log. split; [reflexivity |].
  destruct (listing_page_marks_the_host listingWorld self "files.example.com" http 80
              0 [] r "/" (HostProber.mkResponse 200 ∅ (Some "<h1>Index of /backup</h1>"))
              "<h1>Index of /backup</h1>" c log eq_refl ltac:(vm_compute; constructor)
              eq_refl ltac:(cbn; lia) eq_refl ltac:(vm_compute; reflexivity) H) as [H1 H2].
  split; [exact H1 | apply H2; constructor].
Defined.

(** ** Retrying with backoff *)

Section RetryFacts.
Import Concurrency.
Context {E T : Type}.
Variable task : nat -> Settled E T.
Variables maxRetries delayMs : Z.

Lemma retryLoop_failures (errors : nat -> E) (k : nat) :
  forall remaining attempt lastError sleeps,
  (forall j, (attempt <= j < attempt + k)%nat -> task j = RejectedWith (errors j)) ->
  (k <= remaining)%nat ->
  Z.of_nat (attempt + k) <= maxRetries ->
  retryLoop task maxRetries delayMs remaining attempt lastError sleeps
  = retryLoop task maxRetries delayMs (remaining - k) (attempt + k)
      (match k with O => lastError | S k' => Some (errors (attempt + k')%nat) end)
      (sleeps ++ List.map (delayAfter delayMs) (seq attempt k)).
Proof.
  induction k as [| k IH]; intros remaining attempt lastError sleeps Hfail Hle Hmax.
  - cbn [seq List.map]. rewrite Nat.sub_0_r, Nat.add_0_r, app_nil_r. reflexivity.
  - destruct remaining as [| remaining]; [lia |].
    cbn [retryLoop]. rewrite (Hfail attempt) by lia. cbn zeta.
    replace (Z.of_nat attempt <? maxRetries) with true by (symmetry; apply Z.ltb_lt; lia).
    rewrite IH; [| intros j Hj; apply Hfail; lia | lia | lia].
    cbn [seq List.map]. rewrite <- app_assoc. cbn [app].
    replace (S remaining - S k)%nat with (remaining - k)%nat by lia.
    replace (S attempt + k)%nat with (attempt + S k)%nat by lia.
    destruct k as [| k'].
    + rewrite Nat.add_0_r. reflexivity.
    + replace (S attempt + k')%nat with (attempt + S k')%nat by lia. reflexivity.
Qed.

Lemma foldr_add_acc (l : list Z) (a : Z) : foldr Z.add a l = foldr Z.add 0 l + a.
Proof. induction l as [| x l IH]; cbn [foldr]; [lia | rewrite IH; lia]. Qed.

Lemma total_backoff (k : nat) :
  foldr Z.add 0 (List.map (delayAfter delayMs) (seq 0 k)) = delayMs * (2 ^ Z.of_nat k - 1).
Proof.
  induction k as [| k IH]; [cbn; lia |].
  rewrite seq_S, List.map_app, foldr_app. cbn [List.map foldr Nat.add].
  rewrite foldr_add_acc, IH. unfold delayAfter.
  rewrite Nat2Z.inj_succ, Z.pow_succ_r by lia. lia.
Qed.

(** X27. [retryWithBackoff] sleeps between two calls of the task and never
    after the last one, doubling the delay each time. When the first [k]
    calls fail, [k] within the retry budget, the delays slept are
    [delayMs], [2 delayMs], ..., [2^(k-1) delayMs], in total
    [(2^k - 1) delayMs]; a success of call [k] is then returned after
    [k + 1] calls, and a failure of call [k = maxRetries] rejects with that
    last error, without any further sleep. *)
Theorem retry_backs_off_between_calls (errors : nat -> E) (k : nat) :
  Z.of_nat k <= maxRetries ->
  (forall j, (j < k)%nat -> task j = RejectedWith (errors j)) ->
  let schedule := List.map (delayAfter delayMs) (seq 0 k) in
  (forall v, task k = Fulfilled v ->
     retryWithBackoff task (Some maxRetries) (Some delayMs)
     = (Fulfilled v, (S k, schedule)))
  /\ (forall e, task k = RejectedWith e -> Z.of_nat k = maxRetries ->
        retryWithBackoff task (Some maxRetries) (Some delayMs)
        = (RejectedWith (Some e), (S k, schedule)))
  /\ foldr Z.add 0 schedule = delayMs * (2 ^ Z.of_nat k - 1).
Proof.
  intros Hk Hfail. cbn zeta.
  assert (exists lastError remaining,
            Z.of_nat remaining = maxRetries - Z.of_nat k
            /\ retryWithBackoff task (Some maxRetries) (Some delayMs)
               = retryLoop task maxRetries delayMs (S remaining) k lastError
                   (List.map (delayAfter delayMs) (seq 0 k))) as Hloop.
  { exists (match k with O => None | S k' => Some (errors k') end).
    exists (Z.to_nat (maxRetries + 1) - S k)%nat.
    split; [lia |].
    unfold retryWithBackoff. cbn [JS.nullish].
    rewrite (retryLoop_failures errors k); [| intros j Hj; apply Hfail; lia | lia | lia].
    replace (Z.to_nat (maxRetries + 1) - k)%nat
      with (S (Z.to_nat (maxRetries + 1) - S k)) by lia.
    reflexivity. }
  destruct Hloop as (lastError & remaining & Hrem & ->).
  split; [| split].
  - intros v Hv. cbn [retryLoop]. rewrite Hv. reflexivity.
  - intros e He Hlast. cbn [retryLoop]. rewrite He. cbn zeta.
    replace (Z.of_nat k <? maxRetries) with false by (symmetry; apply Z.ltb_ge; lia).
    destruct remaining as [| remaining]; [reflexivity | lia].
  - apply total_backoff.
Qed.

(** X28. With a negative [maxRetries] the task is never called:
    [retryWithBackoff] rejects at once, with [undefined] as the reason. *)
Theorem retry_with_negative_budget_never_calls (delay : option Z) :
  maxRetries < 0 ->
  retryWithBackoff task (Some maxRetries) delay = (RejectedWith None, (0%nat, [])).
Proof.
  intros Hneg. unfold retryWithBackoff. cbn [JS.nullish].
  replace (Z.to_nat (maxRetries + 1)) with 0%nat by lia. reflexivity.
Qed.

End RetryFacts.

(** Witness: two failures, then a success, with the default budget. *)
Lemma retry_backs_off_between_calls_witness :
  Concurrency.retryWithBackoff flakyTask (Some 3) (Some 1000)
  = (Concurrency.Fulfilled 7, (3%nat, [1000; 2000])).
Proof.
  pose proof (retry_backs_off_between_calls flakyTask 3 1000 (fun _ => "ETIMEDOUT") 2
                ltac:(lia)) as H.
  cbn zeta in H. destruct H as [H _].
  - intros j Hj. unfold flakyTask.
    destruct (Nat.ltb_spec j 2) as [_ | Hge]; [reflexivity | lia].
  - exact (H 7 eq_refl).
Defined.

(** Witness: a budget of -1. *)
Lemma retry_with_negative_budget_never_calls_witness :
  Concurrency.retryWithBackoff flakyTask (Some (-1)) None
  = (Concurrency.RejectedWith None, (0%nat, [])).
Proof. apply (retry_with_negative_budget_never_calls flakyTask (-1) None). lia. Defined.

(** ** The notes of a classified record *)

Lemma prefix_append (p s : string) : String.prefix p (p +:+ s) = true.
Proof.
  induction p as [| a p IH]; [destruct s; reflexivity |].
  change (String.prefix (String a p) (String a (p +:+ s)) = true).
  cbn [String.prefix].
  destruct (Ascii.ascii_dec a a) as [_ | Hne]; [exact IH | contradiction].
Qed.

Lemma prefix_empty (s : string) : String.prefix "" s = true.
Proof. destruct s; reflexivity. Qed.

Lemma prefix_refl (p : string) : String.prefix p p = true.
Proof.
  induction p as [| a p IH]; [reflexivity |].
  cbn [String.prefix].
  destruct (Ascii.ascii_dec a a) as [_ | Hne]; [exact IH | contradiction].
Qed.

Lemma join_head sep (p : string) (rest : list string) :
  String.prefix p (JS.join sep (p :: rest)) = true
  /\ (p <> "" -> JS.join sep (p :: rest) <> "").
Proof.
  destruct rest as [| q rest]; cbn [JS.join].
  - split; [apply prefix_refl | auto].
  - split; [apply prefix_append |]. destruct p; [intros H; contradiction | discriminate].
Qed.

Lemma pluginStep_notes r a log p a' log' :
  Classifier.pluginStep r (a, log) p = Some (a', log') ->
  exists more,
    Classifier.loc_notes a' = Classifier.loc_notes a ++ more
    /\ Forall (fun n => n <> "") more.
Proof.
  unfold Classifier.pluginStep.
  destruct (Classifier.onClassify p) as [hook |];
    [| intros [= <- <-]; exists []; rewrite app_nil_r; split; [reflexivity | constructor]].
  destruct (hook r) as [raw | thrown].
  - destruct (Classifier.acceptedHint raw) as [[cs hint] |];
      [| intros [= <- <-]; exists []; rewrite app_nil_r; split; [reflexivity | constructor]].
    intros [= <- <-]. cbn [Classifier.loc_notes]. eexists. split; [reflexivity |].
    destruct (Classifier.raw_notes hint) as [n |]; [| constructor].
    unfold JS.truthy. destruct (String.eqb_spec n ""); cbn [negb]; constructor;
      [assumption | constructor].
  - destruct (Classifier.errorMessageOf thrown); [| discriminate].
    intros [= <- <-]. exists []. rewrite app_nil_r. split; [reflexivity | constructor].
Qed.

Lemma pluginLoop_notes r plugins :
  forall a log a' log',
    Classifier.pluginLoop r plugins (a, log) = Some (a', log') ->
    exists extra,
      Classifier.loc_notes a' = Classifier.loc_notes a ++ extra
      /\ Forall (fun n => n <> "") extra.
Proof.
  induction plugins as [| p plugins IH]; intros a log a' log' H; cbn [Classifier.pluginLoop] in H.
  - injection H as <- <-. exists []. rewrite app_nil_r. split; [reflexivity | constructor].
  - destruct (Classifier.pluginStep r (a, log) p) as [[a1 log1] |] eqn:Hstep; [| discriminate].
    destruct (pluginStep_notes _ _ _ _ _ _ Hstep) as (more & Hm & Hmore).
    destruct (IH _ _ _ _ H) as (extra & -> & Hextra).
    exists (more ++ extra). rewrite Hm, app_assoc. split; [reflexivity |].
    apply Forall_app. split; assumption.
Qed.

Section NotesFacts.
Import Classifier.

(** X29. The notes of a classified record are never empty, and they begin
    with the notes of the built-in rules: what the hooks add comes after
    them. *)
Theorem classified_notes_begin_with_builtIn_notes now plugins r c log :
  classifyRecord now plugins r = Some (c, log) ->
  notes c <> ""
  /\ String.prefix (hint_notes (applyBuiltInRules now r)) (notes c) = true.
Proof.
  unfold classifyRecord. cbn zeta.
  set (b := hint_notes (applyBuiltInRules now r)).
  set (a0 := mkLocals _ _ _).
  destruct (pluginLoop r plugins (a0, [])) as [[a log0] |] eqn:Hloop; [| discriminate].
  destruct (pluginLoop_notes _ _ _ _ _ _ Hloop) as (extra & Hnotes & Hextra).
  intros [= <- <-]. cbn [notes]. rewrite Hnotes. subst a0. cbn [loc_notes].
  unfold JS.truthy. destruct (String.eqb_spec b "") as [-> | Hb]; cbn [negb app].
  - destruct extra as [| e extra]; [split; [discriminate | reflexivity] |].
    apply Forall_cons in Hextra. destruct Hextra as [He _].
    split; [apply (join_head "; " e extra), He | apply prefix_empty].
  - split; [apply (join_head "; " b extra), Hb | apply (join_head "; " b extra)].
Qed.

End NotesFacts.

(** Witness: the quiet record with the hook of [customPlugin]. *)
Lemma classified_notes_begin_with_builtIn_notes_witness :
  exists c log,
    Classifier.classifyRecord 0 [customPlugin] quietRecord = Some (c, log)
    /\ notes c <> "".
Proof.
  destruct (Classifier.classifyRecord 0 [customPlugin] quietRecord) as [[c log] |] eqn:H;
    [| vm_compute in H; discriminate].
  exists c, log. split; [reflexivity |].
  apply (classified_notes_begin_with_builtIn_notes 0 [customPlugin] quietRecord c log H).
Defined.

(** ** The SARIF report *)

Section ReportFacts.
Import App.




End ReportFacts.
